(** * fs-backend: the in-memory file system simulator of [src/filesystem.ts]

    A shallow embedding of the [FileSystem] volume engine and of the
    [VFSManager] mount layer, with the properties of the design document
    stated and settled over it.

    Conventions of the embedding.
    - A JS string is a [string]; [length] and [slice] count its characters
      (the code units of the JS string).
    - A JS array is a list of cells, a cell being [None] for a hole (an index
      that was never written and reads [undefined]); writing past the end
      extends the array, as JS does.
    - [children: Record<string, FSNode>] is an association list in insertion
      order with unique keys ([children[k] = v] replaces in place or appends,
      [delete children[k]] removes), which is the order in which
      [Object.entries] lists keys that are not array indices.  The entries
      are the directory's own.  The names a directory inherits from
      [Object.prototype] are entries of none: a test of [children[k]] finds
      them ([Children.truthy]); a lookup whose value is used as a node is
      modelled for the names that are not inherited.
    - Mutation through object references is mutation at a path from the
      root: the node tree reachable from [root] never shares a node.
    - [throw] is the [Throw] outcome of a state and error monad; the state is
      kept when an operation throws, so partial mutations stay visible.
    - [now()] is a reading of the wall clock; one reading [now] is taken per
      operation call and passed as an argument. *)

From stdpp Require Import base list strings option sets.
From Stdlib Require Import Ascii ZArith Lia Sorted.

Set Warnings "-clear-no-such-hyp".

Open Scope string_scope.
Open Scope nat_scope.
Open Scope list_scope.

(** ** Strings as the source uses them *)

Module Str.

(** [s.startsWith(p)] *)
Definition startsWith (s p : string) : bool := String.prefix p s.

(** [s.slice(n)] for [0 <= n] *)
Fixpoint sliceFrom (n : nat) (s : string) : string :=
  match n, s with
  | O, _ => s
  | S n', EmptyString => EmptyString
  | S n', String _ s' => sliceFrom n' s'
  end.

(** [s.slice(0, m)] *)
Fixpoint take (m : nat) (s : string) : string :=
  match m, s with
  | O, _ => EmptyString
  | S _, EmptyString => EmptyString
  | S m', String c s' => String c (take m' s')
  end.

(** [s.slice(a, b)] for [0 <= a <= b] *)
Definition slice (a b : nat) (s : string) : string := take (b - a) (sliceFrom a s).

(** [s.endsWith("/")] *)
Fixpoint endsWithSlash (s : string) : bool :=
  match s with
  | EmptyString => false
  | String c EmptyString => Ascii.eqb c "/"%char
  | String _ s' => endsWithSlash s'
  end.

(** [s.split("/")] *)
Fixpoint split (s : string) : list string :=
  match s with
  | EmptyString => [EmptyString]
  | String c s' =>
      if Ascii.eqb c "/"%char then EmptyString :: split s'
      else match split s' with
           | [] => [String c EmptyString]
           | seg :: rest => String c seg :: rest
           end
  end.

(** [l.join(sep)] *)
Definition join (sep : string) (l : list string) : string := String.concat sep l.

(** [l.filter(Boolean)] on strings: the empty string is the only falsy one *)
Definition filterNonEmpty (l : list string) : list string :=
  filter (fun s => s ≠ EmptyString) l.

(** [l.join(sep)] with the empty separator *)
Definition concat (l : list string) : string := foldr String.append EmptyString l.

End Str.

(** ** Paths *)

Module Path.

(** Node's [path.posix.normalize], which the source imports as [pathPosix]:
    the platform's function, written here segment by segment.  Empty and
    ["."] segments are dropped, [".."] removes the segment before it; at
    the front of a relative path [".."] is kept ([allowAboveRoot]), at the
    front of an absolute path it is dropped. *)
Definition normalizeStep (allowAboveRoot : bool) (stack : list string) (seg : string)
  : list string :=
  if String.eqb seg EmptyString || String.eqb seg "." then stack
  else if String.eqb seg ".." then
    match stack with
    | top :: rest =>
        if String.eqb top ".." then (if allowAboveRoot then ".." :: stack else stack)
        else rest
    | [] => if allowAboveRoot then [".."] else []
    end
  else seg :: stack.

Definition normalizeString (path : string) (allowAboveRoot : bool) : string :=
  Str.join "/" (rev (fold_left (normalizeStep allowAboveRoot) (Str.split path) [])).

Definition posixNormalize (path : string) : string :=
  if String.eqb path EmptyString then "."
  else
    let isAbsolute := Str.startsWith path "/" in
    let trailingSeparator := Str.endsWithSlash path in
    let p := normalizeString path (negb isAbsolute) in
    if String.eqb p EmptyString then
      (if isAbsolute then "/" else if trailingSeparator then "./" else ".")
    else
      let p' := if trailingSeparator then p +:+ "/" else p in
      if isAbsolute then "/" +:+ p' else p'.

(** Node's [path.posix.join(a, b)]: the non-empty arguments joined by ["/"],
    then normalized; ["."] when there is nothing to join. *)
Definition posixJoin (a b : string) : string :=
  match Str.filterNonEmpty [a; b] with
  | [] => "."
  | l => posixNormalize (Str.join "/" l)
  end.

End Path.

(** ** Errors and outcomes *)

(** One constructor per [throw] site of the source, in the order of the
    source; the message of the thrown [Error] is given next to it. *)
Inductive Error : Type :=
  | ThrownSlash
      (** [normalizePath]: [throw p = "/"], the thrown value is the string ["/"] *)
  | RootHasNoParent            (** "Invalid path - root has no parent" *)
  | DirectoryNotFound (upTo : string)   (** "Directory not found: <upTo>" *)
  | NotADirectoryWhileResolving (part : string)
      (** "Not a directory while resolving path: <part>" *)
  | PathDoesNotExist (part p : string)
      (** "Path does not exist: <part> (while resolving <p>)" *)
  | RootAlreadyExists          (** "Root already exists" *)
  | EntryAlreadyExists         (** "Entry already exists" *)
  | NotADirectoryError         (** "Not a directory" *)
  | DiskFullCreating           (** "Disk full while creating file" *)
  | NotAFileError              (** "Not a file" *)
  | DiskFullWriting            (** "Disk full while writing file" *)
  | CannotDeleteRoot           (** "Cannot delete root" *)
  | PathNotFound               (** "Path not found" *)
  | DestinationNameExists      (** "Destination name already exists" *)
  | SourceNotFound             (** "Source not found" *)
  | DestinationNotDirectory    (** "Destination exists and is not a directory" *)
  | DestinationEntryExists     (** "Destination entry already exists" *)
  | SearchRootNotDirectory     (** "search root must be directory" *)
  | MountPointUsed             (** "Mount point already used" *)
  | MountPointNotFound         (** "Mount point not found" *)
  | CannotUnmountRootError     (** "Cannot unmount root" *)
  | RootMountUndefined
      (** [resolve]: the [TypeError] of reading [rootMount.fs] when no mount is at ["/"] *).

(** The error kinds of the design document. *)
Inductive ErrorKind : Type :=
  | NotFound | NotADirectory | NotAFile | AlreadyExists | InvalidPath
  | InvalidDestination | DiskFull | AlreadyMounted | CannotUnmountRoot
  | Untyped.

Definition kindOf (e : Error) : ErrorKind :=
  match e with
  | ThrownSlash => Untyped
  | RootHasNoParent => InvalidPath
  | DirectoryNotFound _ => NotFound
  | NotADirectoryWhileResolving _ => NotADirectory
  | PathDoesNotExist _ _ => NotFound
  | RootAlreadyExists => AlreadyExists
  | EntryAlreadyExists => AlreadyExists
  | NotADirectoryError => NotADirectory
  | DiskFullCreating => DiskFull
  | NotAFileError => NotAFile
  | DiskFullWriting => DiskFull
  | CannotDeleteRoot => InvalidPath
  | PathNotFound => NotFound
  | DestinationNameExists => AlreadyExists
  | SourceNotFound => NotFound
  | DestinationNotDirectory => InvalidDestination
  | DestinationEntryExists => AlreadyExists
  | SearchRootNotDirectory => NotADirectory
  | MountPointUsed => AlreadyMounted
  | MountPointNotFound => NotFound
  | CannotUnmountRootError => CannotUnmountRoot
  | RootMountUndefined => Untyped
  end.

Inductive Outcome (A : Type) : Type :=
  | Ok (a : A)
  | Throw (e : Error).
Arguments Ok {A} a.
Arguments Throw {A} e.

(** [normalizePath] (source lines 69-73).  A falsy [p] is the empty string. *)
Definition normalizePath (p : string) : Outcome string :=
  if String.eqb p EmptyString then Throw ThrownSlash
  else
    let np := Path.posixNormalize p in
    Ok (if Str.startsWith np "/" then np else "/" +:+ np).

(** ** JS arrays *)

Module JsArray.
Section Cells.
Context {A : Type}.

(** [a[i]]: [None] is [undefined] (a hole or an index past the end) *)
Definition get (a : list (option A)) (i : nat) : option A := mjoin (a !! i).

(** [a[i] = v] *)
Definition set (i : nat) (v : A) (a : list (option A)) : list (option A) :=
  if decide (i < length a) then <[i := Some v]> a
  else a ++ replicate (i - length a) None ++ [Some v].

(** [new Array(n).fill(v)] *)
Definition fill (n : nat) (v : A) : list (option A) := replicate n (Some v).

End Cells.
End JsArray.

(** ** The node model (source lines 19-52) *)

Record BaseNodeMeta : Type := mkMeta {
  createdAt : Z;
  updatedAt : Z;
  owner : string;
  mode : string
}.

Definition setUpdatedAt (t : Z) (m : BaseNodeMeta) : BaseNodeMeta :=
  mkMeta (createdAt m) t (owner m) (mode m).

(** [defaultMode(isDir)] *)
Definition defaultMode (isDir : bool) : string :=
  if isDir then "rwxr-xr-x" else "rw-r--r--".

Module FileNode.
Record t : Type := mk {
  name : string;
  blocks : list nat;
  size : nat;
  meta : BaseNodeMeta
}.
End FileNode.

Module Dir.
Record t (N : Type) : Type := mk {
  name : string;
  children : list (string * N);
  meta : BaseNodeMeta
}.
Arguments mk {N} name children meta.
Arguments name {N} _.
Arguments children {N} _.
Arguments meta {N} _.
End Dir.

#[warnings="-register-all"]
Inductive FSNode : Type :=
  | File (f : FileNode.t)
  | Directory (d : Dir.t FSNode).

Definition DirectoryNode : Type := Dir.t FSNode.

(** [n.name], [n.meta] *)
Definition nodeName (n : FSNode) : string :=
  match n with File f => FileNode.name f | Directory d => Dir.name d end.

Definition nodeMeta (n : FSNode) : BaseNodeMeta :=
  match n with File f => FileNode.meta f | Directory d => Dir.meta d end.

(** [n.name = newName] *)
Definition setNodeName (newName : string) (n : FSNode) : FSNode :=
  match n with
  | File f => File (FileNode.mk newName (FileNode.blocks f) (FileNode.size f) (FileNode.meta f))
  | Directory d => Directory (Dir.mk newName (Dir.children d) (Dir.meta d))
  end.

(** The names of the properties of [Object.prototype].  A directory's
    [children] is an object literal, so under each of these names
    [children[k]] is never [undefined]: without an entry of the directory's
    own it is a function, and under ["__proto__"] the prototype itself. *)
Definition objectPrototypeNames : list string :=
  ["constructor"; "__defineGetter__"; "__defineSetter__"; "hasOwnProperty";
   "__lookupGetter__"; "__lookupSetter__"; "isPrototypeOf"; "propertyIsEnumerable";
   "toString"; "valueOf"; "__proto__"; "toLocaleString"].

Definition inheritedName (k : string) : bool :=
  existsb (String.eqb k) objectPrototypeNames.

(** The [children] object of a directory: the entries of its own, in the
    order they were stored in. *)
Module Children.
Section Entries.
Context {N : Type}.

(** The node [children[k]]: the entry stored under [k].  Where the source
    only tests [children[k]], the test is [truthy] below; where it asks for
    a directory ([resolveParent]), an inherited value is refused like a
    missing one; where it goes on with the value as a node ([getNode],
    [deleteNode], the source of [rename] and [move]), [get] is the value
    for every [k] that is not an inherited name. *)
Fixpoint get (k : string) (cs : list (string * N)) : option N :=
  match cs with
  | [] => None
  | (k', v) :: rest => if String.eqb k k' then Some v else get k rest
  end.

(** [if (children[k])]: an entry stored under [k] is an object, and so is
    what an object without such an entry inherits under [k]. *)
Definition truthy (k : string) (cs : list (string * N)) : bool :=
  match get k cs with
  | Some _ => true
  | None => inheritedName k
  end.

(** [children[k] = v] *)
Fixpoint set (k : string) (v : N) (cs : list (string * N)) : list (string * N) :=
  match cs with
  | [] => [(k, v)]
  | (k', v') :: rest =>
      if String.eqb k k' then (k, v) :: rest else (k', v') :: set k v rest
  end.

(** [delete children[k]] *)
Fixpoint delete (k : string) (cs : list (string * N)) : list (string * N) :=
  match cs with
  | [] => []
  | (k', v') :: rest =>
      if String.eqb k k' then delete k rest else (k', v') :: delete k rest
  end.

(** A mutation of the object stored under [k], when there is one. *)
Fixpoint alter (f : N → N) (k : string) (cs : list (string * N)) : list (string * N) :=
  match cs with
  | [] => []
  | (k', v') :: rest =>
      if String.eqb k k' then (k', f v') :: rest else (k', v') :: alter f k rest
  end.
End Entries.
End Children.

(** ** The volume (source lines 77-92) *)

Record FileSystem : Type := mkFileSystem {
  name : string;
  totalBlocks : nat;
  blockSize : nat;
  freeBlockMap : list (option nat);   (** 0 = free, 1 = used *)
  blocks : list (option string);
  root : DirectoryNode
}.

Definition withStore (fbm : list (option nat)) (bl : list (option string))
  (fs : FileSystem) : FileSystem :=
  mkFileSystem (name fs) (totalBlocks fs) (blockSize fs) fbm bl (root fs).

Definition withRoot (r : DirectoryNode) (fs : FileSystem) : FileSystem :=
  mkFileSystem (name fs) (totalBlocks fs) (blockSize fs) (freeBlockMap fs) (blocks fs) r.

(** [createEmptyDir(name)] *)
Definition createEmptyDir (now : Z) (nm : string) : DirectoryNode :=
  Dir.mk nm [] (mkMeta now now "root" (defaultMode true)).

(** [new FileSystem({ name, totalBlocks, blockSize })] with all three given *)
Definition newFileSystem (now : Z) (nm : string) (total bs : nat) : FileSystem :=
  mkFileSystem nm total bs (JsArray.fill total 0) (JsArray.fill total EmptyString)
    (createEmptyDir now "/").

(** ** Methods: state and exceptions *)

Definition M (A : Type) : Type := FileSystem → Outcome A * FileSystem.

Definition ret {A} (a : A) : M A := fun fs => (Ok a, fs).
Definition throw {A} (e : Error) : M A := fun fs => (Throw e, fs).
Definition bind {A B} (m : M A) (k : A → M B) : M B :=
  fun fs => match m fs with
            | (Ok a, fs') => k a fs'
            | (Throw e, fs') => (Throw e, fs')
            end.
Definition modify (f : FileSystem → FileSystem) : M unit := fun fs => (Ok tt, f fs).
(** A computation that only reads [this]. *)
Definition reading {A} (f : FileSystem → Outcome A) : M A := fun fs => (f fs, fs).
(** [try { m } catch { h }]: the handler runs in the state the body left. *)
Definition tryCatch {A} (m : M A) (h : M A) : M A :=
  fun fs => match m fs with
            | (Ok a, fs') => (Ok a, fs')
            | (Throw _, fs') => h fs'
            end.

Notation "'let*' x := m 'in' k" := (bind m (fun x => k))
  (at level 10, x pattern, m at level 100, k at level 200).
Notation "m1 ;;; m2" := (bind m1 (fun _ => m2))
  (at level 100, m2 at level 200, right associativity).

(** *** Block allocation (source lines 110-126) *)

(** [this.freeBlockMap.indexOf(0)]; [None] is [-1] *)
Definition indexOf0 (a : list (option nat)) : option nat :=
  fst <$> list_find (fun c => c = Some 0) a.

Definition allocateBlock : M (option nat) := fun fs =>
  match indexOf0 (freeBlockMap fs) with
  | None => (Ok None, fs)
  | Some idx =>
      (Ok (Some idx),
       withStore (JsArray.set idx 1 (freeBlockMap fs))
                 (JsArray.set idx EmptyString (blocks fs)) fs)
  end.

(** [idx < 0] cannot hold of a natural number; the upper guard is the source's. *)
Definition freeBlock (idx : nat) : M unit := fun fs =>
  if totalBlocks fs <=? idx then (Ok tt, fs)
  else (Ok tt,
        withStore (JsArray.set idx 0 (freeBlockMap fs))
                  (JsArray.set idx EmptyString (blocks fs)) fs).

Definition getFreeBlockCount (fs : FileSystem) : nat :=
  foldl (fun sum c => match c with
                      | Some v => sum + (if v =? 0 then 1 else 0)
                      | None => sum
                      end) 0 (freeBlockMap fs).

(** [for (const b of ids) this.freeBlock(b)] *)
Fixpoint freeBlocks (ids : list nat) : M unit :=
  match ids with
  | [] => ret tt
  | b :: rest => freeBlock b ;;; freeBlocks rest
  end.

(** [this.blocks[b] = chunk] *)
Definition writeBlock (b : nat) (chunk : string) : M unit :=
  modify (fun fs => withStore (freeBlockMap fs) (JsArray.set b chunk (blocks fs)) fs).

(** [this.blocks[b] ?? EmptyString] *)
Definition readBlock (fs : FileSystem) (b : nat) : string :=
  default EmptyString (JsArray.get (blocks fs) b).

(** [ids.map((b) => this.blocks[b] ?? EmptyString).join(EmptyString)] *)
Definition readBlocks (fs : FileSystem) (ids : list nat) : string :=
  Str.concat (map (readBlock fs) ids).

(** *** Path resolution (source lines 131-169) *)

(** A reference to a node object: the keys leading to it from the root. *)
Definition Ref : Type := list string.

Definition liftOutcome {A} (o : Outcome A) : M A := fun fs => (o, fs).

(** [normalized.split("/").filter(Boolean)] *)
Definition partsOf (normalized : string) : list string :=
  Str.filterNonEmpty (Str.split normalized).

(** The loop of [resolveParent]; [seen] holds [parts.slice(0, i)]. *)
Fixpoint resolveParentLoop (seen parts : list string) (current : DirectoryNode)
  : Outcome (Ref * DirectoryNode * string) :=
  match parts with
  | [] => Throw RootHasNoParent
  | [nm] => Ok (seen, current, nm)
  | part :: rest =>
      match Children.get part (Dir.children current) with
      | Some (Directory child) => resolveParentLoop (seen ++ [part]) rest child
      | _ => Throw (DirectoryNotFound (Str.join "/" (seen ++ [part])))
      end
  end.

Definition resolveParent (p : string) : M (Ref * DirectoryNode * string) :=
  let* normalized := liftOutcome (normalizePath p) in
  reading (fun fs => resolveParentLoop [] (partsOf normalized) (root fs)).

(** The loop of [getNode]. *)
Fixpoint walk (p : string) (parts : list string) (current : FSNode) : Outcome FSNode :=
  match parts with
  | [] => Ok current
  | part :: rest =>
      match current with
      | File _ => Throw (NotADirectoryWhileResolving part)
      | Directory d =>
          match Children.get part (Dir.children d) with
          | None => Throw (PathDoesNotExist part p)
          | Some child => walk p rest child
          end
      end
  end.

(** [getNode(p)], returning the node together with the reference to it. *)
Definition getNodeRef (p : string) : M (Ref * FSNode) :=
  let* normalized := liftOutcome (normalizePath p) in
  if String.eqb normalized "/" then
    reading (fun fs => Ok ([], Directory (root fs)))
  else
    let parts := partsOf normalized in
    reading (fun fs => match walk p parts (Directory (root fs)) with
                       | Ok n => Ok (parts, n)
                       | Throw e => Throw e
                       end).

Definition getNode (p : string) : M FSNode :=
  let* r := getNodeRef p in ret (snd r).

Definition exists_ (p : string) : M bool :=
  tryCatch (getNode p ;;; ret true) (ret false).

(** *** Mutation of the object behind a reference *)

(** The directory object behind [ref] becomes [f] of itself. *)
Fixpoint updateDir (ref : Ref) (f : DirectoryNode → DirectoryNode) (d : DirectoryNode)
  : DirectoryNode :=
  match ref with
  | [] => f d
  | part :: rest =>
      Dir.mk (Dir.name d)
        (Children.alter (fun n => match n with
                                  | Directory d' => Directory (updateDir rest f d')
                                  | File _ => n
                                  end) part (Dir.children d))
        (Dir.meta d)
  end.

(** The file object behind [ref] becomes [f] of itself. *)
Fixpoint updateFile (ref : Ref) (f : FileNode.t → FileNode.t) (d : DirectoryNode)
  : DirectoryNode :=
  match ref with
  | [] => d
  | [k] =>
      Dir.mk (Dir.name d)
        (Children.alter (fun n => match n with
                                  | File x => File (f x)
                                  | Directory _ => n
                                  end) k (Dir.children d))
        (Dir.meta d)
  | part :: rest =>
      Dir.mk (Dir.name d)
        (Children.alter (fun n => match n with
                                  | Directory d' => Directory (updateFile rest f d')
                                  | File _ => n
                                  end) part (Dir.children d))
        (Dir.meta d)
  end.

Definition modifyDir (ref : Ref) (f : DirectoryNode → DirectoryNode) : M unit :=
  modify (fun fs => withRoot (updateDir ref f (root fs)) fs).

(** [parent.children[k] = node; parent.meta.updatedAt = now()] *)
Definition attachChild (now : Z) (k : string) (node : FSNode) (parent : DirectoryNode)
  : DirectoryNode :=
  Dir.mk (Dir.name parent) (Children.set k node (Dir.children parent))
    (setUpdatedAt now (Dir.meta parent)).

(** [delete parent.children[k]; parent.meta.updatedAt = now()] *)
Definition detachChild (now : Z) (k : string) (parent : DirectoryNode) : DirectoryNode :=
  Dir.mk (Dir.name parent) (Children.delete k (Dir.children parent))
    (setUpdatedAt now (Dir.meta parent)).

(** *** Directory operations (source lines 173-203) *)

Definition createDirectory (now : Z) (p : string) (owner' mode' : option string)
  : M DirectoryNode :=
  let* normalized := liftOutcome (normalizePath p) in
  if String.eqb normalized "/" then throw RootAlreadyExists
  else
    let* res := resolveParent normalized in
    let '(pref, parent, nm) := res in
    if Children.truthy nm (Dir.children parent) then throw EntryAlreadyExists
    else
      let dir := Dir.mk nm []
                   (mkMeta now now (default "root" owner')
                      (default (defaultMode true) mode')) in
      modifyDir pref (attachChild now nm (Directory dir)) ;;;
      ret dir.

Inductive NodeType : Type := TFile | TDirectory.

Record DirEntry : Type := mkDirEntry {
  entryName : string;
  entryType : NodeType;
  entrySize : option nat;
  entryMeta : BaseNodeMeta
}.

Definition listDirectory (p : string) : M (list DirEntry) :=
  let* node := getNode p in
  match node with
  | File _ => throw NotADirectoryError
  | Directory d =>
      ret (map (fun '(nm, child) =>
                  match child with
                  | File f => mkDirEntry nm TFile (Some (FileNode.size f)) (FileNode.meta f)
                  | Directory d' => mkDirEntry nm TDirectory None (Dir.meta d')
                  end) (Dir.children d))
  end.

(** *** File operations (source lines 207-289) *)

(** The chunk-and-allocate loop, written twice in the source: in
    [createFileNode] (lines 212-223) and in [writeFile] (lines 266-277),
    with [err] the message thrown after the rollback.  Every turn of the
    loop takes a free block, so the loop ends; [fuel] bounds its turns. *)
Fixpoint allocLoop (fuel : nat) (err : Error) (bs : nat) (content : string)
  (cursor : nat) (acc : list nat) (fs : FileSystem)
  : option (Outcome (list nat) * FileSystem) :=
  if cursor <? String.length content then
    match fuel with
    | 0 => None
    | S fuel' =>
        match allocateBlock fs with
        | (Ok (Some b), fs1) =>
            let chunk := Str.slice cursor (cursor + bs) content in
            let fs2 := snd (writeBlock b chunk fs1) in
            allocLoop fuel' err bs content (cursor + bs) (acc ++ [b]) fs2
        | (Ok None, fs1) => Some ((freeBlocks acc ;;; throw err) fs1)
        | (Throw e, fs1) => Some (Throw e, fs1)
        end
    end
  else Some (Ok acc, fs).

(** The loop with as many turns as the occupancy table has cells, and one
    more; [allocLoop_fuel] shows that the fuel never runs out. *)
Definition allocateChunks (err : Error) (content : string) : M (list nat) := fun fs =>
  match allocLoop (S (length (freeBlockMap fs))) err (blockSize fs) content 0 [] fs with
  | Some r => r
  | None => (Throw err, fs)
  end.

Definition createFileNode (now : Z) (nm content owner' : string) (mode' : option string)
  : M FileNode.t :=
  let* blks := allocateChunks DiskFullCreating content in
  ret (FileNode.mk nm blks (String.length content)
         (mkMeta now now owner' (default (defaultMode false) mode'))).

Definition createFile (now : Z) (p content : string) (owner' mode' : option string)
  : M FileNode.t :=
  let* normalized := liftOutcome (normalizePath p) in
  let* res := resolveParent normalized in
  let '(pref, parent, nm) := res in
  if Children.truthy nm (Dir.children parent) then throw EntryAlreadyExists
  else
    let* node := createFileNode now nm content (default "root" owner') mode' in
    modifyDir pref (attachChild now nm (File node)) ;;;
    ret node.

Definition readFile (p : string) : M string :=
  let* node := getNode p in
  match node with
  | Directory _ => throw NotAFileError
  | File f => reading (fun fs => Ok (readBlocks fs (FileNode.blocks f)))
  end.

Definition writeFile (now : Z) (p content : string) : M FileNode.t :=
  let* normalized := liftOutcome (normalizePath p) in
  let* r := getNodeRef normalized in
  match snd r with
  | Directory _ => throw NotAFileError
  | File f =>
      freeBlocks (FileNode.blocks f) ;;;
      let* newBlocks := allocateChunks DiskFullWriting content in
      let f' := FileNode.mk (FileNode.name f) newBlocks (String.length content)
                  (setUpdatedAt now (FileNode.meta f)) in
      modify (fun fs => withRoot (updateFile (fst r) (fun _ => f') (root fs)) fs) ;;;
      ret f'
  end.

Definition appendFile (now : Z) (p extra : string) : M FileNode.t :=
  let* node := getNode p in
  match node with
  | Directory _ => throw NotAFileError
  | File _ =>
      let* current := readFile p in
      writeFile now p (current +:+ extra)
  end.

(** *** Delete, rename, move, copy (source lines 291-405) *)

(** [deleteRec] of [deleteNode] *)
Fixpoint deleteRec (n : FSNode) : M unit :=
  match n with
  | File f => freeBlocks (FileNode.blocks f)
  | Directory d =>
      (fix each (cs : list (string * FSNode)) : M unit :=
         match cs with
         | [] => ret tt
         | (_, ch) :: rest => deleteRec ch ;;; each rest
         end) (Dir.children d)
  end.

Definition deleteNode (now : Z) (p : string) : M bool :=
  let* normalized := liftOutcome (normalizePath p) in
  if String.eqb normalized "/" then throw CannotDeleteRoot
  else
    let* res := resolveParent normalized in
    let '(pref, parent, nm) := res in
    match Children.get nm (Dir.children parent) with
    | None => throw PathNotFound
    | Some node =>
        deleteRec node ;;;
        modifyDir pref (detachChild now nm) ;;;
        ret true
    end.

Definition rename (now : Z) (p newName : string) : M FSNode :=
  let* normalized := liftOutcome (normalizePath p) in
  let* res := resolveParent normalized in
  let '(pref, parent, nm) := res in
  match Children.get nm (Dir.children parent) with
  | None => throw PathNotFound
  | Some node =>
      if Children.truthy newName (Dir.children parent) then throw DestinationNameExists
      else
        let node' := setNodeName newName node in
        modifyDir pref (fun par =>
          attachChild now newName node'
            (Dir.mk (Dir.name par) (Children.delete nm (Dir.children par)) (Dir.meta par))) ;;;
        ret node'
  end.

(** [pre] is a prefix of [l]: the object behind [l] lies at or below the one
    behind [pre]. *)
Fixpoint isPrefixOf (pre l : list string) : bool :=
  match pre, l with
  | [], _ => true
  | _ :: _, [] => false
  | a :: pre', b :: l' => String.eqb a b && isPrefixOf pre' l'
  end.

Definition move (now : Z) (src dst : string) : M FSNode :=
  let* sn := liftOutcome (normalizePath src) in
  let* dn := liftOutcome (normalizePath dst) in
  let* sres := resolveParent sn in
  let '(sref, sParent, sName) := sres in
  match Children.get sName (Dir.children sParent) with
  | None => throw SourceNotFound
  | Some node =>
      let* dres :=
        tryCatch
          (let* r := getNodeRef dn in
           match snd r with
           | Directory d => ret (fst r, d, nodeName node)
           | File _ => throw DestinationNotDirectory
           end)
          (resolveParent dn) in
      let '(dref, destParent, destName) := dres in
      if Children.truthy destName (Dir.children destParent) then throw DestinationEntryExists
      else
        let node' := setNodeName destName node in
        (* detach from the source parent *)
        modifyDir sref (detachChild now sName) ;;;
        (* attach: when the destination parent is the moved node or lies
           below it, it left the tree with the node, and the root sees
           nothing of the attachment *)
        (if isPrefixOf (sref ++ [sName]) dref then ret tt
         else modifyDir dref (attachChild now destName node')) ;;;
        ret node'
  end.

(** [cloneRec] of [copy]; [destName] is the variable of the enclosing call. *)
Fixpoint cloneRec (now : Z) (destName : string) (n : FSNode) : M FSNode :=
  match n with
  | File f =>
      let* content := reading (fun fs => Ok (readBlocks fs (FileNode.blocks f))) in
      let* node := createFileNode now destName content
                     (owner (FileNode.meta f)) (Some (mode (FileNode.meta f))) in
      ret (File node)
  | Directory d =>
      let* cs :=
        (fix each (entries acc : list (string * FSNode)) : M (list (string * FSNode)) :=
           match entries with
           | [] => ret acc
           | (k, child) :: rest =>
               let* childClone := cloneRec now destName child in
               each rest (Children.set (nodeName childClone) childClone acc)
           end) (Dir.children d) [] in
      ret (Directory (Dir.mk destName cs
                        (mkMeta now now (owner (Dir.meta d)) (mode (Dir.meta d)))))
  end.

Definition copy (now : Z) (src dst : string) : M FSNode :=
  let* node := getNode src in
  let* dn := liftOutcome (normalizePath dst) in
  let* dres :=
    tryCatch
      (let* r := getNodeRef dn in
       match snd r with
       | Directory d => ret (fst r, d, nodeName node)
       | File _ => throw DestinationNotDirectory
       end)
      (resolveParent dn) in
  let '(dref, destParent, destName) := dres in
  if Children.truthy destName (Dir.children destParent) then throw DestinationEntryExists
  else
    let* copied := cloneRec now destName node in
    modifyDir dref (attachChild now destName copied) ;;;
    ret copied.

(** *** stat, search, format (source lines 407-453) *)

Inductive Stat : Type :=
  | StatFile (nm : string) (sz : nat) (blks : list nat) (mt : BaseNodeMeta)
  | StatDirectory (nm : string) (childrenCount : nat) (mt : BaseNodeMeta).

Definition stat (p : string) : M Stat :=
  let* node := getNode p in
  match node with
  | File f =>
      ret (StatFile (FileNode.name f) (FileNode.size f) (FileNode.blocks f) (FileNode.meta f))
  | Directory d =>
      ret (StatDirectory (Dir.name d) (length (Dir.children d)) (Dir.meta d))
  end.

(** [walk] of [search]; the paths pushed to [out], in order. *)
Fixpoint searchWalk (predicate : FSNode → string → bool) (n : FSNode) (curPath : string)
  : list string :=
  app (if predicate n curPath then [curPath] else [])
    match n with
    | File _ => []
    | Directory d =>
        (fix each (cs : list (string * FSNode)) : list string :=
           match cs with
           | [] => []
           | (k, child) :: rest =>
               app (searchWalk predicate child (Path.posixJoin curPath k)) (each rest)
           end) (Dir.children d)
    end.

Definition search (rootPath : string) (predicate : FSNode → string → bool)
  : M (list string) :=
  let* start := getNode rootPath in
  match start with
  | File _ => throw SearchRootNotDirectory
  | Directory _ =>
      let* np := liftOutcome (normalizePath rootPath) in
      ret (searchWalk predicate start np)
  end.

Definition getTree : M DirectoryNode := reading (fun fs => Ok (root fs)).

Definition format (now : Z) (zeroBlocks : bool) : M unit :=
  modify (fun fs =>
    mkFileSystem (name fs) (totalBlocks fs) (blockSize fs)
      (JsArray.fill (totalBlocks fs) 0)
      (if zeroBlocks then JsArray.fill (totalBlocks fs) EmptyString else blocks fs)
      (createEmptyDir now "/")).

(** ** VFSManager (source lines 499-606) *)

Module VFS.

Record Mount : Type := mkMount {
  mountPoint : string;
  fs : FileSystem
}.

(** The private [mounts] array. *)
Definition Mounts : Type := list Mount.

(** [mounts.sort((a, b) => b.mountPoint.length - a.mountPoint.length)]: the
    sort of the platform is stable, so mounts of one length keep their order.
    [insertByLength m l] puts [m], which stood before all of [l], into the
    sorted [l]. *)
Fixpoint insertByLength (m : Mount) (l : Mounts) : Mounts :=
  match l with
  | [] => [m]
  | x :: rest =>
      if String.length (mountPoint m) <? String.length (mountPoint x)
      then x :: insertByLength m rest
      else m :: x :: rest
  end.

Definition sortMounts (l : Mounts) : Mounts := foldr insertByLength [] l.

(** [new VFSManager()] *)
Definition newVFSManager (now : Z) : Mounts :=
  sortMounts [mkMount "/" (newFileSystem now "root" 4096 4096)].

(** [mounts.some((m) => m.mountPoint === mp)] *)
Definition someAt (mp : string) (mounts : Mounts) : bool :=
  existsb (fun m => String.eqb (mountPoint m) mp) mounts.

Definition mount (fsys : FileSystem) (mp : string) (mounts : Mounts) : Outcome Mounts :=
  match normalizePath mp with
  | Throw e => Throw e
  | Ok mp' =>
      if someAt mp' mounts then Throw MountPointUsed
      else Ok (sortMounts (mounts ++ [mkMount mp' fsys]))
  end.

(** [mounts.splice(idx, 1)] at the first index whose mount point is [mp] *)
Fixpoint removeFirst (mp : string) (mounts : Mounts) : Mounts :=
  match mounts with
  | [] => []
  | m :: rest => if String.eqb (mountPoint m) mp then rest else m :: removeFirst mp rest
  end.

Definition unmount (mp : string) (mounts : Mounts) : Outcome Mounts :=
  match normalizePath mp with
  | Throw e => Throw e
  | Ok mp' =>
      if negb (someAt mp' mounts) then Throw MountPointNotFound
      else if String.eqb mp' "/" then Throw CannotUnmountRootError
      else Ok (removeFirst mp' mounts)
  end.

(** The loop of [resolve]: the first mount, other than the one at ["/"],
    whose mount point is [p] or a prefix of [p] followed by ["/"]. *)
Fixpoint scan (p : string) (mounts : Mounts) : option Mount :=
  match mounts with
  | [] => None
  | m :: rest =>
      if String.eqb (mountPoint m) "/" then scan p rest
      else if String.eqb p (mountPoint m) || Str.startsWith p (mountPoint m +:+ "/")
           then Some m
           else scan p rest
  end.

(** [p.slice(mp.length) || "/"] *)
Definition remainder (p mp : string) : string :=
  let r := Str.sliceFrom (String.length mp) p in
  if String.eqb r EmptyString then "/" else r.

(** [resolve(vfsPath)]: the volume, the inner path and the mount point. *)
Definition resolve (vfsPath : string) (mounts : Mounts)
  : Outcome (FileSystem * string * string) :=
  match normalizePath vfsPath with
  | Throw e => Throw e
  | Ok p =>
      match scan p mounts with
      | Some m =>
          match normalizePath (remainder p (mountPoint m)) with
          | Throw e => Throw e
          | Ok inner => Ok (fs m, inner, mountPoint m)
          end
      | None =>
          match find (fun m => String.eqb (mountPoint m) "/") mounts with
          | Some rootMount => Ok (fs rootMount, p, "/")
          | None => Throw RootMountUndefined
          end
      end
  end.

End VFS.


(** * Notions used by the properties *)

(** A method that leaves every state it is run in as it found it. *)
Definition readOnly {A} (m : M A) : Prop := ∀ fs, snd (m fs) = fs.

(** The two arrays of the block store have [totalBlocks] cells. *)
Definition wfStore (fs : FileSystem) : Prop :=
  length (freeBlockMap fs) = totalBlocks fs ∧ length (blocks fs) = totalBlocks fs.

(** Block [i] is marked free. *)
Definition isFree (fs : FileSystem) (i : nat) : Prop :=
  JsArray.get (freeBlockMap fs) i = Some 0.

(** Every block marked free holds the empty chunk. *)
Definition freeBlocksEmpty (fs : FileSystem) : Prop :=
  ∀ i, isFree fs i → JsArray.get (blocks fs) i = Some EmptyString.

(** [fs'] differs from [fs] in the block store at most. *)
Definition sameTree (fs fs' : FileSystem) : Prop :=
  name fs' = name fs ∧ totalBlocks fs' = totalBlocks fs ∧
  blockSize fs' = blockSize fs ∧ root fs' = root fs.

(** The number of cells of an occupancy table that read 0. *)
Definition countFree (a : list (option nat)) : nat :=
  length (filter (fun c => c = Some 0) a).

(** The directory object behind a reference, when the reference leads to one. *)
Fixpoint dirAt (ref : Ref) (d : DirectoryNode) : option DirectoryNode :=
  match ref with
  | [] => Some d
  | part :: rest =>
      match Children.get part (Dir.children d) with
      | Some (Directory d') => dirAt rest d'
      | _ => None
      end
  end.

(** The path [p] names the entry [nm] of the directory [parent], which lies
    behind [pref]: what [resolveParent] finds for the normalized [p]. *)
Definition parentOf (fs : FileSystem) (p : string) (pref : Ref) (parent : DirectoryNode)
  (nm : string) : Prop :=
  ∃ normalized,
    normalizePath p = Ok normalized ∧
    fst (resolveParent normalized fs) = Ok (pref, parent, nm).

(** One turn of the loop: a block is taken and the chunk written to it. *)
Definition afterTurn (fs : FileSystem) (idx : nat) (chunk : string) : FileSystem :=
  snd (writeBlock idx chunk
         (withStore (JsArray.set idx 1 (freeBlockMap fs))
                    (JsArray.set idx EmptyString (blocks fs)) fs)).

(** The node object behind a reference, when the reference leads to one. *)
Fixpoint nodeAt (ref : Ref) (n : FSNode) : option FSNode :=
  match ref with
  | [] => Some n
  | part :: rest =>
      match n with
      | File _ => None
      | Directory d =>
          match Children.get part (Dir.children d) with
          | Some child => nodeAt rest child
          | None => None
          end
      end
  end.

(** * Volumes used as examples *)

(** The parent of ["/docs/a.txt"] in a volume with one directory and no free
    block at all. *)
Definition fullVolume : FileSystem :=
  snd (createDirectory 1 "/docs" None None (newFileSystem 0 "disk" 0 4)).


(** One block of four characters, taken by the file ["/x"] holding ["abcd"]. *)
Definition oneBlockVolume : FileSystem :=
  snd (createFile 1 "/x" "abcd" None None (newFileSystem 0 "disk" 1 4)).

(** A directory renamed to [".."], with a file ["a"] in it, next to a file
    ["a"] in the root. *)
Definition dotDotVolume : FileSystem :=
  let fs0 := newFileSystem 0 "disk" 4 4 in
  let fs1 := snd (createDirectory 1 "/d" None None fs0) in
  let fs2 := snd (createFile 2 "/d/a" "old" None None fs1) in
  let fs3 := snd (createFile 3 "/a" "zzz" None None fs2) in
  snd (rename 4 "/d" ".." fs3).

(** The path [p] names the node [node]: [resolveParent] finds the parent and
    the parent has the node under the final name. *)
Definition entryOf (fs : FileSystem) (p : string) (node : FSNode) : Prop :=
  ∃ pref parent nm,
    parentOf fs p pref parent nm ∧ Children.get nm (Dir.children parent) = Some node.

(** Two files, ["/a"] and ["/b"], in the root. *)
Definition twoFilesVolume : FileSystem :=
  let fs0 := newFileSystem 0 "disk" 4 4 in
  let fs1 := snd (createFile 1 "/a" "one" None None fs0) in
  snd (createFile 2 "/b" "two" None None fs1).

(** A directory ["/a"] holding the files ["x.txt"] and ["y.txt"]. *)
Definition directoryVolume : FileSystem :=
  let fs0 := newFileSystem 0 "disk" 8 4 in
  let fs1 := snd (createDirectory 1 "/a" None None fs0) in
  let fs2 := snd (createFile 2 "/a/x.txt" "hi" None None fs1) in
  snd (createFile 3 "/a/y.txt" "yo" None None fs2).

(** * Reachable volumes *)

(** The calls a client can make on a volume. *)
Inductive Op : Type :=
  | OpAllocateBlock
  | OpFreeBlock (idx : nat)
  | OpCreateDirectory (p : string) (owner' mode' : option string)
  | OpListDirectory (p : string)
  | OpCreateFile (p content : string) (owner' mode' : option string)
  | OpReadFile (p : string)
  | OpWriteFile (p content : string)
  | OpAppendFile (p extra : string)
  | OpDeleteNode (p : string)
  | OpRename (p newName : string)
  | OpMove (src dst : string)
  | OpCopy (src dst : string)
  | OpStat (p : string)
  | OpSearch (rootPath : string) (predicate : FSNode → string → bool)
  | OpFormat (zeroBlocks : bool).

(** The volume after the call, whether it returned or threw. *)
Definition exec (now : Z) (op : Op) (fs : FileSystem) : FileSystem :=
  match op with
  | OpAllocateBlock => snd (allocateBlock fs)
  | OpFreeBlock idx => snd (freeBlock idx fs)
  | OpCreateDirectory p o m => snd (createDirectory now p o m fs)
  | OpListDirectory p => snd (listDirectory p fs)
  | OpCreateFile p content o m => snd (createFile now p content o m fs)
  | OpReadFile p => snd (readFile p fs)
  | OpWriteFile p content => snd (writeFile now p content fs)
  | OpAppendFile p extra => snd (appendFile now p extra fs)
  | OpDeleteNode p => snd (deleteNode now p fs)
  | OpRename p newName => snd (rename now p newName fs)
  | OpMove src dst => snd (move now src dst fs)
  | OpCopy src dst => snd (copy now src dst fs)
  | OpStat p => snd (stat p fs)
  | OpSearch rootPath predicate => snd (search rootPath predicate fs)
  | OpFormat zeroBlocks => snd (format now zeroBlocks fs)
  end.

(** The volumes reached from a new one by calls that are [allowed]. *)
Inductive reachable (allowed : Op → Prop) : FileSystem → Prop :=
  | reachable_new now nm total bs :
      reachable allowed (newFileSystem now nm total bs)
  | reachable_step fs now op :
      reachable allowed fs → allowed op → reachable allowed (exec now op fs).

(** Any call but [format] without [zeroBlocks]. *)
Definition clearing (op : Op) : Prop := op ≠ OpFormat false.

(** The store is well formed and its free blocks are empty. *)
Definition storeInv (fs : FileSystem) : Prop := wfStore fs ∧ freeBlocksEmpty fs.

(** A method that keeps the property [P] of the volume. *)
Definition keeps {A} (P : FileSystem → Prop) (m : M A) : Prop :=
  ∀ fs, P fs → P (snd (m fs)).

(** * Mount tables *)

Module VFSSpec.
Import VFS.

(** The path [p] lies at or below the mount point [mp], which is not ["/"]. *)
Definition isMatch (p mp : string) : bool :=
  negb (String.eqb mp "/") &&
  (String.eqb p mp || Str.startsWith p (mp +:+ "/")).

(** Longer mount points come first. *)
Definition longestFirst (mounts : Mounts) : Prop :=
  StronglySorted
    (fun a b => String.length (mountPoint b) ≤ String.length (mountPoint a)) mounts.

(** The mount tables a manager can hold: the one it is constructed with,
    and those after [mount] and [unmount]; the volumes mounted change in
    place as they are used. *)
Inductive reachableMounts : Mounts → Prop :=
  | reachable_manager now : reachableMounts (newVFSManager now)
  | reachable_mount mounts fsys mp mounts' :
      reachableMounts mounts → mount fsys mp mounts = Ok mounts' →
      reachableMounts mounts'
  | reachable_unmount mounts mp mounts' :
      reachableMounts mounts → unmount mp mounts = Ok mounts' →
      reachableMounts mounts'
  | reachable_used mounts mounts' :
      reachableMounts mounts → map mountPoint mounts' = map mountPoint mounts →
      reachableMounts mounts'.

(** Resolution as the design document words it: the longest mount path
    other than ["/"] that is the normalized path or a prefix of it followed
    by ["/"] is selected (the first of equally long ones) and stripped from
    the path, an empty remainder becoming ["/"]; without such a mount the
    root volume is returned with the full normalized path. *)
Fixpoint longestMatch (p : string) (mounts : Mounts) : option Mount :=
  match mounts with
  | [] => None
  | m :: rest =>
      match longestMatch p rest with
      | Some best =>
          if isMatch p (mountPoint m) &&
             (String.length (mountPoint best) <=? String.length (mountPoint m))
          then Some m else Some best
      | None => if isMatch p (mountPoint m) then Some m else None
      end
  end.

Definition resolveAsDocumented (vfsPath : string) (mounts : Mounts)
  : Outcome (FileSystem * string * string) :=
  match normalizePath vfsPath with
  | Throw e => Throw e
  | Ok p =>
      match longestMatch p mounts with
      | Some m => Ok (fs m, remainder p (mountPoint m), mountPoint m)
      | None =>
          match find (fun m => String.eqb (mountPoint m) "/") mounts with
          | Some rootMount => Ok (fs rootMount, p, "/")
          | None => Throw RootMountUndefined
          end
      end
  end.

(** A manager with a second volume mounted at [".."]. *)
Definition dotDotMounts : Mounts :=
  match mount (newFileSystem 1 "usb" 2 4) ".." (newVFSManager 0) with
  | Ok mounts => mounts
  | Throw _ => []
  end.

End VFSSpec.

(** * Segments of normalized paths *)

(** The string has a ["/"] in it. *)
Fixpoint hasSlash (s : string) : bool :=
  match s with
  | EmptyString => false
  | String c s' => Ascii.eqb c "/"%char || hasSlash s'
  end.

(** A segment that normalization keeps as it is: not empty, not ["."], not
    [".."], and without ["/"]. *)
Definition plainSegment (s : string) : Prop :=
  s ≠ EmptyString ∧ s ≠ "." ∧ s ≠ ".." ∧ hasSlash s = false.

(** * Further volumes used as examples *)

(** Two blocks of four characters, the first taken by the file ["/x"]. *)
Definition oneBlockVolumeOfTwo : FileSystem :=
  exec 1 (OpCreateFile "/x" "abcd" None None) (newFileSystem 0 "disk" 2 4).

(** * Notions used by the further properties *)

(** The name under which a method that normalizes its path and hands it to
    [resolveParent] looks for the entry: the last segment of the path
    normalized twice. *)
Definition finalName (p : string) : option string :=
  match normalizePath p with
  | Throw _ => None
  | Ok n =>
      match normalizePath n with
      | Throw _ => None
      | Ok n2 => last (partsOf n2)
      end
  end.

(** [rename] and [move] go on with [children[name]] of the source as a node.
    Under a name every object inherits, in a directory with no entry under
    it, that value is no node, and the call can put it into the tree: the
    volumes after such a call are none the model has.  [ownSource] holds of
    the calls that are not of this kind. *)
Definition ownSource (op : Op) : Prop :=
  match op with
  | OpRename p _ | OpMove p _ =>
      match finalName p with
      | Some nm => inheritedName nm = false
      | None => True
      end
  | _ => True
  end.

(** The blocks of the files at and below a node, in the order in which
    [deleteRec] comes to them. *)
Fixpoint nodeBlocks (n : FSNode) : list nat :=
  match n with
  | File f => FileNode.blocks f
  | Directory d =>
      (fix each (cs : list (string * FSNode)) : list nat :=
         match cs with
         | [] => []
         | (_, ch) :: rest => nodeBlocks ch ++ each rest
         end) (Dir.children d)
  end.


(** [fs'] has the block store of [fs]: only the tree may differ. *)
Definition sameStore (fs fs' : FileSystem) : Prop :=
  name fs' = name fs ∧ totalBlocks fs' = totalBlocks fs ∧ blockSize fs' = blockSize fs ∧
  freeBlockMap fs' = freeBlockMap fs ∧ blocks fs' = blocks fs.

(** Every entry below the node is stored under the name its node carries. *)
Fixpoint wellNamed (n : FSNode) : bool :=
  match n with
  | File _ => true
  | Directory d =>
      (fix each (cs : list (string * FSNode)) : bool :=
         match cs with
         | [] => true
         | (k, ch) :: rest => String.eqb (nodeName ch) k && wellNamed ch && each rest
         end) (Dir.children d)
  end.

(** An entry is stored under the name of its node, which is well named. *)
Definition goodEntry (kc : string * FSNode) : Prop :=
  nodeName (snd kc) = fst kc ∧ wellNamed (snd kc) = true.

(** The root is named ["/"] and every entry of the tree is stored under the
    name of its node. *)
Definition treeInv (fs : FileSystem) : Prop :=
  Dir.name (root fs) = "/" ∧ wellNamed (Directory (root fs)) = true.

(** ** The disk usage route (routes.ts, lines 7-18) *)

(** [fs.totalBlocks * fs.blockSize] *)
Definition totalBytes (fs : FileSystem) : nat := totalBlocks fs * blockSize fs.

(** [fs.blocks.reduce((sum, b) => sum + (b ? b.length : 0), 0)]: a hole and
    the empty chunk both count for nothing. *)
Definition usedBytes (fs : FileSystem) : nat :=
  foldl (fun sum b => sum + match b with
                            | Some s => String.length s
                            | None => 0
                            end) 0 (blocks fs).

(** [totalBytes - usedBytes], a subtraction of numbers *)
Definition freeBytes (fs : FileSystem) : Z :=
  (Z.of_nat (totalBytes fs) - Z.of_nat (usedBytes fs))%Z.

(** The store is well formed and no chunk is longer than a block. *)
Definition chunksFit (fs : FileSystem) : Prop :=
  wfStore fs ∧
  ∀ i s, JsArray.get (blocks fs) i = Some s → String.length s ≤ blockSize fs.
(** * Properties *)

(** ** JS arrays: reading after writing *)

Module JsArrayFacts.
Import JsArray.
Section Cells.
Context {A : Type}.

Lemma length_set i (v : A) a : length (set i v a) = Nat.max (length a) (S i).
Proof.
  unfold set. case_decide.
  - rewrite length_insert. lia.
  - rewrite !length_app, length_replicate. simpl. lia.
Qed.

Lemma get_set_eq i (v : A) a : get (set i v a) i = Some v.
Proof.
  unfold get, set. case_decide.
  - by rewrite list_lookup_insert_eq.
  - rewrite lookup_app_r by lia.
    rewrite lookup_app_r by (rewrite length_replicate; lia).
    rewrite length_replicate. by replace (i - length a - (i - length a)) with 0 by lia.
Qed.

Lemma get_set_ne i j (v : A) a : i ≠ j → get (set i v a) j = get a j.
Proof.
  intros Hne. unfold get, set. case_decide.
  - by rewrite list_lookup_insert_ne.
  - destruct (decide (j < length a)) as [Hj | Hj].
    + by rewrite lookup_app_l.
    + rewrite (lookup_ge_None_2 a j) by lia.
      rewrite lookup_app_r by lia.
      destruct (decide (j - length a < i - length a)) as [Hlt | Hge].
      * rewrite lookup_app_l by (rewrite length_replicate; lia).
        by rewrite lookup_replicate_2.
      * rewrite lookup_app_r by (rewrite length_replicate; lia).
        rewrite length_replicate.
        destruct (j - length a - (i - length a)) as [| k] eqn:Hk; [lia | done].
Qed.

Lemma get_set i j (v : A) a :
  get (set i v a) j = if decide (i = j) then Some v else get a j.
Proof. case_decide; subst; [apply get_set_eq | by apply get_set_ne]. Qed.

Lemma set_in_range i (v : A) a : i < length a → length (set i v a) = length a.
Proof. intros. rewrite length_set. lia. Qed.

Lemma get_fill n (v : A) i : get (fill n v) i = if decide (i < n) then Some v else None.
Proof.
  unfold get, fill. case_decide.
  - by rewrite lookup_replicate_2.
  - by rewrite lookup_ge_None_2 by (rewrite length_replicate; lia).
Qed.

Lemma get_ge (a : list (option A)) i : length a ≤ i → get a i = None.
Proof. intros. unfold get. by rewrite lookup_ge_None_2. Qed.

(** Two arrays of one length that read the same at every index are equal. *)
Lemma ext (a b : list (option A)) :
  length a = length b → (∀ i, get a i = get b i) → a = b.
Proof.
  intros Hlen Hget. apply list_eq. intros i.
  destruct (decide (i < length a)) as [Hi | Hi].
  - destruct (lookup_lt_is_Some_2 a i Hi) as [x Hx].
    destruct (lookup_lt_is_Some_2 b i ltac:(lia)) as [y Hy].
    specialize (Hget i). unfold get in Hget. rewrite Hx, Hy in Hget.
    simpl in Hget. rewrite Hx, Hy. by f_equal.
  - rewrite !lookup_ge_None_2 by lia. done.
Qed.
End Cells.
End JsArrayFacts.
Import JsArrayFacts.


(** ** Normalization at work *)

(** [path.posix.normalize] keeps the [".."] segments at the front of a
    relative path and drops them at the front of an absolute one. *)
Example posixNormalize_examples :
  map Path.posixNormalize ["a/../b"; "//a//b/./c/.."; "/mnt/usb/"; "../a"; "/../a"; "a/.."]
  = ["b"; "/a/b"; "/mnt/usb/"; "../a"; "/a"; "."].
Proof. reflexivity. Qed.

Example normalizePath_examples :
  map normalizePath ["a/../b"; "/a/./b//c"; "../a"; "/../a"; "a/.."]
  = [Ok "/b"; Ok "/a/b/c"; Ok "/../a"; Ok "/a"; Ok "/."].
Proof. reflexivity. Qed.

(** ** Reasoning about methods *)

Lemma bind_Ok {A B} (m : M A) (k : A → M B) fs a fs1 :
  m fs = (Ok a, fs1) → bind m k fs = k a fs1.
Proof. intros H. unfold bind. by rewrite H. Qed.

Lemma bind_Throw {A B} (m : M A) (k : A → M B) fs e fs1 :
  m fs = (Throw e, fs1) → bind m k fs = (Throw e, fs1).
Proof. intros H. unfold bind. by rewrite H. Qed.

(** Inversion of a [bind] that ended well, or threw. *)
Lemma bind_inv_Ok {A B} (m : M A) (k : A → M B) fs b fs2 :
  bind m k fs = (Ok b, fs2) → ∃ a fs1, m fs = (Ok a, fs1) ∧ k a fs1 = (Ok b, fs2).
Proof.
  unfold bind. destruct (m fs) as [[a | e] fs1]; intros H; [eauto | discriminate].
Qed.

Lemma bind_inv_Throw {A B} (m : M A) (k : A → M B) fs e fs2 :
  bind m k fs = (Throw e, fs2) →
  m fs = (Throw e, fs2) ∨ ∃ a fs1, m fs = (Ok a, fs1) ∧ k a fs1 = (Throw e, fs2).
Proof.
  unfold bind. destruct (m fs) as [[a | e'] fs1]; intros H; [eauto | left; congruence].
Qed.

Section ReadOnly.
Context {A B : Type}.

Lemma readOnly_ret (a : A) : readOnly (ret a).
Proof. done. Qed.

Lemma readOnly_throw e : readOnly (throw (A := A) e).
Proof. done. Qed.

Lemma readOnly_reading (f : FileSystem → Outcome A) : readOnly (reading f).
Proof. done. Qed.

Lemma readOnly_liftOutcome (o : Outcome A) : readOnly (liftOutcome o).
Proof. done. Qed.

Lemma readOnly_bind (m : M A) (k : A → M B) :
  readOnly m → (∀ a, readOnly (k a)) → readOnly (bind m k).
Proof.
  intros Hm Hk fs. unfold bind. specialize (Hm fs).
  destruct (m fs) as [[a | e] fs1]; simpl in *; subst; [apply Hk | done].
Qed.

Lemma readOnly_run (m : M A) fs o fs1 : readOnly m → m fs = (o, fs1) → fs1 = fs.
Proof. intros Hm H. specialize (Hm fs). by rewrite H in Hm. Qed.
End ReadOnly.

Create HintDb frame discriminated.
#[export] Hint Resolve readOnly_ret readOnly_throw readOnly_reading
  readOnly_liftOutcome : frame.

Lemma readOnly_getNodeRef p : readOnly (getNodeRef p).
Proof.
  unfold getNodeRef. apply readOnly_bind; [auto with frame |].
  intros normalized. destruct (String.eqb normalized "/"); auto with frame.
Qed.

Lemma readOnly_getNode p : readOnly (getNode p).
Proof.
  unfold getNode. apply readOnly_bind; [apply readOnly_getNodeRef | auto with frame].
Qed.

Lemma readOnly_resolveParent p : readOnly (resolveParent p).
Proof. unfold resolveParent. apply readOnly_bind; auto with frame. Qed.

#[export] Hint Resolve readOnly_getNodeRef readOnly_getNode readOnly_resolveParent : frame.

Lemma readOnly_readFile p : readOnly (readFile p).
Proof.
  unfold readFile. apply readOnly_bind; [auto with frame |].
  intros [f | d]; auto with frame.
Qed.

Lemma readOnly_listDirectory p : readOnly (listDirectory p).
Proof.
  unfold listDirectory. apply readOnly_bind; [auto with frame |].
  intros [f | d]; auto with frame.
Qed.

Lemma readOnly_stat p : readOnly (stat p).
Proof.
  unfold stat. apply readOnly_bind; [auto with frame |].
  intros [f | d]; auto with frame.
Qed.

Lemma readOnly_search p predicate : readOnly (search p predicate).
Proof.
  unfold search. apply readOnly_bind; [auto with frame |].
  intros [f | d]; [auto with frame |].
  apply readOnly_bind; auto with frame.
Qed.

(** C9: [readFile], [listDirectory], [stat] and [search] leave the whole
    volume as it was (tree, metadata, occupancy table, block contents, and
    so the free-block count), whether they return or throw. *)
Theorem read_only_operations_frame p (predicate : FSNode → string → bool) fs :
  snd (readFile p fs) = fs ∧
  snd (listDirectory p fs) = fs ∧
  snd (stat p fs) = fs ∧
  snd (search p predicate fs) = fs.
Proof.
  repeat split.
  - apply readOnly_readFile.
  - apply readOnly_listDirectory.
  - apply readOnly_stat.
  - apply readOnly_search.
Qed.

(** C7: on the empty path [normalizePath] does not return ["/"]: it throws
    (the thrown value is the string ["/"]). *)
Theorem normalizePath_empty_throws : normalizePath EmptyString = Throw ThrownSlash.
Proof. reflexivity. Qed.

(** ** The block store *)

Lemma sameTree_refl fs : sameTree fs fs.
Proof. done. Qed.

Lemma sameTree_trans fs1 fs2 fs3 : sameTree fs1 fs2 → sameTree fs2 fs3 → sameTree fs1 fs3.
Proof. unfold sameTree. intros (?&?&?&?) (?&?&?&?). repeat split; congruence. Qed.

Lemma indexOf0_Some a i :
  indexOf0 a = Some i →
  JsArray.get a i = Some 0 ∧ i < length a ∧ ∀ j, j < i → JsArray.get a j ≠ Some 0.
Proof.
  unfold indexOf0. destruct (list_find _ a) as [[i' x] |] eqn:Hfind; [| done].
  simpl. intros [= ->]. apply list_find_Some in Hfind as (Hi & -> & Hbefore).
  split; [| split].
  - unfold JsArray.get. by rewrite Hi.
  - by eapply lookup_lt_Some.
  - intros j Hj Hget. unfold JsArray.get in Hget.
    destruct (a !! j) as [y |] eqn:Hy; [| done]. simpl in Hget.
    by eapply Hbefore.
Qed.

Lemma indexOf0_None a i : indexOf0 a = None → JsArray.get a i ≠ Some 0.
Proof.
  unfold indexOf0. destruct (list_find _ a) as [[i' x] |] eqn:Hfind; [done |].
  intros _ Hget. apply list_find_None in Hfind.
  unfold JsArray.get in Hget. destruct (a !! i) as [y |] eqn:Hy; [| done].
  simpl in Hget. rewrite Forall_forall in Hfind.
  apply (Hfind y); [| done]. apply list_elem_of_lookup. eauto.
Qed.

(** What [allocateBlock] does when a block is free. *)
Lemma allocateBlock_Some fs idx fs1 :
  allocateBlock fs = (Ok (Some idx), fs1) →
  isFree fs idx ∧ idx < length (freeBlockMap fs) ∧
  fs1 = withStore (JsArray.set idx 1 (freeBlockMap fs))
                  (JsArray.set idx EmptyString (blocks fs)) fs.
Proof.
  unfold allocateBlock. destruct (indexOf0 (freeBlockMap fs)) as [i |] eqn:Hidx; [| done].
  intros [= -> <-]. apply indexOf0_Some in Hidx as (? & ? & ?). done.
Qed.

Lemma allocateBlock_None fs fs1 :
  allocateBlock fs = (Ok None, fs1) → fs1 = fs ∧ ∀ i, ¬ isFree fs i.
Proof.
  unfold allocateBlock. destruct (indexOf0 (freeBlockMap fs)) as [i |] eqn:Hidx; [done |].
  intros [= <-]. split; [done |]. intros i. by apply indexOf0_None.
Qed.

Lemma allocateBlock_no_throw fs e fs1 : allocateBlock fs ≠ (Throw e, fs1).
Proof. unfold allocateBlock. by destruct (indexOf0 (freeBlockMap fs)). Qed.

Lemma freeBlocks_cons b ids fs :
  freeBlocks (b :: ids) fs =
  freeBlocks ids
    (if totalBlocks fs <=? b then fs
     else withStore (JsArray.set b 0 (freeBlockMap fs))
                    (JsArray.set b EmptyString (blocks fs)) fs).
Proof. simpl. unfold bind, freeBlock. by destruct (totalBlocks fs <=? b). Qed.

(** What [freeBlocks] does to a well-formed store: the blocks of [ids] that
    are in range become free and empty, nothing else changes. *)
Lemma freeBlocks_spec ids fs :
  wfStore fs →
  let fs' := snd (freeBlocks ids fs) in
  fst (freeBlocks ids fs) = Ok tt ∧ sameTree fs fs' ∧ wfStore fs' ∧
  (∀ i, JsArray.get (freeBlockMap fs') i =
        if decide (i ∈ ids ∧ i < totalBlocks fs) then Some 0
        else JsArray.get (freeBlockMap fs) i) ∧
  (∀ i, JsArray.get (blocks fs') i =
        if decide (i ∈ ids ∧ i < totalBlocks fs) then Some EmptyString
        else JsArray.get (blocks fs) i).
Proof.
  revert fs. induction ids as [| b ids IH]; intros fs Hwf.
  - simpl. split_and!; try done; intros i; case_decide as H; try done;
      destruct H as [H _]; by apply elem_of_nil in H.
  - cbv zeta. rewrite freeBlocks_cons.
    destruct (totalBlocks fs <=? b) eqn:Hb.
    + apply Nat.leb_le in Hb. destruct (IH fs Hwf) as (Hok & Hsame & Hwf' & Hf & Hb').
      split_and!; try done.
      * intros i. rewrite Hf. repeat case_decide; try done; exfalso; set_solver by lia.
      * intros i. rewrite Hb'. repeat case_decide; try done; exfalso; set_solver by lia.
    + apply Nat.leb_gt in Hb.
      set (fs1 := withStore _ _ fs).
      assert (Hwf1 : wfStore fs1).
      { destruct Hwf as [H1 H2]. split; simpl; rewrite JsArrayFacts.length_set; lia. }
      destruct (IH fs1 Hwf1) as (Hok & Hsame & Hwf' & Hf & Hb').
      split_and!; try done.
      * intros i. rewrite Hf. simpl. rewrite JsArrayFacts.get_set.
        repeat case_decide; subst; try done; exfalso; set_solver by lia.
      * intros i. rewrite Hb'. simpl. rewrite JsArrayFacts.get_set.
        repeat case_decide; subst; try done; exfalso; set_solver by lia.
Qed.

(** *** The chunk-and-allocate loop *)

Lemma afterTurn_wf fs idx chunk :
  wfStore fs → idx < length (freeBlockMap fs) → wfStore (afterTurn fs idx chunk).
Proof.
  intros [H1 H2] Hidx. split; simpl; rewrite !JsArrayFacts.length_set; lia.
Qed.

Lemma afterTurn_freeBlockMap fs idx chunk i :
  JsArray.get (freeBlockMap (afterTurn fs idx chunk)) i =
  if decide (idx = i) then Some 1 else JsArray.get (freeBlockMap fs) i.
Proof. simpl. apply JsArrayFacts.get_set. Qed.

Lemma afterTurn_blocks fs idx chunk i :
  JsArray.get (blocks (afterTurn fs idx chunk)) i =
  if decide (idx = i) then Some chunk else JsArray.get (blocks fs) i.
Proof.
  simpl. rewrite !JsArrayFacts.get_set. by case_decide.
Qed.

Lemma allocLoop_unfold fuel err bs content cursor acc fs :
  cursor < String.length content →
  allocLoop (S fuel) err bs content cursor acc fs =
  match indexOf0 (freeBlockMap fs) with
  | Some idx =>
      allocLoop fuel err bs content (cursor + bs) (acc ++ [idx])
        (afterTurn fs idx (Str.slice cursor (cursor + bs) content))
  | None => Some ((freeBlocks acc ;;; throw err) fs)
  end.
Proof.
  intros Hlt. simpl. apply Nat.ltb_lt in Hlt. rewrite Hlt.
  unfold allocateBlock. by destruct (indexOf0 (freeBlockMap fs)).
Qed.

Lemma allocLoop_done fuel err bs content cursor acc fs :
  String.length content ≤ cursor →
  allocLoop fuel err bs content cursor acc fs = Some (Ok acc, fs).
Proof.
  intros Hge. apply Nat.ltb_ge in Hge. destruct fuel; simpl; by rewrite Hge.
Qed.

(** When the loop throws, it throws [err], and the blocks it had taken are
    free and empty again; nothing else has changed. *)
Lemma allocLoop_Throw fuel err bs content :
  ∀ cursor acc fs e fs',
    wfStore fs →
    (∀ i, i ∈ acc → i < totalBlocks fs) →
    allocLoop fuel err bs content cursor acc fs = Some (Throw e, fs') →
    e = err ∧ sameTree fs fs' ∧ wfStore fs' ∧
    ∃ taken,
      (∀ i, i ∈ taken → isFree fs i) ∧
      (∀ i, JsArray.get (freeBlockMap fs') i =
            if decide (i ∈ acc ++ taken) then Some 0
            else JsArray.get (freeBlockMap fs) i) ∧
      (∀ i, JsArray.get (blocks fs') i =
            if decide (i ∈ acc ++ taken) then Some EmptyString
            else JsArray.get (blocks fs) i).
Proof.
  induction fuel as [| fuel IH]; intros cursor acc fs e fs' Hwf Hacc Hrun.
  - simpl in Hrun. destruct (cursor <? String.length content); done.
  - destruct (decide (cursor < String.length content)) as [Hlt | Hge];
      [| rewrite allocLoop_done in Hrun by lia; done].
    rewrite allocLoop_unfold in Hrun by done.
    destruct (indexOf0 (freeBlockMap fs)) as [idx |] eqn:Hidx.
    + apply indexOf0_Some in Hidx as (Hfree & Hlen & _).
      set (fs2 := afterTurn fs idx _) in Hrun.
      assert (Hwf2 : wfStore fs2) by by apply afterTurn_wf.
      assert (Hacc2 : ∀ i, i ∈ acc ++ [idx] → i < totalBlocks fs2).
      { intros i Hi. apply elem_of_app in Hi as [Hi | Hi]; [by apply Hacc |].
        apply list_elem_of_singleton in Hi as ->. simpl. destruct Hwf as [<- _]. done. }
      destruct (IH _ _ _ _ _ Hwf2 Hacc2 Hrun) as (-> & Hsame & Hwf' & taken & Ht & Hf & Hb).
      split_and!; [done | by eapply sameTree_trans | done |].
      exists (idx :: taken). split_and!.
      * intros i Hi. apply elem_of_cons in Hi as [-> | Hi]; [done |].
        specialize (Ht i Hi). unfold isFree in *. unfold fs2 in Ht.
        rewrite afterTurn_freeBlockMap in Ht. by case_decide.
      * intros i. rewrite Hf. unfold fs2. rewrite afterTurn_freeBlockMap.
        repeat case_decide; subst; try done; exfalso; set_solver.
      * intros i. rewrite Hb. unfold fs2. rewrite afterTurn_blocks.
        repeat case_decide; subst; try done; exfalso; set_solver.
    + injection Hrun as Hrun.
      destruct (freeBlocks_spec acc fs Hwf) as (Hok & Hsame & Hwf' & Hf & Hb).
      unfold bind in Hrun.
      destruct (freeBlocks acc fs) as [[[] | e0] fs1] eqn:Hfb; simpl in *; [| done].
      injection Hrun as <- <-.
      split_and!; [done | done | done |].
      exists []. rewrite app_nil_r. split_and!.
      * intros i Hi. by apply elem_of_nil in Hi.
      * intros i. rewrite Hf. repeat case_decide; try done; exfalso; set_solver.
      * intros i. rewrite Hb. repeat case_decide; try done; exfalso; set_solver.
Qed.

(** *** Slices of a string *)

Lemma sliceFrom_empty n : Str.sliceFrom n EmptyString = EmptyString.
Proof. by destruct n. Qed.

Lemma sliceFrom_add a b s : Str.sliceFrom (a + b) s = Str.sliceFrom b (Str.sliceFrom a s).
Proof.
  revert s. induction a as [| a IH]; intros s; [done |].
  destruct s as [| c s]; simpl; [by rewrite sliceFrom_empty | apply IH].
Qed.

Lemma sliceFrom_all n s : String.length s ≤ n → Str.sliceFrom n s = EmptyString.
Proof.
  revert s. induction n as [| n IH]; intros [| c s]; simpl; intros H; try done; try lia.
  apply IH. lia.
Qed.

Lemma append_String c a b : String c a +:+ b = String c (a +:+ b).
Proof. done. Qed.

Lemma append_empty_l s : EmptyString +:+ s = s.
Proof. done. Qed.

Lemma take_sliceFrom n s : Str.take n s +:+ Str.sliceFrom n s = s.
Proof.
  revert s. induction n as [| n IH]; intros [| c s]; simpl; try done.
  rewrite append_String. f_equal. apply IH.
Qed.

Lemma slice_sliceFrom a b s :
  Str.slice a (a + b) s +:+ Str.sliceFrom (a + b) s = Str.sliceFrom a s.
Proof.
  unfold Str.slice. replace (a + b - a) with b by lia.
  rewrite sliceFrom_add. apply take_sliceFrom.
Qed.

Lemma strConcat_cons s l : Str.concat (s :: l) = s +:+ Str.concat l.
Proof. done. Qed.


(** *** Counting free blocks *)

Lemma getFreeBlockCount_countFree fs : getFreeBlockCount fs = countFree (freeBlockMap fs).
Proof.
  unfold getFreeBlockCount, countFree.
  enough (H : ∀ a n,
    foldl (fun sum c => match c with
                        | Some v => sum + (if v =? 0 then 1 else 0)
                        | None => sum
                        end) n a = n + length (filter (fun c => c = Some 0) a))
    by (rewrite H; lia).
  induction a as [| c a IH]; intros n; simpl; [lia |].
  rewrite IH. rewrite filter_cons.
  destruct c as [[| v] |]; repeat case_decide; simpl; try done; lia.
Qed.

Lemma countFree_le a : countFree a ≤ length a.
Proof. unfold countFree. apply length_filter. Qed.

Lemma countFree_app a b : countFree (a ++ b) = countFree a + countFree b.
Proof. unfold countFree. by rewrite filter_app, length_app. Qed.

Lemma countFree_cons c a :
  countFree (c :: a) = (if decide (c = Some 0) then 1 else 0) + countFree a.
Proof. unfold countFree. rewrite filter_cons. by case_decide. Qed.

Lemma set_in_range_split {A} i (v : A) (a : list (option A)) :
  i < length a → JsArray.set i v a = take i a ++ Some v :: drop (S i) a.
Proof.
  intros Hi. unfold JsArray.set. case_decide; [| lia]. by apply insert_take_drop.
Qed.

Lemma cell_split {A} i (a : list (option A)) c :
  a !! i = Some c → a = take i a ++ c :: drop (S i) a.
Proof. intros H. by rewrite <- (take_drop_middle a i c) at 1. Qed.

(** Taking a free block lowers the count by one. *)
Lemma countFree_take a idx :
  JsArray.get a idx = Some 0 → S (countFree (JsArray.set idx 1 a)) = countFree a.
Proof.
  intros Hget. unfold JsArray.get in Hget.
  destruct (a !! idx) as [c |] eqn:Hc; [| done]. simpl in Hget. subst c.
  assert (Hlt : idx < length a) by by eapply lookup_lt_Some.
  rewrite set_in_range_split by done.
  rewrite (cell_split idx a (Some 0) Hc) at 3.
  rewrite !countFree_app, !countFree_cons. repeat case_decide; try done; lia.
Qed.

(** Freeing a block never lowers the count. *)
Lemma countFree_free a idx : countFree a ≤ countFree (JsArray.set idx 0 a).
Proof.
  unfold JsArray.set. case_decide as Hlt.
  - destruct (lookup_lt_is_Some_2 a idx Hlt) as [c Hc].
    rewrite insert_take_drop by done.
    rewrite (cell_split idx a c Hc) at 1.
    rewrite !countFree_app, !countFree_cons. repeat case_decide; try done; lia.
  - rewrite countFree_app. lia.
Qed.

Lemma countFree_pos a : 0 < countFree a → ∃ idx, indexOf0 a = Some idx.
Proof.
  intros Hpos. destruct (indexOf0 a) as [idx |] eqn:Hidx; [eauto |]. exfalso.
  assert (Hnone : ∀ i, JsArray.get a i ≠ Some 0) by (intros i; by apply indexOf0_None).
  clear Hidx. induction a as [| c a IH]; [unfold countFree in Hpos; simpl in Hpos; lia |].
  rewrite countFree_cons in Hpos. case_decide as Hc.
  - subst c. by apply (Hnone 0).
  - apply IH; [lia |]. intros i. apply (Hnone (S i)).
Qed.

(** *** The loop when it returns *)

Lemma readBlock_afterTurn fs idx chunk i :
  readBlock (afterTurn fs idx chunk) i = if decide (idx = i) then chunk else readBlock fs i.
Proof. unfold readBlock. rewrite afterTurn_blocks. by case_decide. Qed.

(** When the loop returns, the blocks it took were free, are now used, and
    read back as the rest of the content; the blocks taken before are not
    written again. *)
Lemma allocLoop_Ok fuel err bs content :
  ∀ cursor acc fs blks fs',
    (∀ i, i ∈ acc → JsArray.get (freeBlockMap fs) i = Some 1) →
    allocLoop fuel err bs content cursor acc fs = Some (Ok blks, fs') →
    sameTree fs fs' ∧
    ∃ new,
      blks = acc ++ new ∧
      (∀ i, i ∈ new → isFree fs i) ∧
      (∀ i, JsArray.get (freeBlockMap fs') i =
            if decide (i ∈ new) then Some 1 else JsArray.get (freeBlockMap fs) i) ∧
      (∀ i, i ∉ new → JsArray.get (blocks fs') i = JsArray.get (blocks fs) i) ∧
      (∀ i, i ∈ new → JsArray.get (blocks fs') i ≠ None) ∧
      Str.concat (map (readBlock fs') new) = Str.sliceFrom cursor content.
Proof.
  induction fuel as [| fuel IH]; intros cursor acc fs blks fs' Hacc Hrun.
  - simpl in Hrun. destruct (cursor <? String.length content) eqn:Hc; [done |].
    injection Hrun as <- <-. apply Nat.ltb_ge in Hc.
    split; [done |]. exists []. rewrite app_nil_r, sliceFrom_all by done.
    split_and!; try done; intros i Hi; by apply elem_of_nil in Hi.
  - destruct (decide (cursor < String.length content)) as [Hlt | Hge].
    2:{ rewrite allocLoop_done in Hrun by lia. injection Hrun as <- <-.
        split; [done |]. exists []. rewrite app_nil_r, sliceFrom_all by lia.
        split_and!; try done; intros i Hi; by apply elem_of_nil in Hi. }
    rewrite allocLoop_unfold in Hrun by done.
    destruct (indexOf0 (freeBlockMap fs)) as [idx |] eqn:Hidx.
    2:{ injection Hrun as Hrun. unfold bind in Hrun.
        destruct (freeBlocks acc fs) as [[[] | e0] fs1]; done. }
    apply indexOf0_Some in Hidx as (Hfree & Hlen & _).
    set (chunk := Str.slice cursor (cursor + bs) content) in *.
    set (fs2 := afterTurn fs idx chunk) in *.
    assert (Hidx_acc : idx ∉ acc).
    { intros Hin. specialize (Hacc idx Hin). congruence. }
    assert (Hacc2 : ∀ i, i ∈ acc ++ [idx] → JsArray.get (freeBlockMap fs2) i = Some 1).
    { intros i Hi. unfold fs2. rewrite afterTurn_freeBlockMap. case_decide; [done |].
      apply Hacc. set_solver. }
    destruct (IH _ _ _ _ _ Hacc2 Hrun) as (Hsame & new & -> & Hnew & Hf & Hb & Hsome & Hread).
    split; [by eapply sameTree_trans |].
    assert (Hidx_new : idx ∉ new).
    { intros Hin. specialize (Hnew idx Hin). unfold isFree, fs2 in Hnew.
      rewrite afterTurn_freeBlockMap in Hnew. by case_decide. }
    exists (idx :: new). split_and!.
    + by rewrite <- app_assoc.
    + intros i Hi. apply elem_of_cons in Hi as [-> | Hi]; [done |].
      specialize (Hnew i Hi). unfold isFree, fs2 in *.
      rewrite afterTurn_freeBlockMap in Hnew. by case_decide.
    + intros i. rewrite Hf. unfold fs2. rewrite afterTurn_freeBlockMap.
      repeat case_decide; subst; try done; exfalso; set_solver.
    + intros i Hi. rewrite Hb by set_solver. unfold fs2. rewrite afterTurn_blocks.
      case_decide; [set_solver | done].
    + intros i Hi. apply elem_of_cons in Hi as [-> | Hi]; [| by apply Hsome].
      rewrite Hb by done. unfold fs2. rewrite afterTurn_blocks. by case_decide.
    + change (map (readBlock fs') (idx :: new))
        with (readBlock fs' idx :: map (readBlock fs') new).
      rewrite strConcat_cons, Hread.
      assert (Hr : readBlock fs' idx = chunk).
      { unfold readBlock. rewrite Hb by done. fold (readBlock fs2 idx).
        unfold fs2. rewrite readBlock_afterTurn. by case_decide. }
      rewrite Hr. apply slice_sliceFrom.
Qed.

(** The loop ends within its fuel: every turn takes a free block. *)
Lemma allocLoop_fuel fuel err bs content :
  ∀ cursor acc fs,
    countFree (freeBlockMap fs) < fuel →
    is_Some (allocLoop fuel err bs content cursor acc fs).
Proof.
  induction fuel as [| fuel IH]; intros cursor acc fs Hfuel; [lia |].
  destruct (decide (cursor < String.length content)) as [Hlt | Hge];
    [| rewrite allocLoop_done by lia; eauto].
  rewrite allocLoop_unfold by done.
  destruct (indexOf0 (freeBlockMap fs)) as [idx |] eqn:Hidx; [| eauto].
  apply indexOf0_Some in Hidx as (Hfree & _ & _).
  apply IH. simpl. apply countFree_take in Hfree. lia.
Qed.

(** The loop returns when the free blocks can hold the rest of the content. *)
Lemma allocLoop_fits fuel err bs content :
  ∀ cursor acc fs,
    countFree (freeBlockMap fs) < fuel →
    String.length content - cursor ≤ bs * countFree (freeBlockMap fs) →
    ∃ blks fs', allocLoop fuel err bs content cursor acc fs = Some (Ok blks, fs').
Proof.
  induction fuel as [| fuel IH]; intros cursor acc fs Hfuel Hfits; [lia |].
  destruct (decide (cursor < String.length content)) as [Hlt | Hge];
    [| rewrite allocLoop_done by lia; eauto].
  rewrite allocLoop_unfold by done.
  destruct (countFree_pos (freeBlockMap fs)) as [idx Hidx]; [nia |].
  rewrite Hidx. apply indexOf0_Some in Hidx as (Hfree & _ & _).
  apply countFree_take in Hfree.
  apply IH; simpl; [lia | nia].
Qed.

(** [allocateChunks] is the loop with enough fuel. *)
Lemma allocateChunks_loop err content fs :
  ∃ fuel,
    allocLoop fuel err (blockSize fs) content 0 [] fs = Some (allocateChunks err content fs).
Proof.
  exists (S (length (freeBlockMap fs))). unfold allocateChunks.
  destruct (allocLoop_fuel (S (length (freeBlockMap fs))) err (blockSize fs) content 0 [] fs)
    as [r Hr]; [| by rewrite Hr].
  pose proof (countFree_le (freeBlockMap fs)). lia.
Qed.

(** ** The tree *)

Section ChildrenFacts.
Context {N : Type}.
Implicit Types (cs : list (string * N)) (k : string).

Lemma children_get_set_eq k (v : N) cs : Children.get k (Children.set k v cs) = Some v.
Proof.
  induction cs as [| [k' v'] cs IH]; simpl.
  - by rewrite String.eqb_refl.
  - destruct (String.eqb k k') eqn:Hk; simpl; rewrite ?String.eqb_refl, ?Hk; done.
Qed.

Lemma children_get_set_ne k k' (v : N) cs :
  k ≠ k' → Children.get k' (Children.set k v cs) = Children.get k' cs.
Proof.
  intros Hne. induction cs as [| [k2 v2] cs IH]; simpl.
  - destruct (String.eqb_spec k' k); [congruence | done].
  - destruct (String.eqb_spec k k2) as [-> | Hk2]; simpl.
    + destruct (String.eqb_spec k' k2); [congruence | done].
    + destruct (String.eqb_spec k' k2); [done | apply IH].
Qed.

Lemma children_get_alter (f : N → N) k k' cs :
  Children.get k' (Children.alter f k cs) =
  if decide (k = k') then f <$> Children.get k' cs else Children.get k' cs.
Proof.
  induction cs as [| [k2 v2] cs IH]; simpl; [by case_decide |].
  destruct (String.eqb_spec k k2) as [-> | Hk2]; simpl.
  - destruct (String.eqb_spec k' k2) as [-> | Hk']; case_decide; try done; congruence.
  - destruct (String.eqb_spec k' k2) as [-> | Hk']; [| apply IH].
    case_decide; [congruence | done].
Qed.

Lemma children_get_delete_eq k cs : Children.get k (Children.delete k cs) = None.
Proof.
  induction cs as [| [k2 v2] cs IH]; simpl; [done |].
  destruct (String.eqb k k2) eqn:Hk; simpl; rewrite ?Hk; done.
Qed.

Lemma children_truthy_false k cs :
  Children.truthy k cs = false ↔ Children.get k cs = None ∧ inheritedName k = false.
Proof.
  unfold Children.truthy. destruct (Children.get k cs); [| naive_solver].
  split; [done | by intros [? _]].
Qed.

Lemma children_truthy_Some k (v : N) cs :
  Children.get k cs = Some v → Children.truthy k cs = true.
Proof. unfold Children.truthy. by intros ->. Qed.

Lemma children_truthy_inherited k cs : inheritedName k = true → Children.truthy k cs = true.
Proof. unfold Children.truthy. by destruct (Children.get k cs). Qed.
End ChildrenFacts.

Lemma dirAt_app ref1 ref2 d d1 :
  dirAt ref1 d = Some d1 → dirAt (ref1 ++ ref2) d = dirAt ref2 d1.
Proof.
  revert d. induction ref1 as [| part ref1 IH]; intros d; simpl; [by intros [= ->] |].
  destruct (Children.get part (Dir.children d)) as [[f | d'] |]; try done. apply IH.
Qed.

Lemma dirAt_updateDir ref f d x :
  dirAt ref d = Some x → dirAt ref (updateDir ref f d) = Some (f x).
Proof.
  revert d. induction ref as [| part ref IH]; intros d; simpl; [by intros [= ->] |].
  rewrite children_get_alter. case_decide; [| done].
  destruct (Children.get part (Dir.children d)) as [[f' | d'] |]; simpl; try done. apply IH.
Qed.

(** What [resolveParent] returns: the parent lies behind the reference, and
    the path is the reference followed by the name. *)
Lemma resolveParentLoop_Ok seen parts d r parent nm :
  resolveParentLoop seen parts d = Ok (r, parent, nm) →
  ∃ pre, r = seen ++ pre ∧ parts = pre ++ [nm] ∧ dirAt pre d = Some parent.
Proof.
  revert seen d. induction parts as [| part parts IH]; intros seen d; [done |].
  destruct parts as [| part2 parts].
  - simpl. intros [= <- <- <-]. exists []. by rewrite app_nil_r.
  - change (resolveParentLoop seen (part :: part2 :: parts) d)
      with (match Children.get part (Dir.children d) with
            | Some (Directory child) =>
                resolveParentLoop (seen ++ [part]) (part2 :: parts) child
            | _ => Throw (DirectoryNotFound (Str.join "/" (seen ++ [part])))
            end).
    destruct (Children.get part (Dir.children d)) as [[f | child] |] eqn:Hget; try done.
    intros Hrun. apply IH in Hrun as (pre & -> & Hparts & Hdir).
    exists (part :: pre). split_and!.
    + by rewrite <- app_assoc.
    + by rewrite Hparts.
    + simpl. by rewrite Hget.
Qed.

Lemma resolveParentLoop_kind seen parts d e :
  resolveParentLoop seen parts d = Throw e → kindOf e = InvalidPath ∨ kindOf e = NotFound.
Proof.
  revert seen d. induction parts as [| part parts IH]; intros seen d.
  - simpl. intros [= <-]. by left.
  - destruct parts as [| part2 parts]; [done |].
    change (resolveParentLoop seen (part :: part2 :: parts) d)
      with (match Children.get part (Dir.children d) with
            | Some (Directory child) =>
                resolveParentLoop (seen ++ [part]) (part2 :: parts) child
            | _ => Throw (DirectoryNotFound (Str.join "/" (seen ++ [part])))
            end).
    destruct (Children.get part (Dir.children d)) as [[f | child] |] eqn:Hget.
    + intros [= <-]. by right.
    + apply IH.
    + intros [= <-]. by right.
Qed.

Lemma normalizePath_Throw p e : normalizePath p = Throw e → e = ThrownSlash.
Proof. unfold normalizePath. destruct (String.eqb p EmptyString); congruence. Qed.

Lemma resolveParent_run p fs o fs' :
  resolveParent p fs = (o, fs') →
  fs' = fs ∧
  match o with
  | Ok (r, parent, nm) =>
      ∃ normalized, normalizePath p = Ok normalized ∧
        resolveParentLoop [] (partsOf normalized) (root fs) = Ok (r, parent, nm)
  | Throw e => kindOf e = Untyped ∨ kindOf e = InvalidPath ∨ kindOf e = NotFound
  end.
Proof.
  unfold resolveParent, bind, liftOutcome, reading.
  destruct (normalizePath p) as [normalized | e0] eqn:Hn.
  - intros [= <- <-]. split; [done |].
    destruct (resolveParentLoop [] (partsOf normalized) (root fs)) as [[[r parent] nm] | e] eqn:Hr.
    + eauto.
    + apply resolveParentLoop_kind in Hr. tauto.
  - intros [= <- <-]. split; [done |]. apply normalizePath_Throw in Hn as ->. by left.
Qed.

(** ** createFile *)

Lemma allocateChunks_empty err fs : allocateChunks err EmptyString fs = (Ok [], fs).
Proof. unfold allocateChunks. by rewrite allocLoop_done by (simpl; lia). Qed.

(** When [allocateChunks] throws on a well-formed store, it throws [err] and
    the occupancy table is the one it started from. *)
Lemma allocateChunks_Throw err content fs e fs' :
  wfStore fs →
  allocateChunks err content fs = (Throw e, fs') →
  e = err ∧ sameTree fs fs' ∧ wfStore fs' ∧ freeBlockMap fs' = freeBlockMap fs ∧
  ∀ i, JsArray.get (blocks fs') i = JsArray.get (blocks fs) i ∨
       (isFree fs i ∧ JsArray.get (blocks fs') i = Some EmptyString).
Proof.
  intros Hwf Hrun. destruct (allocateChunks_loop err content fs) as [fuel Hloop].
  rewrite Hrun in Hloop.
  apply allocLoop_Throw in Hloop as (-> & Hsame & Hwf' & taken & Ht & Hf & Hb);
    [| done | intros i Hi; by apply elem_of_nil in Hi].
  simpl in Hf, Hb. split_and!; try done.
  - apply JsArrayFacts.ext.
    + destruct Hwf as [-> _], Hwf' as [-> _]. by destruct Hsame as (_ & -> & _).
    + intros i. rewrite Hf. case_decide; [| done]. symmetry. by apply Ht.
  - intros i. rewrite Hb. case_decide; [right | by left]. split; [by apply Ht | done].
Qed.

Lemma createFile_run now p content o m fs :
  createFile now p content o m fs =
  match normalizePath p with
  | Throw e => (Throw e, fs)
  | Ok normalized =>
      match resolveParent normalized fs with
      | (Throw e, fs1) => (Throw e, fs1)
      | (Ok (pref, parent, nm), fs1) =>
          if Children.truthy nm (Dir.children parent) then (Throw EntryAlreadyExists, fs1)
          else
            match allocateChunks DiskFullCreating content fs1 with
            | (Throw e, fs2) => (Throw e, fs2)
            | (Ok blks, fs2) =>
                let node := FileNode.mk nm blks (String.length content)
                              (mkMeta now now (default "root" o)
                                 (default (defaultMode false) m)) in
                (Ok node,
                 withRoot (updateDir pref (attachChild now nm (File node)) (root fs2)) fs2)
            end
      end
  end.
Proof.
  unfold createFile, bind at 1, liftOutcome.
  destruct (normalizePath p) as [normalized | e]; [| done].
  unfold bind at 1. destruct (resolveParent normalized fs) as [[[[pref parent] nm] | e] fs1]; [| done].
  destruct (Children.truthy nm (Dir.children parent)); [done |].
  unfold createFileNode, bind.
  by destruct (allocateChunks DiskFullCreating content fs1) as [[blks | e] fs2].
Qed.

(** With empty content [createFile] takes no block: whenever the parent of
    [p] is found and the name is neither used nor one that every object
    inherits, it returns a file node with no blocks and size 0 and puts it
    into the parent, whatever the number of free blocks; and it never throws
    a disk-full error. *)
Lemma createFile_empty_content now p o m fs pref parent nm :
  parentOf fs p pref parent nm →
  Children.get nm (Dir.children parent) = None →
  inheritedName nm = false →
  let node := FileNode.mk nm [] 0
                (mkMeta now now (default "root" o) (default (defaultMode false) m)) in
  (∃ fs',
     createFile now p EmptyString o m fs = (Ok node, fs') ∧
     freeBlockMap fs' = freeBlockMap fs ∧ blocks fs' = blocks fs ∧
     getFreeBlockCount fs' = getFreeBlockCount fs ∧
     ∃ parent',
       dirAt pref (root fs') = Some parent' ∧
       Children.get nm (Dir.children parent') = Some (File node)) ∧
  (∀ p' fs0 e fs1,
     createFile now p' EmptyString o m fs0 = (Throw e, fs1) → kindOf e ≠ DiskFull).
Proof.
  intros (normalized & Hn & Hres) Hfree Hown node. split.
  - destruct (resolveParent normalized fs) as [res fs1] eqn:Hrp. simpl in Hres. subst res.
    pose proof (resolveParent_run _ _ _ _ Hrp) as (-> & normalized2 & Hn2 & Hloop).
    apply resolveParentLoop_Ok in Hloop as (pre & -> & _ & Hdir). simpl in Hdir.
    eexists. rewrite createFile_run, Hn, Hrp.
    rewrite (proj2 (children_truthy_false nm (Dir.children parent)) (conj Hfree Hown)).
    rewrite allocateChunks_empty. simpl.
    split_and!; try done.
    exists (attachChild now nm (File node) parent). split.
    + by apply dirAt_updateDir.
    + simpl. apply children_get_set_eq.
  - intros p' fs0 e fs1. rewrite createFile_run.
    destruct (normalizePath p') as [normalized' | e0] eqn:Hn'.
    2:{ intros [= <- <-]. by apply normalizePath_Throw in Hn' as ->. }
    destruct (resolveParent normalized' fs0) as [[[[pref' parent'] nm'] | e0] fs2] eqn:Hrp.
    2:{ intros [= <- <-]. apply resolveParent_run in Hrp as (_ & [H | [H | H]]);
          rewrite H; done. }
    destruct (Children.truthy nm' (Dir.children parent')); [by intros [= <- <-] |].
    by rewrite allocateChunks_empty.
Qed.

Lemma createFile_empty_content_example :
  getFreeBlockCount fullVolume = 0 ∧
  ∃ fs', fst (createFile 2 "/docs/a.txt" EmptyString None None fullVolume)
         = Ok (FileNode.mk "a.txt" [] 0 (mkMeta 2 2 "root" "rw-r--r--")) ∧
         snd (createFile 2 "/docs/a.txt" EmptyString None None fullVolume) = fs'.
Proof.
  split; [reflexivity |].
  destruct (createFile_empty_content 2 "/docs/a.txt" None None fullVolume
              ["docs"] (Dir.mk "docs" [] (mkMeta 1 1 "root" "rwxr-xr-x")) "a.txt")
    as [(fs' & Hrun & _) _].
  - exists "/docs/a.txt". split; reflexivity.
  - reflexivity.
  - reflexivity.
  - exists fs'. by rewrite Hrun.
Defined.

(** C10, as the code has it: a name can be unused and still be refused.
    [createFile] tests [parent.children[name]], and under a name that every
    object inherits (["toString"], ["constructor"], ...) the test finds the
    inherited value.  Whenever the parent of [p] is found and the final name
    is such a name, with no entry under it, the call throws "Entry already
    exists", whatever the content and the free blocks, and changes nothing;
    so it does for ["/toString"] and empty content on every new volume. *)
Theorem createFile_inherited_name_exists now p content o m fs pref parent nm :
  parentOf fs p pref parent nm →
  Children.get nm (Dir.children parent) = None →
  inheritedName nm = true →
  createFile now p content o m fs = (Throw EntryAlreadyExists, fs) ∧
  kindOf EntryAlreadyExists = AlreadyExists ∧
  (∀ t volume total bs,
     let new := newFileSystem t volume total bs in
     Children.get "toString" (Dir.children (root new)) = None ∧
     createFile now "/toString" EmptyString o m new = (Throw EntryAlreadyExists, new)).
Proof.
  intros (normalized & Hn & Hres) Hfree Hinherited. split_and!; [| done | done].
  destruct (resolveParent normalized fs) as [res fs1] eqn:Hrp. simpl in Hres. subst res.
  pose proof (resolveParent_run _ _ _ _ Hrp) as (-> & _).
  by rewrite createFile_run, Hn, Hrp, children_truthy_inherited.
Qed.

Lemma createFile_inherited_name_exists_witness :
  let new := newFileSystem 0 "disk" 4 4 in
  getFreeBlockCount new = 4 ∧
  createFile 1 "/constructor" EmptyString None None new = (Throw EntryAlreadyExists, new).
Proof.
  intros new. split; [reflexivity |].
  apply (createFile_inherited_name_exists 1 "/constructor" EmptyString None None new
           [] (root new) "constructor").
  - exists "/constructor". split; reflexivity.
  - reflexivity.
  - reflexivity.
Defined.

(** C2: when [createFile] throws a disk-full error, every block taken during
    the call is free again (the occupancy table, and so the free-block
    count, is the one before the call) and the tree is unchanged: no node was
    inserted.  With one block of size 4, creating ["/x"] with ["abcde"]
    throws the disk-full error and leaves one free block. *)
Theorem createFile_diskfull_rollback now p content o m fs e fs' :
  wfStore fs →
  createFile now p content o m fs = (Throw e, fs') →
  kindOf e = DiskFull →
  (e = DiskFullCreating ∧
   freeBlockMap fs' = freeBlockMap fs ∧
   getFreeBlockCount fs' = getFreeBlockCount fs ∧
   root fs' = root fs) ∧
  (∀ t nm,
     let small := newFileSystem t nm 1 4 in
     fst (createFile now "/x" "abcde" o m small) = Throw DiskFullCreating ∧
     getFreeBlockCount (snd (createFile now "/x" "abcde" o m small)) = 1).
Proof.
  intros Hwf Hrun Hkind. split; [| by intros t nm].
  rewrite createFile_run in Hrun.
  destruct (normalizePath p) as [normalized | e0] eqn:Hn.
  2:{ injection Hrun as <- <-. by apply normalizePath_Throw in Hn as ->. }
  destruct (resolveParent normalized fs) as [[[[pref parent] nm] | e0] fs1] eqn:Hrp.
  2:{ injection Hrun as <- <-. apply resolveParent_run in Hrp as (_ & [H | [H | H]]);
        rewrite H in Hkind; done. }
  apply resolveParent_run in Hrp as (-> & _).
  destruct (Children.truthy nm (Dir.children parent)); [by injection Hrun as <- <- |].
  destruct (allocateChunks DiskFullCreating content fs) as [[blks | e0] fs2] eqn:Hac; [done |].
  injection Hrun as <- <-.
  apply allocateChunks_Throw in Hac as (-> & Hsame & _ & Hfbm & _); [| done].
  split_and!; try done.
  - by rewrite !getFreeBlockCount_countFree, Hfbm.
  - by destruct Hsame as (_ & _ & _ & ->).
Qed.

Lemma createFile_diskfull_rollback_witness :
  let small := newFileSystem 0 "disk" 1 4 in
  let fs' := snd (createFile 1 "/x" "abcde" None None small) in
  freeBlockMap fs' = freeBlockMap small ∧ getFreeBlockCount fs' = 1 ∧ root fs' = root small.
Proof.
  intros small fs'.
  destruct (createFile_diskfull_rollback 1 "/x" "abcde" None None small DiskFullCreating fs')
    as [(_ & Hfbm & Hcount & Hroot) _].
  - split; reflexivity.
  - reflexivity.
  - reflexivity.
  - split_and!; [exact Hfbm | rewrite Hcount; reflexivity | exact Hroot].
Defined.

(** ** Normalization is stable on absolute paths *)

Module PathFacts.

Lemma startsWith_slash s : Str.startsWith (String "/" s) "/" = true.
Proof. unfold Str.startsWith. simpl. by destruct s. Qed.

Lemma split_nonempty s : Str.split s ≠ [].
Proof.
  destruct s as [| c s]; simpl; [done |].
  destruct (Ascii.eqb c "/"); [done |]. by destruct (Str.split s).
Qed.

Lemma split_String c s :
  Str.split (String c s) =
  if Ascii.eqb c "/" then EmptyString :: Str.split s
  else match Str.split s with
       | [] => [String c EmptyString]
       | seg :: rest => String c seg :: rest
       end.
Proof. done. Qed.

Lemma split_slashFree s seg : seg ∈ Str.split s → hasSlash seg = false.
Proof.
  revert seg. induction s as [| c s IH]; intros seg.
  - simpl. intros ->%list_elem_of_singleton. done.
  - rewrite split_String. destruct (Ascii.eqb c "/") eqn:Hc.
    + intros [-> | Hin]%elem_of_cons; [done | by apply IH].
    + pose proof (split_nonempty s). destruct (Str.split s) as [| seg0 rest]; [done |].
      intros [-> | Hin]%elem_of_cons.
      * simpl. rewrite Hc. apply IH. by left.
      * apply IH. by right.
Qed.

Lemma split_no_slash s : hasSlash s = false → Str.split s = [s].
Proof.
  induction s as [| c s IH]; [done |]. intros H. simpl in H.
  apply orb_false_elim in H as [Hc Hs].
  by rewrite split_String, Hc, (IH Hs).
Qed.

Lemma split_app_slash s t :
  hasSlash s = false → Str.split (s +:+ "/" +:+ t) = s :: Str.split t.
Proof.
  induction s as [| c s IH]; [done |]. intros H. simpl in H.
  apply orb_false_elim in H as [Hc Hs].
  rewrite append_String, split_String, Hc. by rewrite (IH Hs).
Qed.

Lemma join_cons_cons a b l : Str.join "/" (a :: b :: l) = a +:+ "/" +:+ Str.join "/" (b :: l).
Proof. done. Qed.

(** Splitting a join gives the segments back. *)
Lemma split_join segs :
  segs ≠ [] → Forall (fun s => hasSlash s = false) segs →
  Str.split (Str.join "/" segs) = segs.
Proof.
  induction segs as [| a segs IH]; [done |]. intros _ Hall.
  apply Forall_cons in Hall as [Ha Hall]. destruct segs as [| b segs].
  - by apply split_no_slash.
  - rewrite join_cons_cons, split_app_slash by done. f_equal. by apply IH.
Qed.

Lemma split_trailing s : Str.split (s +:+ "/") = Str.split s ++ [EmptyString].
Proof.
  induction s as [| c s IH]; [done |].
  rewrite append_String, !split_String, IH. destruct (Ascii.eqb c "/"); [done |].
  pose proof (split_nonempty s). by destruct (Str.split s).
Qed.

Lemma endsWithSlash_String c s :
  s ≠ EmptyString → Str.endsWithSlash (String c s) = Str.endsWithSlash s.
Proof. by destruct s. Qed.

Lemma endsWithSlash_app a b :
  b ≠ EmptyString → Str.endsWithSlash (a +:+ b) = Str.endsWithSlash b.
Proof.
  intros Hb. induction a as [| c a IH]; [done |].
  rewrite append_String, endsWithSlash_String; [done |]. by destruct a, b.
Qed.

Lemma endsWithSlash_no_slash s : hasSlash s = false → Str.endsWithSlash s = false.
Proof.
  induction s as [| c s IH]; [done |]. simpl. intros [Hc Hs]%orb_false_elim.
  destruct s; [done | by apply IH].
Qed.

Lemma endsWithSlash_trailing s : Str.endsWithSlash (s +:+ "/") = true.
Proof. by rewrite endsWithSlash_app. Qed.

Lemma join_nonempty segs :
  segs ≠ [] → Forall plainSegment segs → Str.join "/" segs ≠ EmptyString.
Proof.
  destruct segs as [| a segs]; [done |]. intros _ [(Ha & _) _]%Forall_cons.
  destruct segs; [done |]. rewrite join_cons_cons. by destruct a.
Qed.

Lemma endsWithSlash_join segs :
  segs ≠ [] → Forall plainSegment segs → Str.endsWithSlash (Str.join "/" segs) = false.
Proof.
  induction segs as [| a segs IH]; [done |]. intros _ [Ha Hall]%Forall_cons.
  destruct segs as [| b segs].
  - apply endsWithSlash_no_slash, Ha.
  - rewrite join_cons_cons, !endsWithSlash_app; [by apply IH | |].
    + by apply join_nonempty.
    + pose proof (join_nonempty (b :: segs) ltac:(done) Hall). by destruct (Str.join "/" (b :: segs)).
Qed.

(** The steps of normalization on an absolute path keep plain segments
    only, and plain segments pass through unchanged. *)
Lemma normalizeStep_plain stack seg :
  Forall plainSegment stack → hasSlash seg = false →
  Forall plainSegment (Path.normalizeStep false stack seg).
Proof.
  intros Hstack Hseg. unfold Path.normalizeStep.
  destruct (String.eqb_spec seg EmptyString); [done |].
  destruct (String.eqb_spec seg "."); [done |].
  destruct (String.eqb_spec seg "..").
  - simpl. destruct stack as [| top rest]; [done |].
    destruct (String.eqb top ".."); [done |]. by apply Forall_cons in Hstack as [_ Hrest].
  - simpl. by constructor.
Qed.

Lemma fold_normalizeStep_plain segs stack :
  Forall plainSegment stack → Forall (fun s => hasSlash s = false) segs →
  Forall plainSegment (fold_left (Path.normalizeStep false) segs stack).
Proof.
  revert stack. induction segs as [| seg segs IH]; intros stack Hstack Hsegs; [done |].
  apply Forall_cons in Hsegs as [Hseg Hsegs]. simpl.
  apply IH; [by apply normalizeStep_plain | done].
Qed.

Lemma normalizeStep_push stack seg :
  plainSegment seg → Path.normalizeStep false stack seg = seg :: stack.
Proof.
  intros (H1 & H2 & H3 & _). unfold Path.normalizeStep.
  destruct (String.eqb_spec seg EmptyString); [done |].
  destruct (String.eqb_spec seg "."); [done |].
  by destruct (String.eqb_spec seg "..").
Qed.

Lemma fold_normalizeStep_push segs stack :
  Forall plainSegment segs →
  fold_left (Path.normalizeStep false) segs stack = rev segs ++ stack.
Proof.
  revert stack. induction segs as [| seg segs IH]; intros stack Hsegs; [done |].
  apply Forall_cons in Hsegs as [Hseg Hsegs]. simpl.
  rewrite normalizeStep_push, IH by done. by rewrite <- app_assoc.
Qed.

Lemma fold_normalizeStep_empty segs stack :
  fold_left (Path.normalizeStep false) (segs ++ [EmptyString]) stack =
  fold_left (Path.normalizeStep false) segs stack.
Proof. by rewrite fold_left_app. Qed.

(** The normal form of an absolute path: ["/"], or plain segments joined by
    ["/"] behind a ["/"], with a ["/"] at the end when the path had one. *)
Lemma posixNormalize_absolute p :
  Str.startsWith p "/" = true →
  Path.posixNormalize p = "/" ∨
  ∃ segs trailing,
    segs ≠ [] ∧ Forall plainSegment segs ∧
    Path.posixNormalize p =
    "/" +:+ (if trailing : bool then Str.join "/" segs +:+ "/" else Str.join "/" segs).
Proof.
  intros Habs. unfold Path.posixNormalize.
  destruct (String.eqb_spec p EmptyString) as [-> | Hp]; [done |].
  rewrite Habs. simpl negb. unfold Path.normalizeString.
  set (stack := fold_left (Path.normalizeStep false) (Str.split p) []).
  assert (Hplain : Forall plainSegment (rev stack)).
  { apply Forall_rev, fold_normalizeStep_plain; [done |].
    rewrite Forall_forall. apply split_slashFree. }
  destruct (String.eqb_spec (Str.join "/" (rev stack)) EmptyString) as [Hj | Hj]; [by left |].
  right. exists (rev stack), (Str.endsWithSlash p). split_and!; [| done | done].
  intros Hnil. rewrite Hnil in Hj. done.
Qed.

Lemma posixNormalize_normal segs (trailing : bool) :
  segs ≠ [] → Forall plainSegment segs →
  let n := "/" +:+ (if trailing then Str.join "/" segs +:+ "/" else Str.join "/" segs) in
  Path.posixNormalize n = n.
Proof.
  intros Hne Hplain n.
  assert (Hfree : Forall (fun s => hasSlash s = false) segs).
  { eapply Forall_impl; [exact Hplain |]. by intros s (_ & _ & _ & H). }
  assert (Hsplit : fold_left (Path.normalizeStep false) (Str.split n) [] = rev segs).
  { unfold n. rewrite append_String, append_empty_l, split_String. simpl Ascii.eqb. cbv iota.
    simpl fold_left. destruct trailing.
    - rewrite split_trailing, fold_normalizeStep_empty, split_join by done.
      rewrite fold_normalizeStep_push by done. apply app_nil_r.
    - rewrite split_join by done. rewrite fold_normalizeStep_push by done. apply app_nil_r. }
  assert (Htrail : Str.endsWithSlash n = trailing).
  { unfold n. destruct trailing.
    - rewrite endsWithSlash_app; [apply endsWithSlash_trailing |].
      by destruct (Str.join "/" segs).
    - rewrite endsWithSlash_app; [by apply endsWithSlash_join | by apply join_nonempty]. }
  unfold Path.posixNormalize.
  replace (String.eqb n EmptyString) with false by (unfold n; by rewrite append_String).
  replace (Str.startsWith n "/") with true
    by (unfold n; rewrite append_String; symmetry; apply startsWith_slash).
  simpl negb. unfold Path.normalizeString. rewrite Hsplit, rev_involutive, Htrail.
  destruct (String.eqb_spec (Str.join "/" segs) EmptyString) as [Hj | _];
    [by apply join_nonempty in Hj |].
  by destruct trailing.
Qed.

End PathFacts.

(** Normalizing the normal form of an absolute path gives it back. *)
Lemma normalizePath_absolute_stable p n :
  Str.startsWith p "/" = true → normalizePath p = Ok n → normalizePath n = Ok n.
Proof.
  intros Habs Hn. unfold normalizePath in Hn.
  destruct (String.eqb p EmptyString); [done |].
  destruct (PathFacts.posixNormalize_absolute p Habs) as [Hroot | (segs & trailing & Hne & Hplain & Hnorm)].
  - rewrite Hroot in Hn. by injection Hn as <-.
  - rewrite Hnorm in Hn. rewrite append_String, PathFacts.startsWith_slash in Hn.
    injection Hn as <-.
    pose proof (PathFacts.posixNormalize_normal segs trailing Hne Hplain) as Hstable.
    cbv zeta in Hstable. rewrite append_String, append_empty_l in Hstable.
    unfold normalizePath. simpl String.eqb. cbv iota. rewrite !append_empty_l.
    by rewrite Hstable, PathFacts.startsWith_slash.
Qed.

(** ** writeFile and readFile *)

Lemma freeBlocks_Ok ids fs : fst (freeBlocks ids fs) = Ok tt.
Proof.
  revert fs. induction ids as [| b ids IH]; intros fs; [done |].
  rewrite freeBlocks_cons. apply IH.
Qed.

Lemma freeBlocks_sameTree ids fs : sameTree fs (snd (freeBlocks ids fs)).
Proof.
  revert fs. induction ids as [| b ids IH]; intros fs; [done |].
  rewrite freeBlocks_cons. eapply sameTree_trans; [| apply IH].
  by destruct (totalBlocks fs <=? b).
Qed.

Lemma freeBlocks_countFree ids fs :
  countFree (freeBlockMap fs) ≤ countFree (freeBlockMap (snd (freeBlocks ids fs))).
Proof.
  revert fs. induction ids as [| b ids IH]; intros fs; [done |].
  rewrite freeBlocks_cons. etrans; [| apply IH].
  destruct (totalBlocks fs <=? b); [done |]. simpl. apply countFree_free.
Qed.

Lemma walk_nodeAt p parts n x : walk p parts n = Ok x ↔ nodeAt parts n = Some x.
Proof.
  revert n. induction parts as [| part parts IH]; intros n; simpl.
  - split; congruence.
  - destruct n as [f | d]; [done |].
    destruct (Children.get part (Dir.children d)); [apply IH | done].
Qed.

Lemma walk_kind p parts n e :
  walk p parts n = Throw e → kindOf e = NotADirectory ∨ kindOf e = NotFound.
Proof.
  revert n. induction parts as [| part parts IH]; intros n; simpl; [done |].
  destruct n as [f | d]; [intros [= <-]; by left |].
  destruct (Children.get part (Dir.children d)); [apply IH | intros [= <-]; by right].
Qed.

Lemma nodeAt_updateFile ref g d f :
  nodeAt ref (Directory d) = Some (File f) →
  nodeAt ref (Directory (updateFile ref g d)) = Some (File (g f)).
Proof.
  revert d. induction ref as [| part ref IH]; intros d; [done |].
  destruct ref as [| part2 ref].
  - simpl. rewrite children_get_alter. case_decide; [| done].
    destruct (Children.get part (Dir.children d)) as [[f0 | d0] |]; simpl; congruence.
  - change (updateFile (part :: part2 :: ref) g d)
      with (Dir.mk (Dir.name d)
              (Children.alter (fun n => match n with
                                        | Directory d' =>
                                            Directory (updateFile (part2 :: ref) g d')
                                        | File _ => n
                                        end) part (Dir.children d))
              (Dir.meta d)).
    change (nodeAt (part :: part2 :: ref) (Directory d))
      with (match Children.get part (Dir.children d) with
            | Some child => nodeAt (part2 :: ref) child
            | None => None
            end).
    intros Hn.
    change (nodeAt (part :: part2 :: ref) (Directory ?x))
      with (match Children.get part (Dir.children x) with
            | Some child => nodeAt (part2 :: ref) child
            | None => None
            end).
    cbn [Dir.children]. rewrite children_get_alter. case_decide; [| done].
    destruct (Children.get part (Dir.children d)) as [[f0 | d0] |]; simpl in *; try done.
    by apply IH.
Qed.

(** What [getNodeRef] returns: the node behind the reference. *)
Lemma getNodeRef_run p fs o fs' :
  getNodeRef p fs = (o, fs') →
  fs' = fs ∧
  match o with
  | Ok (ref, n) =>
      nodeAt ref (Directory (root fs)) = Some n ∧
      ∃ normalized, normalizePath p = Ok normalized ∧
        (if String.eqb normalized "/" then ref = [] else ref = partsOf normalized)
  | Throw e => kindOf e = Untyped ∨ kindOf e = NotADirectory ∨ kindOf e = NotFound
  end.
Proof.
  unfold getNodeRef, bind, liftOutcome, reading.
  destruct (normalizePath p) as [normalized | e0] eqn:Hn.
  2:{ intros [= <- <-]. split; [done |]. apply normalizePath_Throw in Hn as ->. by left. }
  destruct (String.eqb normalized "/") eqn:Hroot.
  - intros [= <- <-]. split; [done |]. split; [done |]. exists normalized. by rewrite Hroot.
  - destruct (walk p (partsOf normalized) (Directory (root fs))) as [n | e] eqn:Hw;
      intros [= <- <-]; (split; [done |]).
    + split; [by apply walk_nodeAt in Hw |]. exists normalized. by rewrite Hroot.
    + apply walk_kind in Hw. tauto.
Qed.

Lemma getNode_eq p fs :
  getNode p fs =
  match getNodeRef p fs with
  | (Ok r, _) => (Ok (snd r), fs)
  | (Throw e, _) => (Throw e, fs)
  end.
Proof.
  unfold getNode, bind. destruct (getNodeRef p fs) as [[r | e] fs1] eqn:Hr;
    by apply getNodeRef_run in Hr as (-> & _).
Qed.

Lemma writeFile_run now p content fs :
  writeFile now p content fs =
  match normalizePath p with
  | Throw e => (Throw e, fs)
  | Ok normalized =>
      match getNodeRef normalized fs with
      | (Throw e, _) => (Throw e, fs)
      | (Ok (_, Directory _), _) => (Throw NotAFileError, fs)
      | (Ok (ref, File f), _) =>
          let fs2 := snd (freeBlocks (FileNode.blocks f) fs) in
          match allocateChunks DiskFullWriting content fs2 with
          | (Throw e, fs3) => (Throw e, fs3)
          | (Ok newBlocks, fs3) =>
              let f' := FileNode.mk (FileNode.name f) newBlocks (String.length content)
                          (setUpdatedAt now (FileNode.meta f)) in
              (Ok f', withRoot (updateFile ref (fun _ => f') (root fs3)) fs3)
          end
      end
  end.
Proof.
  unfold writeFile, bind at 1, liftOutcome.
  destruct (normalizePath p) as [normalized | e]; [| done].
  unfold bind at 1.
  destruct (getNodeRef normalized fs) as [[[ref [f | d]] | e] fs1] eqn:Hr;
    apply getNodeRef_run in Hr as (-> & _); try done.
  simpl. unfold bind at 1.
  pose proof (freeBlocks_Ok (FileNode.blocks f) fs) as Hok.
  destruct (freeBlocks (FileNode.blocks f) fs) as [[[] | e] fs2]; simpl in *; [| done].
  unfold bind.
  by destruct (allocateChunks DiskFullWriting content fs2) as [[blks | e] fs3].
Qed.

Lemma readFile_run p fs :
  readFile p fs =
  match getNodeRef p fs with
  | (Throw e, _) => (Throw e, fs)
  | (Ok (_, Directory _), _) => (Throw NotAFileError, fs)
  | (Ok (_, File f), _) => (Ok (readBlocks fs (FileNode.blocks f)), fs)
  end.
Proof.
  unfold readFile, bind. rewrite getNode_eq.
  by destruct (getNodeRef p fs) as [[[ref [f | d]] | e] fs1].
Qed.




Lemma getNodeRef_intro q fs normalized n :
  normalizePath q = Ok normalized →
  String.eqb normalized "/" = false →
  nodeAt (partsOf normalized) (Directory (root fs)) = Some n →
  getNodeRef q fs = (Ok (partsOf normalized, n), fs).
Proof.
  intros Hn Hroot Hnode. unfold getNodeRef, bind, liftOutcome, reading.
  rewrite Hn, Hroot. apply (walk_nodeAt q) in Hnode. by rewrite Hnode.
Qed.

Lemma allocateChunks_Ok err content fs blks fs' :
  allocateChunks err content fs = (Ok blks, fs') →
  sameTree fs fs' ∧ readBlocks fs' blks = content ∧
  (∀ i, i ∈ blks → isFree fs i) ∧
  (∀ i, JsArray.get (freeBlockMap fs') i =
        if decide (i ∈ blks) then Some 1 else JsArray.get (freeBlockMap fs) i) ∧
  (∀ i, i ∉ blks → JsArray.get (blocks fs') i = JsArray.get (blocks fs) i) ∧
  (∀ i, i ∈ blks → JsArray.get (blocks fs') i ≠ None).
Proof.
  intros Hrun. destruct (allocateChunks_loop err content fs) as [fuel Hloop].
  rewrite Hrun in Hloop.
  apply allocLoop_Ok in Hloop as (Hsame & new & -> & Hnew & Hf & Hb & Hsome & Hread);
    [| intros i Hi; by apply elem_of_nil in Hi].
  simpl. split_and!; done.
Qed.

Lemma allocateChunks_fits err content fs :
  String.length content ≤ blockSize fs * countFree (freeBlockMap fs) →
  ∃ blks fs', allocateChunks err content fs = (Ok blks, fs').
Proof.
  intros Hfits. unfold allocateChunks.
  destruct (allocLoop_fits (S (length (freeBlockMap fs))) err (blockSize fs) content 0 [] fs)
    as (blks & fs' & ->); [| lia | eauto].
  pose proof (countFree_le (freeBlockMap fs)). lia.
Qed.

(** Where the two methods resolve the same node, the round trip holds: for a
    path whose normal form is stable under normalization and at which a file
    exists, a [writeFile] that returns is read back by [readFile] exactly,
    whatever the content; and [writeFile] returns whenever the free blocks
    can hold the content. *)
Lemma readFile_after_writeFile now p content fs normalized f :
  normalizePath p = Ok normalized →
  normalizePath normalized = Ok normalized →
  fst (getNode p fs) = Ok (File f) →
  (∀ f' fs', writeFile now p content fs = (Ok f', fs') →
             readFile p fs' = (Ok content, fs')) ∧
  (String.length content ≤ blockSize fs * getFreeBlockCount fs →
   ∃ f' fs', writeFile now p content fs = (Ok f', fs')).
Proof.
  intros Hn Hstable Hfile.
  (* the node both calls resolve *)
  rewrite getNode_eq in Hfile.
  destruct (getNodeRef p fs) as [[[ref n] | e] fs1] eqn:Hr; simpl in Hfile; [| done].
  injection Hfile as ->.
  apply getNodeRef_run in Hr as (_ & Hnode & normalized' & Hn' & Href).
  rewrite Hn in Hn'. injection Hn' as <-.
  destruct (String.eqb normalized "/") eqn:Hroot.
  { subst ref. simpl in Hnode. done. }
  subst ref.
  pose proof (getNodeRef_intro normalized fs normalized (File f) Hstable Hroot Hnode) as Hr2.
  pose proof (freeBlocks_sameTree (FileNode.blocks f) fs) as Hsame2.
  split.
  - intros f' fs' Hrun. rewrite writeFile_run, Hn, Hr2 in Hrun. cbv zeta in Hrun.
    set (fs2 := snd (freeBlocks (FileNode.blocks f) fs)) in *.
    destruct (allocateChunks DiskFullWriting content fs2) as [[blks | e] fs3] eqn:Hac; [| done].
    injection Hrun as <- <-.
    apply allocateChunks_Ok in Hac as (Hsame3 & Hread & _).
    assert (Hroot3 : root fs3 = root fs).
    { destruct Hsame2 as (_ & _ & _ & H2), Hsame3 as (_ & _ & _ & H3). congruence. }
    rewrite readFile_run.
    erewrite (getNodeRef_intro p _ normalized); [| done | done |].
    2:{ simpl. rewrite Hroot3. by apply nodeAt_updateFile. }
    simpl. by rewrite <- Hread.
  - intros Hfits. rewrite writeFile_run, Hn, Hr2. cbv zeta.
    set (fs2 := snd (freeBlocks (FileNode.blocks f) fs)) in *.
    destruct (allocateChunks_fits DiskFullWriting content fs2) as (blks & fs3 & ->); [| eauto].
    destruct Hsame2 as (_ & _ & -> & _).
    rewrite getFreeBlockCount_countFree in Hfits.
    pose proof (freeBlocks_countFree (FileNode.blocks f) fs). fold fs2 in H. nia.
Qed.

Lemma readFile_after_writeFile_example :
  ∃ f' fs', writeFile 5 "/d/../a" "abcdefg" dotDotVolume = (Ok f', fs') ∧
            readFile "/d/../a" fs' = (Ok "abcdefg", fs').
Proof.
  destruct (readFile_after_writeFile 5 "/d/../a" "abcdefg" dotDotVolume "/a"
              (FileNode.mk "a" [1] 3 (mkMeta 3 3 "root" "rw-r--r--")))
    as [Hread Hwrite]; [reflexivity | reflexivity | reflexivity |].
  destruct Hwrite as (f' & fs' & Hrun); [vm_compute; lia |].
  exists f', fs'. split; [exact Hrun | exact (Hread f' fs' Hrun)].
Defined.

(** C5, as the code has it: [writeFile] normalizes its path and hands the
    result to [getNode], which normalizes it again; [readFile] hands its path
    to [getNode] as it is.  The normal form of ["../a"] is ["/../a"], that of
    ["/../a"] is ["/a"]: in a volume with a directory named [".."] the two
    methods resolve ["../a"] to different files.  A file exists at ["../a"]
    and holds ["old"]; writing ["new"] to ["../a"] returns, and the file at
    ["../a"] still holds ["old"]: the write went to ["/a"]. *)
Theorem readFile_after_writeFile_relative_path :
  fst (readFile "../a" dotDotVolume) = Ok "old" ∧
  fst (writeFile 9 "../a" "new" dotDotVolume)
  = Ok (FileNode.mk "a" [1] 3 (mkMeta 3 9 "root" "rw-r--r--")) ∧
  fst (readFile "../a" (snd (writeFile 9 "../a" "new" dotDotVolume))) = Ok "old" ∧
  fst (readFile "/a" (snd (writeFile 9 "../a" "new" dotDotVolume))) = Ok "new".
Proof. repeat split; reflexivity. Qed.

(** ** move and copy *)

Lemma nodeAt_resolveParentLoop parts : ∀ seen d n,
  parts ≠ [] →
  nodeAt parts (Directory d) = Some n →
  ∃ pre nm parent,
    parts = pre ++ [nm] ∧
    resolveParentLoop seen parts d = Ok (seen ++ pre, parent, nm) ∧
    Children.get nm (Dir.children parent) = Some n.
Proof.
  induction parts as [| part parts IH]; intros seen d n Hne Hnode; [done |].
  destruct parts as [| part2 parts].
  - simpl in Hnode. destruct (Children.get part (Dir.children d)) as [child |] eqn:Hget; [| done].
    injection Hnode as ->. exists [], part, d. simpl. by rewrite app_nil_r.
  - change (nodeAt (part :: part2 :: parts) (Directory d))
      with (match Children.get part (Dir.children d) with
            | Some child => nodeAt (part2 :: parts) child
            | None => None
            end) in Hnode.
    change (resolveParentLoop seen (part :: part2 :: parts) d)
      with (match Children.get part (Dir.children d) with
            | Some (Directory child) =>
                resolveParentLoop (seen ++ [part]) (part2 :: parts) child
            | _ => Throw (DirectoryNotFound (Str.join "/" (seen ++ [part])))
            end).
    destruct (Children.get part (Dir.children d)) as [[f | child] |] eqn:Hget; try done.
    destruct (IH (seen ++ [part]) child n) as (pre & nm & parent & Hparts & Hloop & Hn);
      [done | done |].
    exists (part :: pre), nm, parent. split_and!; [by rewrite Hparts | | done].
    by rewrite Hloop, <- app_assoc.
Qed.

(** A destination that is an existing file: the error thrown in the [try]
    block is caught, and [resolveParent] then finds the file's own entry. *)
Lemma destination_is_file dn fs f (nm0 : string) :
  fst (getNode dn fs) = Ok (File f) →
  ∃ dref destParent destName,
    tryCatch
      (let* r := getNodeRef dn in
       match snd r with
       | Directory d => ret (fst r, d, nm0)
       | File _ => throw DestinationNotDirectory
       end)
      (resolveParent dn) fs = (Ok (dref, destParent, destName), fs) ∧
    Children.get destName (Dir.children destParent) = Some (File f).
Proof.
  intros Hfile. rewrite getNode_eq in Hfile.
  destruct (getNodeRef dn fs) as [[[ref n] | e] fs1] eqn:Hr; simpl in Hfile; [| done].
  injection Hfile as ->.
  apply getNodeRef_run in Hr as Hr'. destruct Hr' as (-> & Hnode & normalized & Hn & Href).
  destruct (String.eqb normalized "/"); subst ref; [done |].
  destruct (nodeAt_resolveParentLoop (partsOf normalized) [] (root fs) (File f))
    as (pre & nm & parent & _ & Hloop & Hget); [| done |].
  { intros Hnil. rewrite Hnil in Hnode. done. }
  exists pre, parent, nm. split; [| done].
  unfold tryCatch, bind at 1. rewrite Hr. simpl.
  unfold resolveParent, bind, liftOutcome, reading. by rewrite Hn, Hloop.
Qed.

(** C3, as the code has it: when the destination is an existing file, [move]
    and [copy] of an existing source throw "Destination entry already
    exists", the error of an occupied destination name, and not "Destination
    exists and is not a directory"; the volume is unchanged. *)
Theorem move_copy_onto_existing_file now src dst fs dn f node :
  normalizePath dst = Ok dn →
  fst (getNode dn fs) = Ok (File f) →
  (entryOf fs src node → move now src dst fs = (Throw DestinationEntryExists, fs)) ∧
  (fst (getNode src fs) = Ok node → copy now src dst fs = (Throw DestinationEntryExists, fs)) ∧
  kindOf DestinationEntryExists = AlreadyExists ∧
  kindOf DestinationEntryExists ≠ InvalidDestination.
Proof.
  intros Hdn Hfile. split_and!; try done.
  - intros (sref & sParent & sName & (sn & Hsn & Hsres) & Hnode).
    destruct (destination_is_file dn fs f (nodeName node) Hfile)
      as (dref & destParent & destName & Htry & Hget).
    unfold move, bind at 1, liftOutcome. rewrite Hsn.
    unfold bind at 1. rewrite Hdn.
    unfold bind at 1.
    destruct (resolveParent sn fs) as [res fs1] eqn:Hrp. simpl in Hsres. subst res.
    apply resolveParent_run in Hrp as (-> & _).
    rewrite Hnode. unfold bind at 1. rewrite Htry.
    by rewrite (children_truthy_Some _ _ _ Hget).
  - intros Hsrc.
    destruct (destination_is_file dn fs f (nodeName node) Hfile)
      as (dref & destParent & destName & Htry & Hget).
    unfold copy, bind at 1.
    destruct (getNode src fs) as [o fs1] eqn:Hg. simpl in Hsrc. subst o.
    pose proof (readOnly_run _ _ _ _ (readOnly_getNode src) Hg) as ->.
    unfold bind at 1, liftOutcome. rewrite Hdn.
    unfold bind at 1. rewrite Htry. by rewrite (children_truthy_Some _ _ _ Hget).
Qed.

Lemma move_copy_onto_existing_file_witness :
  move 3 "/a" "/b" twoFilesVolume = (Throw DestinationEntryExists, twoFilesVolume) ∧
  copy 3 "/a" "/b" twoFilesVolume = (Throw DestinationEntryExists, twoFilesVolume).
Proof.
  destruct (move_copy_onto_existing_file 3 "/a" "/b" twoFilesVolume "/b"
              (FileNode.mk "b" [1] 3 (mkMeta 2 2 "root" "rw-r--r--"))
              (File (FileNode.mk "a" [0] 3 (mkMeta 1 1 "root" "rw-r--r--"))))
    as (Hmove & Hcopy & _); [reflexivity | reflexivity |].
  split.
  - apply Hmove. exists [], (root twoFilesVolume), "a". split; [| reflexivity].
    exists "/a". split; reflexivity.
  - apply Hcopy. reflexivity.
Defined.

(** Every clone made by [cloneRec] carries the destination name. *)
Lemma cloneRec_name now destName n fs c fs' :
  cloneRec now destName n fs = (Ok c, fs') → nodeName c = destName.
Proof.
  destruct n as [f | d]; simpl; unfold bind at 1.
  - unfold reading at 1. unfold bind at 1.
    destruct (createFileNode _ _ _ _ _ fs) as [[node | e] fs1] eqn:Hc; [| done].
    intros [= <- <-]. unfold createFileNode, bind in Hc.
    destruct (allocateChunks _ _ fs) as [[blks | e] fs2]; [| done].
    by injection Hc as <- <-.
  - case_match. case_match; [| done]. by intros [= <- <-].
Qed.

(** C4, as the code has it: copying the directory ["/a"], which holds
    ["x.txt"] and ["y.txt"], to ["/c"] gives a directory with the single
    entry ["c"], a clone of ["y.txt"] named ["c"]: the children were not
    cloned under their own names.  The blocks of both clones stay taken. *)
Theorem copy_directory_children_lose_their_names :
  let fs' := snd (copy 5 "/a" "/c" directoryVolume) in
  fst (listDirectory "/a" fs')
  = Ok [mkDirEntry "x.txt" TFile (Some 2) (mkMeta 2 2 "root" "rw-r--r--");
        mkDirEntry "y.txt" TFile (Some 2) (mkMeta 3 3 "root" "rw-r--r--")] ∧
  fst (listDirectory "/c" fs')
  = Ok [mkDirEntry "c" TFile (Some 2) (mkMeta 5 5 "root" "rw-r--r--")] ∧
  fst (readFile "/c/c" fs') = Ok "yo" ∧
  fst (getNode "/c/x.txt" fs') = Throw (PathDoesNotExist "x.txt" "/c/x.txt") ∧
  fst (getNode "/c/y.txt" fs') = Throw (PathDoesNotExist "y.txt" "/c/y.txt") ∧
  getFreeBlockCount directoryVolume = 6 ∧ getFreeBlockCount fs' = 4.
Proof. repeat split; reflexivity. Qed.

(** ** Invariants of the block store *)

(** Induction on a node tree: a directory has the property when all its
    children have it. *)
Lemma FSNode_tree_ind (Q : FSNode → Prop) :
  (∀ f, Q (File f)) →
  (∀ d, Forall (fun kc => Q (snd kc)) (Dir.children d) → Q (Directory d)) →
  ∀ n, Q n.
Proof.
  intros Hfile Hdir. fix IH 1. intros [f | [nm cs mt]]; [apply Hfile |].
  apply Hdir. simpl. induction cs as [| [k c] cs IHcs]; constructor; [apply IH | apply IHcs].
Qed.

Create HintDb keeps discriminated.

(** A property of the volume that the tree does not affect and that the
    steps on the block store keep is kept by every method but [format]. *)
Section StoreInvariant.
Variable P : FileSystem → Prop.
Hypothesis P_withRoot : ∀ r fs, P fs → P (withRoot r fs).
Hypothesis P_allocateBlock : keeps P allocateBlock.
Hypothesis P_freeBlock : ∀ idx, keeps P (freeBlock idx).
Hypothesis P_afterTurn :
  ∀ fs idx chunk, P fs → idx < length (freeBlockMap fs) → P (afterTurn fs idx chunk).

Lemma keeps_ret {A} (a : A) : keeps P (ret a).
Proof. by intros fs. Qed.

Lemma keeps_throw {A} e : keeps P (throw (A := A) e).
Proof. by intros fs. Qed.

Lemma keeps_readOnly {A} (m : M A) : readOnly m → keeps P m.
Proof. intros Hm fs. by rewrite Hm. Qed.

Lemma keeps_bind {A B} (m : M A) (k : A → M B) :
  keeps P m → (∀ a, keeps P (k a)) → keeps P (bind m k).
Proof.
  intros Hm Hk fs Hinv. unfold bind. specialize (Hm fs Hinv).
  destruct (m fs) as [[a | e] fs1]; simpl in *; [by apply Hk | done].
Qed.

Lemma keeps_tryCatch {A} (m h : M A) : keeps P m → keeps P h → keeps P (tryCatch m h).
Proof.
  intros Hm Hh fs Hinv. unfold tryCatch. specialize (Hm fs Hinv).
  destruct (m fs) as [[a | e] fs1]; simpl in *; [done | by apply Hh].
Qed.

Lemma keeps_modifyDir ref f : keeps P (modifyDir ref f).
Proof. intros fs. apply P_withRoot. Qed.

Lemma keeps_freeBlocks ids : keeps P (freeBlocks ids).
Proof.
  induction ids as [| b ids IH]; [apply keeps_ret |].
  simpl. apply keeps_bind; [apply P_freeBlock | done].
Qed.

Lemma allocLoop_keeps fuel err bs content :
  ∀ cursor acc fs r,
    P fs → allocLoop fuel err bs content cursor acc fs = Some r → P (snd r).
Proof.
  induction fuel as [| fuel IH]; intros cursor acc fs r Hinv Hrun.
  - simpl in Hrun. destruct (cursor <? String.length content); [done |].
    by injection Hrun as <-.
  - destruct (decide (cursor < String.length content)) as [Hlt | Hge];
      [| rewrite allocLoop_done in Hrun by lia; by injection Hrun as <-].
    rewrite allocLoop_unfold in Hrun by done.
    destruct (indexOf0 (freeBlockMap fs)) as [idx |] eqn:Hidx.
    + apply indexOf0_Some in Hidx as (_ & Hlen & _).
      eapply IH; [| exact Hrun]. by apply P_afterTurn.
    + injection Hrun as <-.
      apply (keeps_bind (freeBlocks acc) (fun _ => throw err));
        [apply keeps_freeBlocks | intros; apply keeps_throw | done].
Qed.

Lemma keeps_allocateChunks err content : keeps P (allocateChunks err content).
Proof.
  intros fs Hinv. destruct (allocateChunks_loop err content fs) as [fuel Hloop].
  by eapply allocLoop_keeps.
Qed.

Lemma keeps_createFileNode now nm content o m :
  keeps P (createFileNode now nm content o m).
Proof.
  unfold createFileNode. apply keeps_bind; [apply keeps_allocateChunks |].
  intros blks. apply keeps_ret.
Qed.

#[local] Hint Resolve keeps_ret keeps_throw keeps_modifyDir P_allocateBlock
  P_freeBlock keeps_freeBlocks keeps_allocateChunks keeps_createFileNode : keeps.
#[local] Hint Extern 1 (keeps _ (liftOutcome _)) =>
  apply keeps_readOnly, readOnly_liftOutcome : keeps.
#[local] Hint Extern 1 (keeps _ (reading _)) =>
  apply keeps_readOnly, readOnly_reading : keeps.
#[local] Hint Extern 1 (keeps _ (resolveParent _)) =>
  apply keeps_readOnly, readOnly_resolveParent : keeps.
#[local] Hint Extern 1 (keeps _ (getNodeRef _)) =>
  apply keeps_readOnly, readOnly_getNodeRef : keeps.
#[local] Hint Extern 1 (keeps _ (getNode _)) =>
  apply keeps_readOnly, readOnly_getNode : keeps.
#[local] Hint Extern 1 (keeps _ (readFile _)) =>
  apply keeps_readOnly, readOnly_readFile : keeps.

(** Splits a method into its steps and closes each with the hints. *)
Ltac keeps_steps :=
  repeat first
    [ progress auto with keeps
    | apply keeps_bind; [| intros ? ]
    | apply keeps_tryCatch
    | match goal with
      | |- keeps _ (let '(_, _) := ?x in _) => destruct x
      | |- keeps _ (match ?x with _ => _ end) => destruct x
      | |- keeps _ (if ?x then _ else _) => destruct x
      end ].

Lemma keeps_createDirectory now p o m : keeps P (createDirectory now p o m).
Proof. unfold createDirectory. keeps_steps. Qed.

Lemma keeps_createFile now p content o m : keeps P (createFile now p content o m).
Proof. unfold createFile. keeps_steps. Qed.

Lemma keeps_writeFile now p content : keeps P (writeFile now p content).
Proof.
  unfold writeFile. keeps_steps.
  intros fs Hinv. by apply P_withRoot.
Qed.

Lemma keeps_appendFile now p extra : keeps P (appendFile now p extra).
Proof.
  unfold appendFile. apply keeps_bind; [auto with keeps |].
  intros [f | d]; [| auto with keeps].
  apply keeps_bind; [auto with keeps |]. intros current. apply keeps_writeFile.
Qed.

Lemma keeps_deleteRec n : keeps P (deleteRec n).
Proof.
  induction n as [f | d IH] using FSNode_tree_ind; simpl; [auto with keeps |].
  revert IH. generalize (Dir.children d). intros cs.
  induction cs as [| [k ch] cs IHcs]; intros IH; [auto with keeps |].
  apply Forall_cons in IH as [Hch Hcs]. apply keeps_bind; [done | intros _; by apply IHcs].
Qed.

Lemma keeps_deleteNode now p : keeps P (deleteNode now p).
Proof.
  unfold deleteNode. apply keeps_bind; [auto with keeps |]. intros normalized.
  destruct (String.eqb normalized "/"); [auto with keeps |].
  apply keeps_bind; [auto with keeps |]. intros [[pref parent] nm].
  destruct (Children.get nm (Dir.children parent)) as [node |]; [| auto with keeps].
  apply keeps_bind; [apply keeps_deleteRec |]. intros _. keeps_steps.
Qed.

Lemma keeps_rename now p newName : keeps P (rename now p newName).
Proof. unfold rename. keeps_steps. Qed.

Lemma keeps_move now src dst : keeps P (move now src dst).
Proof. unfold move. keeps_steps. Qed.

Lemma keeps_cloneRec now destName n : keeps P (cloneRec now destName n).
Proof.
  induction n as [f | d IH] using FSNode_tree_ind; simpl; [keeps_steps |].
  apply keeps_bind; [| intros cs; auto with keeps].
  generalize (@nil (string * FSNode)).
  revert IH. generalize (Dir.children d). intros cs.
  induction cs as [| [k ch] cs IHcs]; intros IH acc; [auto with keeps |].
  apply Forall_cons in IH as [Hch Hcs].
  apply keeps_bind; [done | intros childClone; by apply IHcs].
Qed.

Lemma keeps_copy now src dst : keeps P (copy now src dst).
Proof.
  unfold copy. apply keeps_bind; [auto with keeps |]. intros node.
  apply keeps_bind; [auto with keeps |]. intros dn.
  apply keeps_bind; [keeps_steps |]. intros [[dref destParent] destName].
  destruct (Children.truthy destName (Dir.children destParent)); [auto with keeps |].
  apply keeps_bind; [apply keeps_cloneRec |]. intros copied. keeps_steps.
Qed.

(** Every call keeps [P], when [format] does. *)
Lemma exec_keeps now op fs :
  (∀ zeroBlocks, op = OpFormat zeroBlocks → P (snd (format now zeroBlocks fs))) →
  P fs → P (exec now op fs).
Proof.
  intros Hformat Hinv. destruct op; simpl.
  - by apply P_allocateBlock.
  - by apply P_freeBlock.
  - by apply keeps_createDirectory.
  - by rewrite readOnly_listDirectory.
  - by apply keeps_createFile.
  - by rewrite readOnly_readFile.
  - by apply keeps_writeFile.
  - by apply keeps_appendFile.
  - by apply keeps_deleteNode.
  - by apply keeps_rename.
  - by apply keeps_move.
  - by apply keeps_copy.
  - by rewrite readOnly_stat.
  - by rewrite readOnly_search.
  - by apply Hformat.
Qed.

End StoreInvariant.

(** *** The arrays of the store keep their length *)

Lemma wfStore_allocateBlock : keeps wfStore allocateBlock.
Proof.
  intros fs [H1 H2]. unfold allocateBlock.
  destruct (indexOf0 (freeBlockMap fs)) as [idx |] eqn:Hidx; [| done].
  apply indexOf0_Some in Hidx as (_ & Hlen & _).
  split; simpl; rewrite JsArrayFacts.length_set; lia.
Qed.

Lemma wfStore_freeBlock idx : keeps wfStore (freeBlock idx).
Proof.
  intros fs [H1 H2]. unfold freeBlock.
  destruct (totalBlocks fs <=? idx) eqn:Hidx; [done |].
  apply Nat.leb_gt in Hidx. split; simpl; rewrite JsArrayFacts.length_set; lia.
Qed.

Lemma wfStore_new now nm total bs : wfStore (newFileSystem now nm total bs).
Proof. split; simpl; apply length_replicate. Qed.

Lemma wfStore_format now zeroBlocks fs : wfStore fs → wfStore (snd (format now zeroBlocks fs)).
Proof.
  intros [H1 H2]. split; simpl; [apply length_replicate |].
  destruct zeroBlocks; [apply length_replicate | done].
Qed.

(** Every volume reached from a new one is well formed. *)
Lemma reachable_wfStore allowed fs : reachable allowed fs → wfStore fs.
Proof.
  induction 1 as [now nm total bs | fs now op _ IH _]; [apply wfStore_new |].
  apply (exec_keeps wfStore); try done.
  - apply wfStore_allocateBlock.
  - apply wfStore_freeBlock.
  - intros fs0 idx chunk. apply afterTurn_wf.
  - intros zeroBlocks _. by apply wfStore_format.
Qed.

(** *** Free blocks are empty *)

Lemma storeInv_allocateBlock : keeps storeInv allocateBlock.
Proof.
  intros fs [Hwf Hinv]. split; [by apply wfStore_allocateBlock |].
  unfold allocateBlock.
  destruct (indexOf0 (freeBlockMap fs)) as [idx |] eqn:Hidx; [| done].
  intros i. unfold isFree. simpl. rewrite !JsArrayFacts.get_set.
  case_decide; [done | apply Hinv].
Qed.

Lemma storeInv_freeBlock idx : keeps storeInv (freeBlock idx).
Proof.
  intros fs [Hwf Hinv]. split; [by apply wfStore_freeBlock |].
  unfold freeBlock. destruct (totalBlocks fs <=? idx) eqn:Hidx; [done |].
  intros i. unfold isFree. simpl. rewrite !JsArrayFacts.get_set.
  case_decide; [done | apply Hinv].
Qed.

Lemma storeInv_afterTurn fs idx chunk :
  storeInv fs → idx < length (freeBlockMap fs) → storeInv (afterTurn fs idx chunk).
Proof.
  intros [Hwf Hinv] Hlen. split; [by apply afterTurn_wf |].
  intros i. unfold isFree. rewrite afterTurn_freeBlockMap, afterTurn_blocks.
  case_decide; [done | apply Hinv].
Qed.

Lemma storeInv_new now nm total bs : storeInv (newFileSystem now nm total bs).
Proof.
  split; [apply wfStore_new |].
  intros i. unfold isFree. simpl. rewrite !JsArrayFacts.get_fill. by case_decide.
Qed.

Lemma storeInv_format_zero now : keeps storeInv (format now true).
Proof.
  intros fs [Hwf _]. split; [by apply wfStore_format |].
  intros i. unfold isFree. simpl. rewrite !JsArrayFacts.get_fill. by case_decide.
Qed.

Lemma exec_storeInv now op fs : clearing op → storeInv fs → storeInv (exec now op fs).
Proof.
  intros Hop Hinv. apply (exec_keeps storeInv); try done.
  - apply storeInv_allocateBlock.
  - apply storeInv_freeBlock.
  - apply storeInv_afterTurn.
  - intros [|] ->; [by apply storeInv_format_zero | done].
Qed.

(** C8, as the code has it: in every volume reached from a new one by calls
    other than [format] without [zeroBlocks], every block marked free holds
    the empty chunk (and both arrays of the store have [totalBlocks] cells);
    [freeBlock], the rollbacks of the allocation loop, [deleteNode] and
    [format] with [zeroBlocks] keep it so.  [format] without [zeroBlocks]
    marks every block free and leaves the chunks as they are. *)
Theorem free_blocks_are_empty fs :
  reachable clearing fs →
  (wfStore fs ∧ freeBlocksEmpty fs) ∧
  (∀ now idx p err content,
     freeBlocksEmpty (snd (freeBlock idx fs)) ∧
     freeBlocksEmpty (snd (allocateChunks err content fs)) ∧
     freeBlocksEmpty (snd (deleteNode now p fs)) ∧
     freeBlocksEmpty (snd (format now true fs))) ∧
  (∀ now,
     freeBlockMap (snd (format now false fs)) = JsArray.fill (totalBlocks fs) 0 ∧
     blocks (snd (format now false fs)) = blocks fs).
Proof.
  intros Hreach.
  assert (Hinv : storeInv fs).
  { induction Hreach as [now nm total bs | fs now op _ IH Hop];
      [apply storeInv_new | by apply exec_storeInv]. }
  split_and!; [apply Hinv | apply Hinv | | done].
  intros now idx p err content. split_and!.
  - by apply storeInv_freeBlock.
  - apply (keeps_allocateChunks storeInv); auto using storeInv_freeBlock, storeInv_afterTurn.
  - apply (keeps_deleteNode storeInv);
      auto using storeInv_freeBlock, storeInv_afterTurn, storeInv_allocateBlock.
  - by apply storeInv_format_zero.
Qed.

Lemma free_blocks_are_empty_witness :
  freeBlocksEmpty (exec 9 (OpDeleteNode "/x") oneBlockVolume).
Proof.
  apply (free_blocks_are_empty (exec 9 (OpDeleteNode "/x") oneBlockVolume)).
  apply reachable_step; [| discriminate].
  apply (reachable_step clearing _ 1 (OpCreateFile "/x" "abcd" None None)); [| discriminate].
  apply reachable_new.
Defined.

(** C8 as it is stated fails: after [format] without [zeroBlocks], block 0
    of a reached volume is marked free and still holds ["abcd"]. *)
Lemma format_keeps_chunks_of_free_blocks :
  let fs := exec 9 (OpFormat false) oneBlockVolume in
  reachable (fun _ => True) fs ∧
  isFree fs 0 ∧ JsArray.get (blocks fs) 0 = Some "abcd" ∧ ¬ freeBlocksEmpty fs.
Proof.
  intros fs. split_and!.
  - apply reachable_step; [| done].
    apply (reachable_step _ _ 1 (OpCreateFile "/x" "abcd" None None)); [| done].
    apply reachable_new.
  - reflexivity.
  - reflexivity.
  - intros Hinv. specialize (Hinv 0 eq_refl). discriminate Hinv.
Qed.

(** ** Mount resolution *)

Module VFSFacts.
Import VFS VFSSpec.

Lemma In_insertByLength x m l : In x (insertByLength m l) ↔ x = m ∨ In x l.
Proof.
  induction l as [| y l IH]; simpl; [naive_solver |].
  destruct (String.length (mountPoint m) <? String.length (mountPoint y)); simpl;
    [rewrite IH |]; naive_solver.
Qed.

Lemma In_sortMounts x l : In x (sortMounts l) ↔ In x l.
Proof.
  induction l as [| y l IH]; simpl; [done |].
  rewrite In_insertByLength, IH. naive_solver.
Qed.

Lemma longestFirst_insert m l : longestFirst l → longestFirst (insertByLength m l).
Proof.
  unfold longestFirst. induction 1 as [| y l Hl IH Hy]; simpl.
  - repeat constructor.
  - destruct (String.length (mountPoint m) <? String.length (mountPoint y)) eqn:Hlt.
    + apply Nat.ltb_lt in Hlt. constructor; [done |].
      rewrite Forall_forall. intros x Hx.
      apply list_elem_of_In, In_insertByLength in Hx as [-> | Hx]; [lia |].
      rewrite Forall_forall in Hy. by apply Hy, list_elem_of_In.
    + apply Nat.ltb_ge in Hlt. constructor; [by constructor |].
      constructor; [done |]. eapply Forall_impl; [exact Hy |]. simpl. intros; lia.
Qed.

Lemma longestFirst_sortMounts l : longestFirst (sortMounts l).
Proof.
  induction l as [| y l IH]; simpl; [constructor | by apply longestFirst_insert].
Qed.

Lemma In_removeFirst x mp l : In x (removeFirst mp l) → In x l.
Proof.
  induction l as [| y l IH]; simpl; [done |].
  destruct (String.eqb (mountPoint y) mp); simpl; naive_solver.
Qed.

Lemma longestFirst_removeFirst mp l : longestFirst l → longestFirst (removeFirst mp l).
Proof.
  unfold longestFirst. induction 1 as [| y l Hl IH Hy]; simpl; [constructor |].
  destruct (String.eqb (mountPoint y) mp); [done |].
  constructor; [done |]. rewrite Forall_forall in *. intros x Hx.
  apply Hy. apply list_elem_of_In, In_removeFirst, list_elem_of_In in Hx. done.
Qed.

Lemma removeFirst_keeps x mp l :
  In x l → mountPoint x ≠ mp → In x (removeFirst mp l).
Proof.
  induction l as [| y l IH]; simpl; [done |].
  destruct (String.eqb_spec (mountPoint y) mp); simpl; naive_solver.
Qed.

Lemma longestFirst_map l l' :
  map mountPoint l' = map mountPoint l → longestFirst l → longestFirst l'.
Proof.
  unfold longestFirst. intros Hmap Hl. revert l' Hmap.
  induction Hl as [| y l Hl IH Hy]; intros [| y' l'] Hmap; try done; [constructor |].
  injection Hmap as Hy' Hmap. constructor; [by apply IH |].
  rewrite Forall_forall in *. intros x Hx. rewrite Hy'.
  apply list_elem_of_In in Hx.
  apply (in_map mountPoint) in Hx. rewrite Hmap in Hx.
  apply in_map_iff in Hx as (x0 & <- & Hx0). by apply Hy, list_elem_of_In.
Qed.

(** The tables a manager holds are sorted and have a mount at ["/"]. *)
Lemma reachableMounts_inv mounts :
  reachableMounts mounts →
  longestFirst mounts ∧ ∃ rootMount, In rootMount mounts ∧ mountPoint rootMount = "/".
Proof.
  induction 1 as [now | mounts fsys mp mounts' _ [IHs (rm & Hrm & Hmp)] Hmount
                  | mounts mp mounts' _ [IHs (rm & Hrm & Hmp)] Hunmount
                  | mounts mounts' _ [IHs (rm & Hrm & Hmp)] Hmap].
  - split; [apply longestFirst_sortMounts |]. eexists. split; [by left | done].
  - unfold mount in Hmount. destruct (normalizePath mp) as [mp' |]; [| done].
    destruct (someAt mp' mounts); [done |]. injection Hmount as <-.
    split; [apply longestFirst_sortMounts |].
    exists rm. split; [| done]. apply In_sortMounts, in_or_app. by left.
  - unfold unmount in Hunmount. destruct (normalizePath mp) as [mp' |]; [| done].
    destruct (negb (someAt mp' mounts)); [done |].
    destruct (String.eqb_spec mp' "/") as [Heq | Hne]; [done |]. injection Hunmount as <-.
    split; [by apply longestFirst_removeFirst |].
    exists rm. split; [| done]. apply removeFirst_keeps; [done | congruence].
  - split; [by eapply longestFirst_map |].
    apply (in_map mountPoint) in Hrm. rewrite <- Hmap in Hrm.
    apply in_map_iff in Hrm as (rm' & Heq & Hrm'). exists rm'. split; [done | congruence].
Qed.

Lemma scan_step p m rest :
  scan p (m :: rest) = if isMatch p (mountPoint m) then Some m else scan p rest.
Proof.
  simpl. unfold isMatch. by destruct (String.eqb (mountPoint m) "/").
Qed.

(** The scan of a sorted table finds a longest match. *)
Lemma scan_Some p mounts m :
  longestFirst mounts → scan p mounts = Some m →
  In m mounts ∧ isMatch p (mountPoint m) = true ∧
  ∀ m', In m' mounts → isMatch p (mountPoint m') = true →
        String.length (mountPoint m') ≤ String.length (mountPoint m).
Proof.
  unfold longestFirst. induction 1 as [| y l Hl IH Hy]; [done |].
  rewrite scan_step. destruct (isMatch p (mountPoint y)) eqn:Hmatch.
  - intros [= <-]. split_and!; [by left | done |].
    intros m' [<- | Hm'] _; [done |].
    rewrite Forall_forall in Hy. by apply Hy, list_elem_of_In.
  - intros Hscan. destruct (IH Hscan) as (Hin & Hm & Hmax).
    split_and!; [by right | done |].
    intros m' [<- | Hm'] Hmatch'; [congruence | by apply Hmax].
Qed.

Lemma scan_None p mounts m :
  scan p mounts = None → In m mounts → isMatch p (mountPoint m) = false.
Proof.
  induction mounts as [| y l IH]; [done |].
  rewrite scan_step. destruct (isMatch p (mountPoint y)) eqn:Hmatch; [done |].
  intros Hscan [<- | Hin]; [done | by apply IH].
Qed.

Lemma normalizePath_remainder p mp : ∃ inner, normalizePath (remainder p mp) = Ok inner.
Proof.
  unfold remainder.
  destruct (String.eqb (Str.sliceFrom (String.length mp) p) EmptyString) eqn:Hr;
    [by eexists |].
  unfold normalizePath. rewrite Hr. by eexists.
Qed.

End VFSFacts.

(** C6, as the code has it: for a table a manager holds and a path that
    normalizes to [p], [resolve] selects a longest mount point other than
    ["/"] that is [p] or a prefix of [p] followed by ["/"], strips it from
    [p] (an empty remainder becoming ["/"]) and returns the remainder
    normalized again; when no such mount exists it returns the root volume
    with [p].  With mounts at ["/"] and ["/mnt/usb"], ["/mnt/usb/x.txt"]
    resolves to the usb volume and ["/x.txt"], and ["/mnt/other"] to the root
    volume and ["/mnt/other"]. *)
Theorem resolve_longest_prefix mounts vfsPath p :
  VFSSpec.reachableMounts mounts →
  normalizePath vfsPath = Ok p →
  ((∃ m inner,
      In m mounts ∧ VFSSpec.isMatch p (VFS.mountPoint m) = true ∧
      (∀ m', In m' mounts → VFSSpec.isMatch p (VFS.mountPoint m') = true →
             String.length (VFS.mountPoint m') ≤ String.length (VFS.mountPoint m)) ∧
      normalizePath (VFS.remainder p (VFS.mountPoint m)) = Ok inner ∧
      VFS.resolve vfsPath mounts = Ok (VFS.fs m, inner, VFS.mountPoint m))
   ∨
   ((∀ m, In m mounts → VFSSpec.isMatch p (VFS.mountPoint m) = false) ∧
    ∃ rootMount,
      In rootMount mounts ∧ VFS.mountPoint rootMount = "/" ∧
      VFS.resolve vfsPath mounts = Ok (VFS.fs rootMount, p, "/"))) ∧
  (∀ rootVolume usb,
     let table := VFS.sortMounts [VFS.mkMount "/" rootVolume; VFS.mkMount "/mnt/usb" usb] in
     VFS.resolve "/mnt/usb/x.txt" table = Ok (usb, "/x.txt", "/mnt/usb") ∧
     VFS.resolve "/mnt/other" table = Ok (rootVolume, "/mnt/other", "/")).
Proof.
  intros Hreach Hn. split; [| by intros rootVolume usb].
  apply VFSFacts.reachableMounts_inv in Hreach as [Hsorted (rm & Hrm & Hmp)].
  unfold VFS.resolve. rewrite Hn.
  destruct (VFS.scan p mounts) as [m |] eqn:Hscan.
  - left. destruct (VFSFacts.scan_Some p mounts m Hsorted Hscan) as (Hin & Hmatch & Hmax).
    destruct (VFSFacts.normalizePath_remainder p (VFS.mountPoint m)) as [inner Hinner].
    exists m, inner. by rewrite Hinner.
  - right. split; [intros m; by apply VFSFacts.scan_None |].
    destruct (find (fun m => String.eqb (VFS.mountPoint m) "/") mounts) as [rootMount |] eqn:Hfind.
    + apply find_some in Hfind as [Hin Heq]. apply String.eqb_eq in Heq.
      exists rootMount. done.
    + exfalso. eapply find_none in Hfind; [| exact Hrm]. simpl in Hfind.
      rewrite Hmp in Hfind. done.
Qed.

Lemma resolve_longest_prefix_witness :
  ∃ volume inner mp,
    VFS.resolve "../../a" VFSSpec.dotDotMounts = Ok (volume, inner, mp) ∧
    normalizePath (VFS.remainder "/../../a" mp) = Ok inner.
Proof.
  destruct (resolve_longest_prefix VFSSpec.dotDotMounts "../../a" "/../../a")
    as [[(m & inner & _ & _ & _ & Hinner & Hres) | (Hnone & _)] _].
  - apply (VFSSpec.reachable_mount (VFS.newVFSManager 0) (newFileSystem 1 "usb" 2 4) "..");
      [apply VFSSpec.reachable_manager | vm_compute; reflexivity].
  - reflexivity.
  - exists (VFS.fs m), inner, (VFS.mountPoint m). split; [exact Hres | exact Hinner].
  - specialize (Hnone (VFS.mkMount "/.." (newFileSystem 1 "usb" 2 4)) (or_introl eq_refl)).
    discriminate Hnone.
Defined.

(** C6 as it is stated fails: with a volume mounted at ["/.."], the path
    ["../../a"] normalizes to ["/../../a"]; the documented resolution strips
    the mount point and yields the inner path ["/../a"], the code normalizes
    the remainder again and yields ["/a"]. *)
Lemma resolve_normalizes_the_remainder :
  VFSSpec.reachableMounts VFSSpec.dotDotMounts ∧
  VFSSpec.resolveAsDocumented "../../a" VFSSpec.dotDotMounts
  = Ok (newFileSystem 1 "usb" 2 4, "/../a", "/..") ∧
  VFS.resolve "../../a" VFSSpec.dotDotMounts
  = Ok (newFileSystem 1 "usb" 2 4, "/a", "/..") ∧
  VFS.resolve "../../a" VFSSpec.dotDotMounts
  ≠ VFSSpec.resolveAsDocumented "../../a" VFSSpec.dotDotMounts.
Proof.
  split_and!.
  - apply (VFSSpec.reachable_mount (VFS.newVFSManager 0) (newFileSystem 1 "usb" 2 4) "..");
      [apply VFSSpec.reachable_manager | vm_compute; reflexivity].
  - reflexivity.
  - reflexivity.
  - discriminate.
Qed.

(** * Further properties of the code *)

(** ** normalizePath (source lines 69-73) *)

Lemma normalizePath_Ok_absolute p n :
  normalizePath p = Ok n → Str.startsWith n "/" = true.
Proof.
  unfold normalizePath. destruct (String.eqb p EmptyString); [done |].
  intros [= <-]. destruct (Str.startsWith (Path.posixNormalize p) "/") eqn:Habs; [done |].
  rewrite append_String. apply PathFacts.startsWith_slash.
Qed.

(** X1.  On every path but the empty one [normalizePath] returns, and what it
    returns starts with ["/"]; normalizing that result once more gives a
    path that further normalization leaves alone.  So the paths of the
    methods that normalize twice ([createFile], [writeFile], [deleteNode],
    ...) are fixed points. *)
Theorem normalizePath_twice_is_stable p :
  p ≠ EmptyString →
  ∃ n n2,
    normalizePath p = Ok n ∧ Str.startsWith n "/" = true ∧
    normalizePath n = Ok n2 ∧ normalizePath n2 = Ok n2.
Proof.
  intros Hp.
  assert (Hrun : ∀ q, q ≠ EmptyString → ∃ n, normalizePath q = Ok n).
  { intros q Hq. unfold normalizePath.
    destruct (String.eqb_spec q EmptyString); [done | by eexists]. }
  destruct (Hrun p Hp) as [n Hn].
  pose proof (normalizePath_Ok_absolute p n Hn) as Habs.
  destruct (Hrun n) as [n2 Hn2]; [by destruct n |].
  exists n, n2. split_and!; try done.
  by apply (normalizePath_absolute_stable n).
Qed.

Lemma normalizePath_twice_is_stable_witness :
  ∃ n n2,
    normalizePath "../a" = Ok n ∧ Str.startsWith n "/" = true ∧
    normalizePath n = Ok n2 ∧ normalizePath n2 = Ok n2.
Proof. apply normalizePath_twice_is_stable. discriminate. Defined.

Lemma filterNonEmpty_plain segs :
  Forall plainSegment segs → Str.filterNonEmpty segs = segs.
Proof.
  induction 1 as [| s segs Hs _ IH]; [done |].
  unfold Str.filterNonEmpty in *. rewrite filter_cons, IH.
  destruct Hs as (Hne & _). by case_decide.
Qed.

Lemma partsOf_normal segs (trailing : bool) :
  segs ≠ [] → Forall plainSegment segs →
  partsOf ("/" +:+ (if trailing then Str.join "/" segs +:+ "/" else Str.join "/" segs))
  = segs.
Proof.
  intros Hne Hplain.
  assert (Hfree : Forall (fun s => hasSlash s = false) segs).
  { eapply Forall_impl; [exact Hplain |]. by intros s (_ & _ & _ & H). }
  unfold partsOf. rewrite append_String, append_empty_l, PathFacts.split_String.
  simpl Ascii.eqb. cbv iota. unfold Str.filterNonEmpty. rewrite filter_cons.
  case_decide; [done |]. fold (Str.filterNonEmpty).
  destruct trailing.
  - rewrite PathFacts.split_trailing, PathFacts.split_join by done.
    rewrite filter_app. fold Str.filterNonEmpty.
    rewrite filterNonEmpty_plain by done. simpl.
    rewrite filter_cons. case_decide; [done |]. by rewrite filter_nil, app_nil_r.
  - rewrite PathFacts.split_join by done. by apply filterNonEmpty_plain.
Qed.

(** The segments of the normal form of an absolute path are plain: none is
    empty, ["."] or [".."], none has a ["/"] in it. *)
Lemma partsOf_absolute_plain p n :
  Str.startsWith p "/" = true → normalizePath p = Ok n → Forall plainSegment (partsOf n).
Proof.
  intros Habs Hn. unfold normalizePath in Hn.
  destruct (String.eqb p EmptyString); [done |].
  destruct (PathFacts.posixNormalize_absolute p Habs)
    as [Hroot | (segs & trailing & Hne & Hplain & Hnorm)].
  - rewrite Hroot in Hn. injection Hn as <-. by vm_compute.
  - rewrite Hnorm in Hn. rewrite append_String, PathFacts.startsWith_slash in Hn.
    injection Hn as <-. pose proof (partsOf_normal segs trailing Hne Hplain) as Hparts.
    rewrite append_String, append_empty_l in Hparts.
    by rewrite append_empty_l, Hparts.
Qed.

(** X2.  The names under which [createFile], [createDirectory], [deleteNode],
    [move] and [copy] look up and store entries come from a path normalized
    twice: every key on the way to the parent and the final name are plain
    segments, so none of these methods makes an entry named ["."], [".."] or
    the empty string, or one with a ["/"] in its name. *)
Theorem resolved_names_are_plain p normalized fs pref parent nm :
  normalizePath p = Ok normalized →
  fst (resolveParent normalized fs) = Ok (pref, parent, nm) →
  plainSegment nm ∧ Forall plainSegment pref.
Proof.
  intros Hn Hres.
  destruct (resolveParent normalized fs) as [o fs1] eqn:Hrp. simpl in Hres. subst o.
  apply resolveParent_run in Hrp as (_ & n2 & Hn2 & Hloop).
  pose proof (partsOf_absolute_plain normalized n2
                (normalizePath_Ok_absolute p normalized Hn) Hn2) as Hplain.
  apply resolveParentLoop_Ok in Hloop as (pre & -> & Hparts & _).
  rewrite Hparts in Hplain. apply Forall_app in Hplain as [Hpre Hnm].
  split; [by apply Forall_cons in Hnm as [? _] | done].
Qed.

Lemma resolved_names_are_plain_witness :
  plainSegment "a.txt" ∧ Forall plainSegment ["docs"].
Proof.
  apply (resolved_names_are_plain "docs/./x/../a.txt" "/docs/a.txt" fullVolume
           ["docs"] (Dir.mk "docs" [] (mkMeta 1 1 "root" "rwxr-xr-x")) "a.txt");
    reflexivity.
Defined.

(** ** The block allocator (source lines 110-126) *)

Lemma countFree_zero a : indexOf0 a = None → countFree a = 0.
Proof.
  intros Hnone. destruct (countFree a) as [| n] eqn:Hc; [done |].
  destruct (countFree_pos a) as [idx Hidx]; [lia | congruence].
Qed.

Lemma countFree_fill n : countFree (JsArray.fill n 0) = n.
Proof.
  unfold JsArray.fill. induction n as [| n IH]; [done |].
  simpl. rewrite countFree_cons, IH. by case_decide.
Qed.

Lemma set_set {A} i (v w : A) (a : list (option A)) :
  JsArray.set i v (JsArray.set i w a) = JsArray.set i v a.
Proof.
  apply JsArrayFacts.ext.
  - rewrite !JsArrayFacts.length_set. lia.
  - intros j. rewrite !JsArrayFacts.get_set. by case_decide.
Qed.

Lemma set_same {A} i (v : A) (a : list (option A)) :
  JsArray.get a i = Some v → i < length a → JsArray.set i v a = a.
Proof.
  intros Hget Hlt. apply JsArrayFacts.ext.
  - by apply JsArrayFacts.set_in_range.
  - intros j. rewrite JsArrayFacts.get_set. case_decide; by subst.
Qed.

(** X3.  [allocateBlock] is first fit: it returns the smallest index marked free,
    marks it used and empties its chunk, changes no other cell and lowers the
    free-block count by one; it returns [null] only when no block is free,
    and then changes nothing.  It never throws. *)
Theorem allocateBlock_first_fit fs :
  match allocateBlock fs with
  | (Ok (Some idx), fs') =>
      isFree fs idx ∧ (∀ j, j < idx → ¬ isFree fs j) ∧
      JsArray.get (freeBlockMap fs') idx = Some 1 ∧
      JsArray.get (blocks fs') idx = Some EmptyString ∧
      (∀ j, j ≠ idx →
            JsArray.get (freeBlockMap fs') j = JsArray.get (freeBlockMap fs) j ∧
            JsArray.get (blocks fs') j = JsArray.get (blocks fs) j) ∧
      S (getFreeBlockCount fs') = getFreeBlockCount fs ∧
      root fs' = root fs
  | (Ok None, fs') => getFreeBlockCount fs = 0 ∧ fs' = fs
  | (Throw _, _) => False
  end.
Proof.
  unfold allocateBlock. destruct (indexOf0 (freeBlockMap fs)) as [idx |] eqn:Hidx.
  - pose proof (indexOf0_Some _ _ Hidx) as (Hfree & Hlen & Hmin).
    split_and!; try done.
    + simpl. apply JsArrayFacts.get_set_eq.
    + simpl. apply JsArrayFacts.get_set_eq.
    + intros j Hj. simpl. by rewrite !JsArrayFacts.get_set_ne.
    + rewrite !getFreeBlockCount_countFree. simpl. by apply countFree_take.
  - split; [| done]. rewrite getFreeBlockCount_countFree. by apply countFree_zero.
Qed.

(** X4.  [freeBlock] of an index that is not below [totalBlocks] changes nothing;
    of one below it, it leaves the block free with the empty chunk.  Freeing
    a block twice is freeing it once, and freeing never lowers the free-block
    count. *)
Theorem freeBlock_behaviour idx fs :
  let fs' := snd (freeBlock idx fs) in
  (if decide (idx < totalBlocks fs)
   then isFree fs' idx ∧ JsArray.get (blocks fs') idx = Some EmptyString
   else fs' = fs) ∧
  snd (freeBlock idx fs') = fs' ∧
  getFreeBlockCount fs ≤ getFreeBlockCount fs' ∧
  root fs' = root fs.
Proof.
  assert (Heq : ∀ fs0, snd (freeBlock idx fs0) =
            if decide (idx < totalBlocks fs0)
            then withStore (JsArray.set idx 0 (freeBlockMap fs0))
                           (JsArray.set idx EmptyString (blocks fs0)) fs0
            else fs0).
  { intros fs0. unfold freeBlock. destruct (totalBlocks fs0 <=? idx) eqn:Hidx.
    - apply Nat.leb_le in Hidx. case_decide; [lia | done].
    - apply Nat.leb_gt in Hidx. by case_decide. }
  cbv zeta. rewrite (Heq fs). case_decide as Hidx.
  - rewrite Heq. simpl. case_decide; [| done]. split_and!; try done.
    + unfold isFree. simpl. apply JsArrayFacts.get_set_eq.
    + simpl. apply JsArrayFacts.get_set_eq.
    + unfold withStore. simpl. by rewrite !set_set.
    + rewrite !getFreeBlockCount_countFree. simpl. apply countFree_free.
  - rewrite Heq. by case_decide.
Qed.

(** The volumes reached without [format] lacking [zeroBlocks] have a well
    formed store with empty free blocks. *)
Lemma reachable_storeInv fs : reachable clearing fs → storeInv fs.
Proof.
  induction 1 as [now nm total bs | fs now op _ IH Hop];
    [apply storeInv_new | by apply exec_storeInv].
Qed.

(** X5.  Allocating a block and freeing it again gives the volume back as it
    was, when the store is well formed and its free blocks are empty. *)
Theorem allocate_then_free fs idx fs1 :
  storeInv fs →
  allocateBlock fs = (Ok (Some idx), fs1) →
  freeBlock idx fs1 = (Ok tt, fs).
Proof.
  intros [[Hlen1 Hlen2] Hempty] Halloc.
  apply allocateBlock_Some in Halloc as (Hfree & Hlt & ->).
  unfold freeBlock. simpl.
  replace (totalBlocks fs <=? idx) with false by (symmetry; apply Nat.leb_gt; lia).
  f_equal. unfold withStore. simpl. rewrite !set_set.
  rewrite (set_same idx 0) by done.
  rewrite (set_same idx EmptyString); [by destruct fs | by apply Hempty | lia].
Qed.

Lemma allocate_then_free_witness :
  freeBlock 1 (snd (allocateBlock oneBlockVolumeOfTwo)) = (Ok tt, oneBlockVolumeOfTwo).
Proof.
  apply (allocate_then_free oneBlockVolumeOfTwo 1).
  - apply reachable_storeInv.
    apply (reachable_step clearing _ 1 (OpCreateFile "/x" "abcd" None None));
      [apply reachable_new | discriminate].
  - reflexivity.
Defined.

(** X6.  A new volume has all its blocks free, and so has a volume after
    [format], with or without [zeroBlocks]; [format] with [zeroBlocks] gives
    the volume a new one would be. *)
Theorem format_frees_every_block now zeroBlocks fs :
  getFreeBlockCount (snd (format now zeroBlocks fs)) = totalBlocks fs ∧
  root (snd (format now zeroBlocks fs)) = createEmptyDir now "/" ∧
  snd (format now true fs) = newFileSystem now (name fs) (totalBlocks fs) (blockSize fs) ∧
  (∀ nm total bs, getFreeBlockCount (newFileSystem now nm total bs) = total).
Proof.
  split_and!; try done.
  - rewrite getFreeBlockCount_countFree. simpl. apply countFree_fill.
  - intros nm total bs. rewrite getFreeBlockCount_countFree. simpl. apply countFree_fill.
Qed.

(** ** Path resolution (source lines 131-169) *)

Lemma nodeAt_snoc pre nm d :
  nodeAt (pre ++ [nm]) (Directory d) =
  match dirAt pre d with
  | Some parent => Children.get nm (Dir.children parent)
  | None => None
  end.
Proof.
  revert d. induction pre as [| part pre IH]; intros d; simpl.
  - by destruct (Children.get nm (Dir.children d)).
  - destruct (Children.get part (Dir.children d)) as [[f | d'] |];
      first [apply IH | by destruct pre | done].
Qed.

Lemma resolveParentLoop_snoc pre nm : ∀ seen d parent,
  dirAt pre d = Some parent →
  resolveParentLoop seen (pre ++ [nm]) d = Ok (seen ++ pre, parent, nm).
Proof.
  induction pre as [| part pre IH]; intros seen d parent Hdir.
  - simpl in *. injection Hdir as ->. by rewrite app_nil_r.
  - simpl in Hdir.
    destruct (Children.get part (Dir.children d)) as [[f | d'] |] eqn:Hget; try done.
    change (resolveParentLoop seen ((part :: pre) ++ [nm]) d)
      with (match pre ++ [nm] with
            | [] => Ok (seen, d, part)
            | _ :: _ =>
                match Children.get part (Dir.children d) with
                | Some (Directory child) =>
                    resolveParentLoop (seen ++ [part]) (pre ++ [nm]) child
                | _ => Throw (DirectoryNotFound (Str.join "/" (seen ++ [part])))
                end
            end).
    destruct (pre ++ [nm]) as [| x l] eqn:Hl; [by destruct pre |].
    rewrite Hget, (IH _ _ _ Hdir). by rewrite <- app_assoc.
Qed.

(** X7.  [getNode] and [resolveParent] agree: for a path with a segment,
    [getNode] returns a node exactly when [resolveParent] returns a parent
    that has the node under the final name. *)
Theorem getNode_iff_entry_of_parent p n fs node :
  normalizePath p = Ok n →
  partsOf n ≠ [] →
  fst (getNode p fs) = Ok node ↔
  ∃ pref parent nm,
    fst (resolveParent p fs) = Ok (pref, parent, nm) ∧
    Children.get nm (Dir.children parent) = Some node.
Proof.
  intros Hn Hparts.
  assert (Hroot : String.eqb n "/" = false).
  { destruct (String.eqb_spec n "/") as [-> | _]; [done | done]. }
  assert (Hget : fst (getNode p fs) = Ok node ↔
                 nodeAt (partsOf n) (Directory (root fs)) = Some node).
  { rewrite getNode_eq. unfold getNodeRef, bind, liftOutcome, reading.
    rewrite Hn, Hroot. rewrite <- (walk_nodeAt p).
    destruct (walk p (partsOf n) (Directory (root fs))); simpl; split; congruence. }
  assert (Hres : fst (resolveParent p fs) = resolveParentLoop [] (partsOf n) (root fs)).
  { unfold resolveParent, bind, liftOutcome, reading. by rewrite Hn. }
  rewrite Hget, Hres. split.
  - intros Hnode.
    destruct (nodeAt_resolveParentLoop (partsOf n) [] (root fs) node Hparts Hnode)
      as (pre & nm & parent & _ & Hloop & Hentry). eauto.
  - intros (pref & parent & nm & Hloop & Hentry).
    apply resolveParentLoop_Ok in Hloop as (pre & -> & -> & Hdir).
    by rewrite nodeAt_snoc, Hdir.
Qed.

Lemma getNode_iff_entry_of_parent_witness :
  ∃ pref parent nm,
    fst (resolveParent "/x" oneBlockVolume) = Ok (pref, parent, nm) ∧
    Children.get nm (Dir.children parent)
    = Some (File (FileNode.mk "x" [0] 4 (mkMeta 1 1 "root" "rw-r--r--"))).
Proof.
  apply (getNode_iff_entry_of_parent "/x" "/x" oneBlockVolume); [reflexivity | | reflexivity].
  discriminate.
Defined.

(** ** createDirectory and createFile (source lines 173-247) *)

Lemma nodeAt_attach pre nm now node d parent :
  dirAt pre d = Some parent →
  nodeAt (pre ++ [nm]) (Directory (updateDir pre (attachChild now nm node) d)) = Some node.
Proof.
  intros Hdir. rewrite nodeAt_snoc, (dirAt_updateDir _ _ _ _ Hdir). simpl.
  apply children_get_set_eq.
Qed.

Lemma resolveParentLoop_updateDir pre nm f : ∀ seen d parent,
  dirAt pre d = Some parent →
  resolveParentLoop seen (pre ++ [nm]) (updateDir pre f d) = Ok (seen ++ pre, f parent, nm).
Proof.
  intros seen d parent Hdir. apply resolveParentLoop_snoc. by apply dirAt_updateDir.
Qed.

(** What [resolveParent] of a normalized path finds, in terms of the tree. *)
Lemma resolveParent_normalized p normalized fs pref parent nm :
  normalizePath p = Ok normalized →
  fst (resolveParent normalized fs) = Ok (pref, parent, nm) →
  ∃ n2, normalizePath normalized = Ok n2 ∧ partsOf n2 = pref ++ [nm] ∧
        dirAt pref (root fs) = Some parent ∧ String.eqb n2 "/" = false.
Proof.
  intros Hn Hres. destruct (resolveParent normalized fs) as [o fs1] eqn:Hrp.
  simpl in Hres. subst o. apply resolveParent_run in Hrp as (_ & n2 & Hn2 & Hloop).
  apply resolveParentLoop_Ok in Hloop as (pre & -> & Hparts & Hdir). simpl in *.
  exists n2. split_and!; try done.
  destruct (String.eqb_spec n2 "/") as [-> | _]; [| done].
  by destruct pre.
Qed.

Lemma createDirectory_run now p o m fs :
  createDirectory now p o m fs =
  match normalizePath p with
  | Throw e => (Throw e, fs)
  | Ok normalized =>
      if String.eqb normalized "/" then (Throw RootAlreadyExists, fs)
      else
        match resolveParent normalized fs with
        | (Throw e, _) => (Throw e, fs)
        | (Ok (pref, parent, nm), _) =>
            if Children.truthy nm (Dir.children parent)
            then (Throw EntryAlreadyExists, fs)
            else
              let dir := Dir.mk nm []
                           (mkMeta now now (default "root" o)
                              (default (defaultMode true) m)) in
              (Ok dir,
               withRoot (updateDir pref (attachChild now nm (Directory dir)) (root fs)) fs)
        end
  end.
Proof.
  unfold createDirectory, bind at 1, liftOutcome.
  destruct (normalizePath p) as [normalized | e]; [| done].
  destruct (String.eqb normalized "/"); [done |].
  unfold bind at 1.
  destruct (resolveParent normalized fs) as [[[[pref parent] nm] | e] fs1] eqn:Hrp;
    apply resolveParent_run in Hrp as (-> & _); [| done].
  by destruct (Children.truthy nm (Dir.children parent)).
Qed.

(** X8.  When [createDirectory] returns, the directory it returns is empty, it is
    the entry of its parent under the final name and is what [getNode] finds
    at the normalized path; the block store is untouched; and creating the
    same path again throws "Entry already exists" and changes nothing. *)
Theorem createDirectory_then_lookup now p o m fs dir fs' :
  createDirectory now p o m fs = (Ok dir, fs') →
  ∃ normalized pref parent nm,
    normalizePath p = Ok normalized ∧
    fst (resolveParent normalized fs) = Ok (pref, parent, nm) ∧
    Children.get nm (Dir.children parent) = None ∧
    dir = Dir.mk nm [] (mkMeta now now (default "root" o) (default (defaultMode true) m)) ∧
    freeBlockMap fs' = freeBlockMap fs ∧ blocks fs' = blocks fs ∧
    fst (getNode normalized fs') = Ok (Directory dir) ∧
    fst (listDirectory normalized fs') = Ok [] ∧
    ∀ now2 o2 m2,
      createDirectory now2 p o2 m2 fs' = (Throw EntryAlreadyExists, fs').
Proof.
  rewrite createDirectory_run.
  destruct (normalizePath p) as [normalized | e] eqn:Hn; [| done].
  destruct (String.eqb normalized "/") eqn:Hroot; [done |].
  destruct (resolveParent normalized fs) as [[[[pref parent] nm] | e] fs1] eqn:Hrp; [| done].
  destruct (Children.truthy nm (Dir.children parent)) eqn:Htruthy; [done |].
  apply children_truthy_false in Htruthy as [Hfree Hown].
  intros [= <- <-].
  destruct (resolveParent_normalized p normalized fs pref parent nm Hn)
    as (n2 & Hn2 & Hparts & Hdir & Hroot2); [by rewrite Hrp |].
  set (dir := Dir.mk nm [] _).
  set (root' := updateDir pref (attachChild now nm (Directory dir)) (root fs)).
  assert (Hnode : fst (getNode normalized (withRoot root' fs)) = Ok (Directory dir)).
  { rewrite getNode_eq.
    rewrite (getNodeRef_intro normalized _ n2 (Directory dir)); [done | done | done |].
    rewrite Hparts. simpl. by apply (nodeAt_attach pref nm now _ _ parent). }
  exists normalized, pref, parent, nm. rewrite Hrp. split_and!; try done.
  - unfold listDirectory, bind. destruct (getNode normalized (withRoot root' fs)) as [res fs2].
    simpl in Hnode. by subst res.
  - intros now2 o2 m2. rewrite createDirectory_run, Hn, Hroot.
    unfold resolveParent, bind, liftOutcome, reading. rewrite Hn2, Hparts. simpl root.
    unfold root'. rewrite (resolveParentLoop_updateDir pref nm _ [] (root fs) parent) by done.
    simpl. by rewrite (children_truthy_Some _ _ _ (children_get_set_eq _ _ _)).
Qed.

Lemma createDirectory_then_lookup_witness :
  createDirectory 2 "/docs" None None fullVolume = (Throw EntryAlreadyExists, fullVolume).
Proof.
  destruct (createDirectory_then_lookup 1 "/docs" None None (newFileSystem 0 "disk" 0 4)
              (Dir.mk "docs" [] (mkMeta 1 1 "root" "rwxr-xr-x")) fullVolume)
    as (normalized & pref & parent & nm & _ & _ & _ & _ & _ & _ & _ & _ & Hagain);
    [reflexivity | exact (Hagain 2%Z None None)].
Defined.

(** How many blocks the loop takes: as many as the free-block count falls
    by, no two the same, just enough to hold the content. *)
Lemma allocLoop_count fuel err bs content :
  ∀ cursor acc fs blks fs',
    allocLoop fuel err bs content cursor acc fs = Some (Ok blks, fs') →
    ∃ new,
      blks = acc ++ new ∧ NoDup new ∧ (∀ i, i ∈ new → isFree fs i) ∧
      length new + countFree (freeBlockMap fs') = countFree (freeBlockMap fs) ∧
      String.length content ≤ cursor + bs * length new ∧
      (new ≠ [] → cursor + bs * (length new - 1) < String.length content).
Proof.
  induction fuel as [| fuel IH]; intros cursor acc fs blks fs' Hrun.
  - simpl in Hrun. destruct (cursor <? String.length content) eqn:Hc; [done |].
    injection Hrun as <- <-. apply Nat.ltb_ge in Hc.
    exists []. rewrite app_nil_r. split_and!; try done; [constructor | set_solver | simpl; lia].
  - destruct (decide (cursor < String.length content)) as [Hlt | Hge].
    2:{ rewrite allocLoop_done in Hrun by lia. injection Hrun as <- <-.
        exists []. rewrite app_nil_r.
        split_and!; try done; [constructor | set_solver | simpl; lia]. }
    rewrite allocLoop_unfold in Hrun by done.
    destruct (indexOf0 (freeBlockMap fs)) as [idx |] eqn:Hidx.
    2:{ injection Hrun as Hrun. unfold bind in Hrun.
        destruct (freeBlocks acc fs) as [[[] | e0] fs1]; done. }
    apply indexOf0_Some in Hidx as (Hfree & Hlen & _).
    set (fs2 := afterTurn fs idx _) in Hrun.
    destruct (IH _ _ _ _ _ Hrun) as (new & -> & Hnodup & Hnew & Hcount & Hle & Hlt').
    assert (Hidx_new : idx ∉ new).
    { intros Hin. specialize (Hnew idx Hin). unfold isFree, fs2 in Hnew.
      rewrite afterTurn_freeBlockMap in Hnew. by case_decide. }
    exists (idx :: new). split_and!.
    + by rewrite <- app_assoc.
    + by constructor.
    + intros i [-> | Hi]%elem_of_cons; [done |].
      specialize (Hnew i Hi). unfold isFree, fs2 in *.
      rewrite afterTurn_freeBlockMap in Hnew. by case_decide.
    + apply countFree_take in Hfree. simpl in *. lia.
    + simpl. lia.
    + intros _. simpl. destruct new as [| b new]; [simpl; lia |].
      specialize (Hlt' ltac:(done)). simpl in *. nia.
Qed.

Lemma nodeAt_getNode normalized n2 fs node :
  normalizePath normalized = Ok n2 → String.eqb n2 "/" = false →
  nodeAt (partsOf n2) (Directory (root fs)) = Some node →
  fst (getNode normalized fs) = Ok node.
Proof.
  intros Hn2 Hroot Hnode. rewrite getNode_eq.
  by rewrite (getNodeRef_intro normalized fs n2 node).
Qed.

(** X9.  When [createFile] returns, the file has the size of the content and
    reads back as the content at the normalized path.  Its blocks were free
    before and are used now, no two are the same, the free-block count fell
    by their number, and there are just enough of them for the content. *)
Theorem createFile_then_read now p content o m fs f fs' :
  createFile now p content o m fs = (Ok f, fs') →
  ∃ normalized,
    normalizePath p = Ok normalized ∧
    FileNode.size f = String.length content ∧
    fst (getNode normalized fs') = Ok (File f) ∧
    fst (readFile normalized fs') = Ok content ∧
    NoDup (FileNode.blocks f) ∧
    (∀ b, b ∈ FileNode.blocks f →
          isFree fs b ∧ JsArray.get (freeBlockMap fs') b = Some 1) ∧
    length (FileNode.blocks f) + getFreeBlockCount fs' = getFreeBlockCount fs ∧
    String.length content ≤ blockSize fs * length (FileNode.blocks f) ∧
    (FileNode.blocks f ≠ [] →
     blockSize fs * (length (FileNode.blocks f) - 1) < String.length content).
Proof.
  rewrite createFile_run.
  destruct (normalizePath p) as [normalized | e] eqn:Hn; [| done].
  destruct (resolveParent normalized fs) as [[[[pref parent] nm] | e] fs1] eqn:Hrp; [| done].
  pose proof Hrp as Hrp'. apply resolveParent_run in Hrp' as (-> & _).
  destruct (Children.truthy nm (Dir.children parent)) eqn:Htruthy; [done |].
  apply children_truthy_false in Htruthy as [Hfree Hown].
  destruct (allocateChunks DiskFullCreating content fs) as [[blks | e] fs2] eqn:Hac; [| done].
  cbv zeta. intros [= <- <-].
  destruct (resolveParent_normalized p normalized fs pref parent nm Hn)
    as (n2 & Hn2 & Hparts & Hdir & Hroot2); [by rewrite Hrp |].
  pose proof (allocateChunks_Ok _ _ _ _ _ Hac) as (Hsame & Hread & Hwasfree & Hfbm & _).
  destruct (allocateChunks_loop DiskFullCreating content fs) as [fuel Hloop].
  rewrite Hac in Hloop.
  apply allocLoop_count in Hloop as (new & Hnew & Hnodup & _ & Hcount & Hle & Hlt).
  simpl in Hnew. subst new.
  set (f := FileNode.mk nm blks _ _).
  assert (Hnode : fst (getNode normalized
                         (withRoot (updateDir pref (attachChild now nm (File f)) (root fs2)) fs2))
                  = Ok (File f)).
  { apply (nodeAt_getNode normalized n2); [done | done |].
    rewrite Hparts. simpl. apply (nodeAt_attach pref nm now _ _ parent).
    by destruct Hsame as (_ & _ & _ & ->). }
  exists normalized. split_and!; try done.
  - unfold readFile, bind.
    destruct (getNode normalized _) as [res fs3] eqn:Hg. simpl in Hnode. subst res.
    apply (readOnly_run _ _ _ _ (readOnly_getNode normalized)) in Hg as ->.
    unfold reading. simpl. by rewrite <- Hread.
  - intros b Hb. split; [by apply Hwasfree |]. simpl. rewrite Hfbm. by case_decide.
  - rewrite !getFreeBlockCount_countFree. simpl. exact Hcount.
Qed.

Lemma createFile_then_read_witness :
  ∃ normalized,
    normalizePath "/x" = Ok normalized ∧
    fst (readFile normalized oneBlockVolume) = Ok "abcd".
Proof.
  destruct (createFile_then_read 1 "/x" "abcd" None None (newFileSystem 0 "disk" 1 4)
              (FileNode.mk "x" [0] 4 (mkMeta 1 1 "root" "rw-r--r--")) oneBlockVolume)
    as (normalized & Hn & _ & _ & Hread & _); [reflexivity |].
  exists normalized. split; [exact Hn | exact Hread].
Defined.

(** X10.  A [createFile] that throws leaves the volume exactly as it was, blocks
    and tree, when the store is well formed and its free blocks are empty:
    the call is all or nothing. *)
Theorem createFile_all_or_nothing now p content o m fs e fs' :
  storeInv fs →
  createFile now p content o m fs = (Throw e, fs') →
  fs' = fs.
Proof.
  intros [Hwf Hempty] Hrun. rewrite createFile_run in Hrun.
  destruct (normalizePath p) as [normalized | e0]; [| by injection Hrun].
  destruct (resolveParent normalized fs) as [[[[pref parent] nm] | e0] fs1] eqn:Hrp;
    apply resolveParent_run in Hrp as (-> & _); [| by injection Hrun].
  destruct (Children.truthy nm (Dir.children parent)); [by injection Hrun |].
  destruct (allocateChunks DiskFullCreating content fs) as [[blks | e0] fs2] eqn:Hac; [done |].
  injection Hrun as <- <-.
  apply allocateChunks_Throw in Hac as (_ & (Hname & Htotal & Hbs & Hroot) & Hwf2 & Hfbm & Hblocks);
    [| done].
  assert (Hbl : blocks fs2 = blocks fs).
  { apply JsArrayFacts.ext.
    - destruct Hwf as [_ ->], Hwf2 as [_ ->]. done.
    - intros i. destruct (Hblocks i) as [Heq | [Hfree Heq]]; [done |].
      rewrite Heq. symmetry. by apply Hempty. }
  destruct fs, fs2. simpl in *. by subst.
Qed.

Lemma createFile_all_or_nothing_witness :
  snd (createFile 2 "/y" "abcdefghi" None None oneBlockVolumeOfTwo) = oneBlockVolumeOfTwo.
Proof.
  apply (createFile_all_or_nothing 2 "/y" "abcdefghi" None None oneBlockVolumeOfTwo
           DiskFullCreating).
  - apply reachable_storeInv.
    apply (reachable_step clearing _ 1 (OpCreateFile "/x" "abcd" None None));
      [apply reachable_new | discriminate].
  - reflexivity.
Defined.

(** ** Deleting and renaming *)

Lemma children_get_delete_ne {N} k k' (cs : list (string * N)) :
  k ≠ k' → Children.get k' (Children.delete k cs) = Children.get k' cs.
Proof.
  intros Hne. induction cs as [| [k0 v0] cs IH]; [done |]. simpl.
  destruct (String.eqb_spec k k0) as [<- | Hk].
  - destruct (String.eqb_spec k' k) as [-> | _]; [done | apply IH].
  - simpl. by rewrite IH.
Qed.

Lemma freeBlocks_app a b fs :
  freeBlocks (a ++ b) fs = freeBlocks b (snd (freeBlocks a fs)).
Proof.
  revert fs. induction a as [| x a IH]; intros fs; [done |].
  rewrite <- app_comm_cons, !freeBlocks_cons. apply IH.
Qed.

(** [deleteRec] frees the blocks of the files below the node, one by one. *)
Lemma deleteRec_freeBlocks n : ∀ fs, deleteRec n fs = freeBlocks (nodeBlocks n) fs.
Proof.
  induction n as [f | d IH] using FSNode_tree_ind; [done |]. simpl.
  revert IH. generalize (Dir.children d). intros cs.
  induction cs as [| [k ch] cs IHcs]; intros IH fs; [done |].
  apply Forall_cons in IH as [Hch Hcs]. simpl in Hch.
  unfold bind. rewrite Hch, freeBlocks_app.
  pose proof (freeBlocks_Ok (nodeBlocks ch) fs) as Hok.
  destruct (freeBlocks (nodeBlocks ch) fs) as [res fs1]. simpl in *. subst res.
  by apply IHcs.
Qed.

Lemma walk_missing p nm pre : ∀ d parent,
  dirAt pre d = Some parent →
  Children.get nm (Dir.children parent) = None →
  walk p (pre ++ [nm]) (Directory d) = Throw (PathDoesNotExist nm p).
Proof.
  induction pre as [| a pre IH]; intros d parent Hdir Hnone; simpl in *.
  - injection Hdir as ->. by rewrite Hnone.
  - destruct (Children.get a (Dir.children d)) as [[f | d'] |]; try done.
    by apply (IH d' parent).
Qed.


Lemma resolveParent_intro normalized n2 fs pre parent nm :
  normalizePath normalized = Ok n2 →
  partsOf n2 = pre ++ [nm] →
  dirAt pre (root fs) = Some parent →
  resolveParent normalized fs = (Ok (pre, parent, nm), fs).
Proof.
  intros Hn2 Hparts Hdir. unfold resolveParent, bind, liftOutcome, reading.
  rewrite Hn2, Hparts. by rewrite (resolveParentLoop_snoc _ _ _ _ parent).
Qed.

Lemma deleteNode_run now p fs :
  deleteNode now p fs =
  match normalizePath p with
  | Throw e => (Throw e, fs)
  | Ok normalized =>
      if String.eqb normalized "/" then (Throw CannotDeleteRoot, fs)
      else
        match resolveParent normalized fs with
        | (Throw e, _) => (Throw e, fs)
        | (Ok (pref, parent, nm), _) =>
            match Children.get nm (Dir.children parent) with
            | None => (Throw PathNotFound, fs)
            | Some node =>
                let fs2 := snd (freeBlocks (nodeBlocks node) fs) in
                (Ok true, withRoot (updateDir pref (detachChild now nm) (root fs)) fs2)
            end
        end
  end.
Proof.
  unfold deleteNode, bind at 1, liftOutcome.
  destruct (normalizePath p) as [normalized | e]; [| done].
  destruct (String.eqb normalized "/"); [done |].
  unfold bind at 1.
  destruct (resolveParent normalized fs) as [[[[pref parent] nm] | e] fs1] eqn:Hrp;
    apply resolveParent_run in Hrp as (-> & _); [| done].
  destruct (Children.get nm (Dir.children parent)) as [node |]; [| done].
  unfold bind, modifyDir, modify, ret. rewrite deleteRec_freeBlocks.
  pose proof (freeBlocks_Ok (nodeBlocks node) fs) as Hok.
  pose proof (freeBlocks_sameTree (nodeBlocks node) fs) as (_ & _ & _ & Hroot).
  destruct (freeBlocks (nodeBlocks node) fs) as [res fs2]. simpl in *. subst res.
  by rewrite Hroot.
Qed.



Lemma rename_run now p newName fs :
  rename now p newName fs =
  match normalizePath p with
  | Throw e => (Throw e, fs)
  | Ok normalized =>
      match resolveParent normalized fs with
      | (Throw e, _) => (Throw e, fs)
      | (Ok (pref, parent, nm), _) =>
          match Children.get nm (Dir.children parent) with
          | None => (Throw PathNotFound, fs)
          | Some node =>
              if Children.truthy newName (Dir.children parent)
              then (Throw DestinationNameExists, fs)
              else
                (Ok (setNodeName newName node),
                 withRoot
                   (updateDir pref
                      (fun par =>
                         attachChild now newName (setNodeName newName node)
                           (Dir.mk (Dir.name par) (Children.delete nm (Dir.children par))
                              (Dir.meta par))) (root fs)) fs)
          end
      end
  end.
Proof.
  unfold rename, bind at 1, liftOutcome.
  destruct (normalizePath p) as [normalized | e]; [| done].
  unfold bind at 1.
  destruct (resolveParent normalized fs) as [[[[pref parent] nm] | e] fs1] eqn:Hrp;
    apply resolveParent_run in Hrp as (-> & _); [| done].
  destruct (Children.get nm (Dir.children parent)) as [node |]; [| done].
  by destruct (Children.truthy newName (Dir.children parent)).
Qed.

(** X12.  [rename] of a path whose final name is not a name every object
    inherits: when it returns, the parent had a node under that name and
    nothing under the new name, which is no inherited name either; the node
    returned is the old entry under the new name, with its blocks; the parent
    has it under the new name and nothing under the old one, its other
    entries stay, and the block store is untouched. *)
Theorem rename_replaces_the_entry now p newName fs normalized pref parent nm node' fs' :
  normalizePath p = Ok normalized →
  fst (resolveParent normalized fs) = Ok (pref, parent, nm) →
  inheritedName nm = false →
  rename now p newName fs = (Ok node', fs') →
  ∃ node parent',
    Children.get nm (Dir.children parent) = Some node ∧
    Children.get newName (Dir.children parent) = None ∧
    inheritedName newName = false ∧
    node' = setNodeName newName node ∧ nodeName node' = newName ∧
    nodeBlocks node' = nodeBlocks node ∧
    freeBlockMap fs' = freeBlockMap fs ∧ blocks fs' = blocks fs ∧
    dirAt pref (root fs') = Some parent' ∧
    Children.get newName (Dir.children parent') = Some node' ∧
    Children.get nm (Dir.children parent') = None ∧
    (∀ k, k ≠ nm → k ≠ newName →
          Children.get k (Dir.children parent') = Children.get k (Dir.children parent)).
Proof.
  intros Hn Hres Hown. rewrite rename_run, Hn.
  destruct (resolveParent normalized fs) as [res fs1] eqn:Hrp. simpl in Hres. subst res.
  destruct (Children.get nm (Dir.children parent)) as [node |] eqn:Hnode; [| done].
  destruct (Children.truthy newName (Dir.children parent)) eqn:Htruthy; [done |].
  apply children_truthy_false in Htruthy as [Hnew Hownnew].
  intros [= <- <-].
  destruct (resolveParent_normalized p normalized fs pref parent nm Hn)
    as (n2 & Hn2 & Hparts & Hdir & Hroot2); [by rewrite Hrp |].
  assert (Hne : newName ≠ nm) by (intros ->; congruence).
  exists node,
    (attachChild now newName (setNodeName newName node)
       (Dir.mk (Dir.name parent) (Children.delete nm (Dir.children parent))
          (Dir.meta parent))).
  split_and!; try done.
  - by destruct node.
  - by destruct node.
  - simpl. by rewrite (dirAt_updateDir _ _ _ _ Hdir).
  - simpl. apply children_get_set_eq.
  - simpl. rewrite children_get_set_ne by done. apply children_get_delete_eq.
  - intros k Hk1 Hk2. simpl. rewrite children_get_set_ne by done.
    by apply children_get_delete_ne.
Qed.

Lemma rename_replaces_the_entry_witness :
  ∃ parent',
    dirAt [] (root dotDotVolume) = Some parent' ∧
    Children.get "d" (Dir.children parent') = None.
Proof.
  destruct (rename_replaces_the_entry 4 "/d" ".."
              (snd (createFile 3 "/a" "zzz" None None
                 (snd (createFile 2 "/d/a" "old" None None
                    (snd (createDirectory 1 "/d" None None (newFileSystem 0 "disk" 4 4)))))))
              "/d" []
              (Dir.mk "/"
                 [("d", Directory (Dir.mk "d"
                    [("a", File (FileNode.mk "a" [0] 3 (mkMeta 2 2 "root" "rw-r--r--")))]
                    (mkMeta 1 2 "root" "rwxr-xr-x")));
                  ("a", File (FileNode.mk "a" [1] 3 (mkMeta 3 3 "root" "rw-r--r--")))]
                 (mkMeta 0 3 "root" "rwxr-xr-x"))
              "d"
              (Directory (Dir.mk ".."
                 [("a", File (FileNode.mk "a" [0] 3 (mkMeta 2 2 "root" "rw-r--r--")))]
                 (mkMeta 1 2 "root" "rwxr-xr-x")))
              dotDotVolume)
    as (node & parent' & _ & _ & _ & _ & _ & _ & _ & _ & Hdir & _ & Hgone & _);
    [reflexivity | reflexivity | reflexivity | reflexivity |].
  exists parent'. split; [exact Hdir | exact Hgone].
Defined.

(** ** Moving *)

(** The [try]/[catch] of [move] and [copy] that finds the destination parent
    and name only reads the volume. *)
Lemma readOnly_destination dn (nm0 : string) :
  readOnly
    (tryCatch
       (let* r := getNodeRef dn in
        match snd r with
        | Directory d => ret (fst r, d, nm0)
        | File _ => throw DestinationNotDirectory
        end)
       (resolveParent dn)).
Proof.
  intros fs. unfold tryCatch, bind.
  destruct (getNodeRef dn fs) as [[[ref n] | e] fs1] eqn:Hg;
    apply (readOnly_run _ _ _ _ (readOnly_getNodeRef dn)) in Hg as ->.
  - destruct n as [f | d]; simpl; [apply readOnly_resolveParent | done].
  - apply readOnly_resolveParent.
Qed.

Lemma move_run now src dst fs :
  move now src dst fs =
  match normalizePath src with
  | Throw e => (Throw e, fs)
  | Ok sn =>
      match normalizePath dst with
      | Throw e => (Throw e, fs)
      | Ok dn =>
          match resolveParent sn fs with
          | (Throw e, _) => (Throw e, fs)
          | (Ok (sref, sParent, sName), _) =>
              match Children.get sName (Dir.children sParent) with
              | None => (Throw SourceNotFound, fs)
              | Some node =>
                  match tryCatch
                          (let* r := getNodeRef dn in
                           match snd r with
                           | Directory d => ret (fst r, d, nodeName node)
                           | File _ => throw DestinationNotDirectory
                           end)
                          (resolveParent dn) fs with
                  | (Throw e, _) => (Throw e, fs)
                  | (Ok (dref, destParent, destName), _) =>
                      if Children.truthy destName (Dir.children destParent)
                      then (Throw DestinationEntryExists, fs)
                      else
                        let node' := setNodeName destName node in
                        let detached := updateDir sref (detachChild now sName) (root fs) in
                        (Ok node',
                         withRoot
                           (if isPrefixOf (sref ++ [sName]) dref then detached
                            else updateDir dref (attachChild now destName node') detached)
                           fs)
                  end
              end
          end
      end
  end.
Proof.
  unfold move, bind at 1, liftOutcome.
  destruct (normalizePath src) as [sn | e]; [| done].
  unfold bind at 1. destruct (normalizePath dst) as [dn | e]; [| done].
  unfold bind at 1.
  destruct (resolveParent sn fs) as [[[[sref sParent] sName] | e] fs1] eqn:Hrp;
    apply resolveParent_run in Hrp as (-> & _); [| done].
  destruct (Children.get sName (Dir.children sParent)) as [node |]; [| done].
  unfold bind at 1.
  destruct (tryCatch _ _ fs) as [[[[dref destParent] destName] | e] fs1] eqn:Htry;
    apply (readOnly_run _ _ _ _ (readOnly_destination dn (nodeName node))) in Htry as ->;
    [| done].
  destruct (Children.truthy destName (Dir.children destParent)); [done |].
  cbv zeta. unfold bind, modifyDir, modify, ret.
  by destruct (isPrefixOf (sref ++ [sName]) dref).
Qed.

(** The destination of [move] and [copy] when nothing exists at [dn] and
    its parent does. *)
Lemma destination_is_new dn dn2 fs pre parent nm (nm0 : string) :
  normalizePath dn = Ok dn2 →
  partsOf dn2 = pre ++ [nm] →
  dirAt pre (root fs) = Some parent →
  Children.get nm (Dir.children parent) = None →
  tryCatch
    (let* r := getNodeRef dn in
     match snd r with
     | Directory d => ret (fst r, d, nm0)
     | File _ => throw DestinationNotDirectory
     end)
    (resolveParent dn) fs = (Ok (pre, parent, nm), fs).
Proof.
  intros Hdn2 Hparts Hdir Hnone.
  assert (Hroot : String.eqb dn2 "/" = false).
  { destruct (String.eqb_spec dn2 "/") as [-> | _]; [| done]. by destruct pre. }
  assert (Hg : getNodeRef dn fs = (Throw (PathDoesNotExist nm dn), fs)).
  { unfold getNodeRef, bind, liftOutcome. rewrite Hdn2, Hroot. unfold reading.
    by rewrite Hparts, (walk_missing _ _ _ _ parent). }
  unfold tryCatch, bind. rewrite Hg.
  by apply (resolveParent_intro dn dn2).
Qed.


Lemma children_alter_ext {N} (f g : N → N) k (cs : list (string * N)) :
  (∀ v, f v = g v) → Children.alter f k cs = Children.alter g k cs.
Proof.
  intros Hfg. induction cs as [| [k0 v0] cs IH]; [done |]. simpl.
  destruct (String.eqb k k0); by rewrite ?Hfg, ?IH.
Qed.

Lemma children_alter_alter {N} (f g : N → N) k (cs : list (string * N)) :
  Children.alter g k (Children.alter f k cs) = Children.alter (fun v => g (f v)) k cs.
Proof.
  induction cs as [| [k0 v0] cs IH]; [done |]. simpl.
  destruct (String.eqb k k0) eqn:Hk; simpl; rewrite Hk; by rewrite ?IH.
Qed.

Lemma updateDir_ext ref f g : ∀ d,
  (∀ x, f x = g x) → updateDir ref f d = updateDir ref g d.
Proof.
  induction ref as [| part rest IH]; intros d Hfg; simpl; [apply Hfg |].
  f_equal. apply children_alter_ext. intros [x | d']; [done |]. f_equal. by apply IH.
Qed.

(** Two mutations of the object behind one reference are one mutation. *)
Lemma updateDir_updateDir ref f g : ∀ d,
  updateDir ref g (updateDir ref f d) = updateDir ref (fun x => g (f x)) d.
Proof.
  induction ref as [| part rest IH]; intros d; simpl; [done |].
  f_equal. rewrite children_alter_alter. apply children_alter_ext.
  intros [x | d']; [done |]. f_equal. apply IH.
Qed.

Lemma isPrefixOf_refl l : isPrefixOf l l = true.
Proof. induction l as [| a l IH]; [done |]. simpl. by rewrite String.eqb_refl. Qed.

Lemma isPrefixOf_snoc ref (nm : string) : isPrefixOf (ref ++ [nm]) ref = false.
Proof.
  induction ref as [| a ref IH]; [done |]. simpl. rewrite IH. by destruct (String.eqb a a).
Qed.

(** X13.  A [move] whose destination path names a free entry of the
    directory the source is in (no entry under the name, and the name not
    one every object inherits) is the [rename] to the final name of the
    destination: same result, same volume.  The route that renames calls
    [move] this way. *)
Theorem move_within_the_parent_is_rename now src dst fs sn dn ref sParent sName
    dParent newName node :
  normalizePath src = Ok sn →
  normalizePath dst = Ok dn →
  fst (resolveParent sn fs) = Ok (ref, sParent, sName) →
  Children.get sName (Dir.children sParent) = Some node →
  fst (resolveParent dn fs) = Ok (ref, dParent, newName) →
  Children.truthy newName (Dir.children dParent) = false →
  move now src dst fs = rename now src newName fs ∧
  fst (rename now src newName fs) = Ok (setNodeName newName node).
Proof.
  intros Hsn Hdn Hs Hnode Hd Htruthy.
  pose proof (proj1 (children_truthy_false _ _) Htruthy) as [Hfree _].
  destruct (resolveParent_normalized src sn fs ref sParent sName Hsn Hs)
    as (sn2 & Hsn2 & Hsparts & Hsdir & Hsroot).
  destruct (resolveParent_normalized dst dn fs ref dParent newName Hdn Hd)
    as (dn2 & Hdn2 & Hdparts & Hddir & Hdroot).
  rewrite Hsdir in Hddir. injection Hddir as <-.
  rewrite move_run, rename_run, Hsn, Hdn.
  rewrite (resolveParent_intro sn sn2 fs ref sParent sName) by done.
  rewrite Hnode, Htruthy.
  rewrite (destination_is_new dn dn2 fs ref sParent newName) by done.
  rewrite Htruthy. cbv zeta. rewrite isPrefixOf_snoc. split; [| done].
  f_equal. f_equal. rewrite updateDir_updateDir. apply updateDir_ext.
  intros [nm0 cs [c u o m]]. reflexivity.
Qed.

Lemma move_within_the_parent_is_rename_witness :
  move 3 "/a" "/c" twoFilesVolume = rename 3 "/a" "c" twoFilesVolume.
Proof.
  apply (move_within_the_parent_is_rename 3 "/a" "/c" twoFilesVolume "/a" "/c" []
           (root twoFilesVolume) "a" (root twoFilesVolume) "c"
           (File (FileNode.mk "a" [0] 3 (mkMeta 1 1 "root" "rw-r--r--"))));
    reflexivity.
Defined.



(** ** What the operations on the tree leave alone *)

(** X15.  [createDirectory], [rename] and [move] never touch the block store,
    whatever their arguments and whether they return or throw. *)
Theorem tree_operations_leave_the_store now p q o m fs :
  sameStore fs (snd (createDirectory now p o m fs)) ∧
  sameStore fs (snd (rename now p q fs)) ∧
  sameStore fs (snd (move now p q fs)).
Proof.
  assert (Hroot : ∀ r fs', sameStore fs fs' → sameStore fs (withRoot r fs')) by done.
  assert (Hfs : sameStore fs fs) by done.
  split_and!.
  - by apply (keeps_createDirectory (sameStore fs) Hroot).
  - by apply (keeps_rename (sameStore fs) Hroot).
  - by apply (keeps_move (sameStore fs) Hroot).
Qed.


(** X17.  A path that normalizes to ["/"] names the root, and the root can be
    neither deleted nor created, renamed, moved or written as a file: each
    of the calls throws and leaves the volume as it is. *)
Theorem root_is_protected now p q content o m fs :
  normalizePath p = Ok "/" →
  deleteNode now p fs = (Throw CannotDeleteRoot, fs) ∧
  createDirectory now p o m fs = (Throw RootAlreadyExists, fs) ∧
  createFile now p content o m fs = (Throw RootHasNoParent, fs) ∧
  rename now p q fs = (Throw RootHasNoParent, fs) ∧
  (q ≠ EmptyString → move now p q fs = (Throw RootHasNoParent, fs)) ∧
  writeFile now p content fs = (Throw NotAFileError, fs) ∧
  fst (getNode p fs) = Ok (Directory (root fs)).
Proof.
  intros Hn.
  assert (Hrp : resolveParent "/" fs = (Throw RootHasNoParent, fs)) by done.
  split_and!.
  - by rewrite deleteNode_run, Hn.
  - by rewrite createDirectory_run, Hn.
  - by rewrite createFile_run, Hn, Hrp.
  - by rewrite rename_run, Hn, Hrp.
  - intros Hq. rewrite move_run, Hn.
    unfold normalizePath at 1. apply String.eqb_neq in Hq. by rewrite Hq, Hrp.
  - by rewrite writeFile_run, Hn.
  - rewrite getNode_eq. unfold getNodeRef, bind, liftOutcome. by rewrite Hn.
Qed.

Lemma root_is_protected_witness :
  deleteNode 5 "/a/.." twoFilesVolume = (Throw CannotDeleteRoot, twoFilesVolume).
Proof.
  apply (root_is_protected 5 "/a/.." "b" "text" None None twoFilesVolume). reflexivity.
Defined.

(** ** The mount table *)

Module VFSMoreFacts.
Import VFS VFSSpec.

Lemma someAt_false mp l :
  someAt mp l = false ↔ ∀ x, In x l → mountPoint x ≠ mp.
Proof.
  unfold someAt. induction l as [| y l IH]; simpl; [naive_solver |].
  rewrite orb_false_iff, IH. split.
  - intros [Hy Hl] x [<- | Hx]; [by apply String.eqb_neq | by apply Hl].
  - intros H. split; [apply String.eqb_neq, H; by left | intros x Hx; apply H; by right].
Qed.

Lemma someAt_true mp l :
  someAt mp l = true ↔ ∃ x, In x l ∧ mountPoint x = mp.
Proof.
  unfold someAt. rewrite existsb_exists.
  split; intros (x & Hx & Heq); exists x; split; try done; by apply String.eqb_eq.
Qed.

Lemma insertByLength_head x l :
  Forall (fun y => String.length (mountPoint y) ≤ String.length (mountPoint x)) l →
  insertByLength x l = x :: l.
Proof.
  destruct l as [| y l]; [done |]. intros [Hy _]%Forall_cons. simpl.
  destruct (Nat.ltb_spec (String.length (mountPoint x)) (String.length (mountPoint y)));
    [lia | done].
Qed.

(** Where the sort puts a mount pushed to the end of a sorted table: behind
    the mounts that are at least as long, before the shorter ones. *)
Lemma sortMounts_push m l :
  longestFirst l →
  ∃ l1 l2,
    l = l1 ++ l2 ∧ sortMounts (l ++ [m]) = l1 ++ m :: l2 ∧
    Forall (fun x => String.length (mountPoint m) ≤ String.length (mountPoint x)) l1 ∧
    Forall (fun x => String.length (mountPoint x) < String.length (mountPoint m)) l2.
Proof.
  unfold sortMounts. rewrite foldr_app. simpl.
  unfold longestFirst. induction 1 as [| x l Hl (l1 & l2 & Heq & Hsort & H1 & H2) Hx].
  - exists [], []. by split_and!.
  - simpl. rewrite Hsort. destruct l1 as [| h l1].
    + simpl in *. subst l2.
      destruct (Nat.ltb_spec (String.length (mountPoint x)) (String.length (mountPoint m)))
        as [Hlt | Hge].
      * exists [], (x :: l). rewrite insertByLength_head by done.
        split_and!; try done. by constructor.
      * exists [x], l. split_and!; try done. by repeat constructor.
    + simpl in *. subst l. apply Forall_cons in Hx as [Hh Hrest].
      apply Forall_cons in H1 as [Hmh H1].
      destruct (Nat.ltb_spec (String.length (mountPoint x)) (String.length (mountPoint h)));
        [lia |].
      exists (x :: h :: l1), l2. split_and!; try done.
      constructor; [lia |]. by constructor.
Qed.

Lemma removeFirst_middle mp l1 m l2 :
  (∀ x, In x l1 → mountPoint x ≠ mp) → mountPoint m = mp →
  removeFirst mp (l1 ++ m :: l2) = l1 ++ l2.
Proof.
  intros Hl1 Hm. induction l1 as [| y l1 IH]; simpl.
  - by rewrite Hm, String.eqb_refl.
  - destruct (String.eqb_spec (mountPoint y) mp) as [Heq | _].
    + exfalso. by apply (Hl1 y); [left |].
    + f_equal. apply IH. intros x Hx. apply Hl1. by right.
Qed.

Lemma removeFirst_length mp l :
  someAt mp l = true → S (length (removeFirst mp l)) = length l.
Proof.
  unfold someAt. induction l as [| y l IH]; simpl; [done |].
  destruct (String.eqb (mountPoint y) mp); simpl; [done |]. intros H. by rewrite IH.
Qed.

Lemma NoDup_insertByLength m l :
  NoDup (map mountPoint (insertByLength m l)) ↔ NoDup (map mountPoint (m :: l)).
Proof.
  induction l as [| y l IH]; [done |]. simpl.
  destruct (String.length (mountPoint m) <? String.length (mountPoint y)); [| done].
  simpl. rewrite !NoDup_cons, IH. simpl. rewrite !NoDup_cons.
  rewrite !list_elem_of_In, !in_map_iff.
  setoid_rewrite VFSFacts.In_insertByLength. simpl. rewrite in_map_iff. naive_solver.
Qed.

Lemma In_map_sortMounts mp l :
  In mp (map mountPoint (sortMounts l)) ↔ In mp (map mountPoint l).
Proof. rewrite !in_map_iff. by setoid_rewrite VFSFacts.In_sortMounts. Qed.

Lemma NoDup_sortMounts l :
  NoDup (map mountPoint (sortMounts l)) ↔ NoDup (map mountPoint l).
Proof.
  induction l as [| y l IH]; [done |]. simpl.
  rewrite NoDup_insertByLength. simpl. rewrite !NoDup_cons, IH.
  by rewrite !list_elem_of_In, In_map_sortMounts.
Qed.

Lemma NoDup_removeFirst mp l :
  NoDup (map mountPoint l) → NoDup (map mountPoint (removeFirst mp l)).
Proof.
  induction l as [| y l IH]; simpl; [done |].
  rewrite NoDup_cons. intros [Hy Hl].
  destruct (String.eqb (mountPoint y) mp); [done |]. simpl. rewrite NoDup_cons.
  split; [| by apply IH].
  rewrite list_elem_of_In, in_map_iff in *. intros (x & Heq & Hx). apply Hy.
  exists x. split; [done |]. by apply (VFSFacts.In_removeFirst x mp).
Qed.

(** No two mounts of a table a manager holds have the same mount point. *)
Lemma reachableMounts_NoDup mounts :
  reachableMounts mounts → NoDup (map mountPoint mounts).
Proof.
  induction 1 as [now | mounts fsys mp mounts' _ IH Hmount
                  | mounts mp mounts' _ IH Hunmount
                  | mounts mounts' _ IH Hmap].
  - repeat constructor. set_solver.
  - unfold mount in Hmount. destruct (normalizePath mp) as [mp' |]; [| done].
    destruct (someAt mp' mounts) eqn:Hsome; [done |]. injection Hmount as <-.
    apply NoDup_sortMounts. rewrite map_app. simpl.
    apply NoDup_app. split_and!; [done | | repeat constructor; set_solver].
    intros x Hx Hx'. apply list_elem_of_In in Hx' as [<- | []].
    apply list_elem_of_In, in_map_iff in Hx as (y & Hy & Hin).
    by apply (proj1 (someAt_false mp' mounts) Hsome y).
  - unfold unmount in Hunmount. destruct (normalizePath mp) as [mp' |]; [| done].
    destruct (negb (someAt mp' mounts)); [done |].
    destruct (String.eqb mp' "/"); [done |]. injection Hunmount as <-.
    by apply NoDup_removeFirst.
  - by rewrite Hmap.
Qed.

(** Every mount point of a table a manager holds is an absolute path. *)
Lemma reachableMounts_absolute mounts :
  reachableMounts mounts → ∀ m, In m mounts → Str.startsWith (mountPoint m) "/" = true.
Proof.
  induction 1 as [now | mounts fsys mp mounts' _ IH Hmount
                  | mounts mp mounts' _ IH Hunmount
                  | mounts mounts' _ IH Hmap]; intros m Hm.
  - by destruct Hm as [<- | []].
  - unfold mount in Hmount. destruct (normalizePath mp) as [mp' |] eqn:Hn; [| done].
    destruct (someAt mp' mounts); [done |]. injection Hmount as <-.
    apply VFSFacts.In_sortMounts, in_app_or in Hm as [Hm | [<- | []]]; [by apply IH |].
    by apply (normalizePath_Ok_absolute mp).
  - unfold unmount in Hunmount. destruct (normalizePath mp) as [mp' |]; [| done].
    destruct (negb (someAt mp' mounts)); [done |].
    destruct (String.eqb mp' "/"); [done |]. injection Hunmount as <-.
    by apply IH, (VFSFacts.In_removeFirst m mp').
  - assert (Hin : In (mountPoint m) (map mountPoint mounts)).
    { rewrite <- Hmap. by apply in_map. }
    apply in_map_iff in Hin as (m0 & <- & Hm0). by apply IH.
Qed.

Lemma In_removeFirst_iff x mp l :
  NoDup (map mountPoint l) →
  In x (removeFirst mp l) ↔ In x l ∧ mountPoint x ≠ mp.
Proof.
  induction l as [| y l IH]; simpl; [naive_solver |].
  rewrite NoDup_cons. intros [Hy Hl]. specialize (IH Hl).
  rewrite list_elem_of_In, in_map_iff in Hy.
  destruct (String.eqb_spec (mountPoint y) mp) as [<- | Hne]; simpl; [| naive_solver].
  split; [| naive_solver]. intros Hx. split; [by right |].
  intros Heq. apply Hy. by exists x.
Qed.

Lemma prefix_length q p : String.prefix q p = true → String.length q ≤ String.length p.
Proof.
  revert q. induction p as [| b p IH]; intros [| a q]; simpl; try done; try lia.
  destruct (ascii_dec a b); [| done]. intros H%IH. lia.
Qed.

Lemma length_append a b : String.length (a +:+ b) = String.length a + String.length b.
Proof. induction a as [| c a IH]; [done |]. rewrite append_String. simpl. by rewrite IH. Qed.

(** A path at least as long as [p] that is not [p] does not match it. *)
Lemma isMatch_longer p mp :
  String.length p ≤ String.length mp → mp ≠ p → isMatch p mp = false.
Proof.
  intros Hlen Hne. unfold isMatch. apply andb_false_iff. right.
  apply orb_false_iff. split.
  - apply String.eqb_neq. congruence.
  - destruct (Str.startsWith p (mp +:+ "/")) eqn:Hpre; [| done].
    apply prefix_length in Hpre. rewrite length_append in Hpre. simpl in Hpre. lia.
Qed.

(** The scan for a path that is a mount point finds the mount at it. *)
Lemma scan_exact m l :
  longestFirst l → NoDup (map mountPoint l) → In m l → mountPoint m ≠ "/" →
  scan (mountPoint m) l = Some m.
Proof.
  unfold longestFirst. intros Hl Hnodup Hin Hroot.
  induction Hl as [| y l Hl IH Hy]; [done |].
  simpl in Hnodup. apply NoDup_cons in Hnodup as [Hynew Hnodup].
  rewrite VFSFacts.scan_step. destruct Hin as [-> | Hin].
  - unfold isMatch. rewrite String.eqb_refl.
    apply String.eqb_neq in Hroot. by rewrite Hroot.
  - rewrite isMatch_longer; [by apply IH | |].
    + rewrite Forall_forall in Hy. by apply Hy, list_elem_of_In.
    + intros Heq. apply Hynew. rewrite Heq. by apply list_elem_of_In, in_map.
Qed.

End VFSMoreFacts.

(** X18.  The mount table a manager holds is sorted longest mount point first (the
    order [resolve] relies on), has no two mounts at one mount point, holds
    a mount at ["/"], and all its mount points are absolute paths. *)
Theorem mount_table_invariant mounts :
  VFSSpec.reachableMounts mounts →
  VFSSpec.longestFirst mounts ∧
  NoDup (map VFS.mountPoint mounts) ∧
  (∃ rootMount, In rootMount mounts ∧ VFS.mountPoint rootMount = "/") ∧
  ∀ m, In m mounts → Str.startsWith (VFS.mountPoint m) "/" = true.
Proof.
  intros Hreach.
  destruct (VFSFacts.reachableMounts_inv mounts Hreach) as [Hsorted Hroot].
  split_and!; try done.
  - by apply VFSMoreFacts.reachableMounts_NoDup.
  - by apply VFSMoreFacts.reachableMounts_absolute.
Qed.

Lemma mount_table_invariant_witness :
  NoDup (map VFS.mountPoint VFSSpec.dotDotMounts).
Proof.
  apply (mount_table_invariant VFSSpec.dotDotMounts).
  apply (VFSSpec.reachable_mount (VFS.newVFSManager 0) (newFileSystem 1 "usb" 2 4) "..");
    [apply VFSSpec.reachable_manager | reflexivity].
Defined.

(** X19.  When [mount] returns, the table has gained exactly the new mount, the
    mount point was not in use and is not ["/"]; unmounting the same path
    gives back the table as it was, and mounting there again throws "Mount
    point already used". *)
Theorem mount_then_unmount mounts fsys mp mounts' :
  VFSSpec.reachableMounts mounts →
  VFS.mount fsys mp mounts = Ok mounts' →
  ∃ mp',
    normalizePath mp = Ok mp' ∧ mp' ≠ "/" ∧
    VFS.someAt mp' mounts = false ∧
    (∀ x, In x mounts' ↔ x = VFS.mkMount mp' fsys ∨ In x mounts) ∧
    length mounts' = S (length mounts) ∧
    VFS.unmount mp mounts' = Ok mounts ∧
    ∀ fsys2, VFS.mount fsys2 mp mounts' = Throw MountPointUsed.
Proof.
  intros Hreach Hmount.
  destruct (VFSFacts.reachableMounts_inv mounts Hreach) as [Hsorted (rm & Hrm & Hrmp)].
  unfold VFS.mount in Hmount. destruct (normalizePath mp) as [mp' |] eqn:Hn; [| done].
  destruct (VFS.someAt mp' mounts) eqn:Hsome; [done |]. injection Hmount as <-.
  pose proof (proj1 (VFSMoreFacts.someAt_false mp' mounts) Hsome) as Hfresh.
  assert (Hne : mp' ≠ "/") by (intros ->; by apply (Hfresh rm)).
  destruct (VFSMoreFacts.sortMounts_push (VFS.mkMount mp' fsys) mounts Hsorted)
    as (l1 & l2 & Hsplit & Hsort & _ & _).
  assert (Hin : ∀ x, In x (VFS.sortMounts (mounts ++ [VFS.mkMount mp' fsys]))
                     ↔ x = VFS.mkMount mp' fsys ∨ In x mounts).
  { intros x. rewrite VFSFacts.In_sortMounts, in_app_iff. simpl. naive_solver. }
  assert (Hnow : VFS.someAt mp' (VFS.sortMounts (mounts ++ [VFS.mkMount mp' fsys])) = true).
  { apply VFSMoreFacts.someAt_true. exists (VFS.mkMount mp' fsys).
    split; [apply Hin; by left | done]. }
  exists mp'. split_and!; try done.
  - rewrite Hsort, Hsplit, !length_app. simpl. lia.
  - unfold VFS.unmount. rewrite Hn, Hnow. simpl.
    apply String.eqb_neq in Hne. rewrite Hne. f_equal.
    rewrite Hsort, Hsplit. apply VFSMoreFacts.removeFirst_middle; [| done].
    intros x Hx. apply Hfresh. rewrite Hsplit. apply in_or_app. by left.
  - intros fsys2. unfold VFS.mount. by rewrite Hn, Hnow.
Qed.

Lemma mount_then_unmount_witness :
  VFS.unmount ".." VFSSpec.dotDotMounts = Ok (VFS.newVFSManager 0).
Proof.
  destruct (mount_then_unmount (VFS.newVFSManager 0) (newFileSystem 1 "usb" 2 4) ".."
              VFSSpec.dotDotMounts)
    as (mp' & _ & _ & _ & _ & _ & Hun & _);
    [apply VFSSpec.reachable_manager | reflexivity | exact Hun].
Defined.

(** X20.  When [unmount] returns, the mount point was in use and is not ["/"];
    the table has lost exactly the mount at it, and unmounting it again
    throws "Mount point not found". *)
Theorem unmount_removes_the_mount mounts mp mounts' :
  VFSSpec.reachableMounts mounts →
  VFS.unmount mp mounts = Ok mounts' →
  ∃ mp',
    normalizePath mp = Ok mp' ∧ mp' ≠ "/" ∧
    VFS.someAt mp' mounts = true ∧ VFS.someAt mp' mounts' = false ∧
    (∀ x, In x mounts' ↔ In x mounts ∧ VFS.mountPoint x ≠ mp') ∧
    S (length mounts') = length mounts ∧
    VFS.unmount mp mounts' = Throw MountPointNotFound.
Proof.
  intros Hreach Hun.
  pose proof (VFSMoreFacts.reachableMounts_NoDup mounts Hreach) as Hnodup.
  unfold VFS.unmount in Hun. destruct (normalizePath mp) as [mp' |] eqn:Hn; [| done].
  destruct (VFS.someAt mp' mounts) eqn:Hsome; [| done]. simpl in Hun.
  destruct (String.eqb_spec mp' "/") as [Heq | Hne]; [done |]. injection Hun as <-.
  assert (Hgone : VFS.someAt mp' (VFS.removeFirst mp' mounts) = false).
  { apply VFSMoreFacts.someAt_false. intros x Hx.
    by apply (VFSMoreFacts.In_removeFirst_iff x mp' mounts Hnodup). }
  exists mp'. split_and!; try done.
  - intros x. by apply VFSMoreFacts.In_removeFirst_iff.
  - by apply VFSMoreFacts.removeFirst_length.
  - unfold VFS.unmount. by rewrite Hn, Hgone.
Qed.

Lemma unmount_removes_the_mount_witness :
  VFS.unmount ".." (VFS.newVFSManager 0) = Throw MountPointNotFound.
Proof.
  destruct (unmount_removes_the_mount VFSSpec.dotDotMounts ".." (VFS.newVFSManager 0))
    as (mp' & _ & _ & _ & _ & _ & _ & Hagain); [| reflexivity | exact Hagain].
  apply (VFSSpec.reachable_mount (VFS.newVFSManager 0) (newFileSystem 1 "usb" 2 4) "..");
    [apply VFSSpec.reachable_manager | reflexivity].
Defined.

(** X21.  A path that normalizes to a mount point other than ["/"] resolves to the
    volume mounted there, with inner path ["/"]. *)
Theorem resolve_at_a_mount_point mounts m vfsPath :
  VFSSpec.reachableMounts mounts →
  In m mounts → VFS.mountPoint m ≠ "/" →
  normalizePath vfsPath = Ok (VFS.mountPoint m) →
  VFS.resolve vfsPath mounts = Ok (VFS.fs m, "/", VFS.mountPoint m).
Proof.
  intros Hreach Hin Hne Hn.
  destruct (VFSFacts.reachableMounts_inv mounts Hreach) as [Hsorted _].
  pose proof (VFSMoreFacts.reachableMounts_NoDup mounts Hreach) as Hnodup.
  unfold VFS.resolve. rewrite Hn, (VFSMoreFacts.scan_exact m mounts) by done.
  unfold VFS.remainder. by rewrite sliceFrom_all.
Qed.

Lemma resolve_at_a_mount_point_witness :
  VFS.resolve ".." VFSSpec.dotDotMounts = Ok (newFileSystem 1 "usb" 2 4, "/", "/..").
Proof.
  apply (resolve_at_a_mount_point VFSSpec.dotDotMounts (VFS.mkMount "/.." (newFileSystem 1 "usb" 2 4))).
  - apply (VFSSpec.reachable_mount (VFS.newVFSManager 0) (newFileSystem 1 "usb" 2 4) "..");
      [apply VFSSpec.reachable_manager | reflexivity].
  - by left.
  - done.
  - reflexivity.
Defined.

(** X22.  The mount at ["/"] is permanent: on every table a manager holds, a path
    that normalizes to ["/"] can be neither unmounted nor mounted over, and
    it resolves to the root volume with inner path ["/"]. *)
Theorem root_mount_is_permanent mounts p :
  VFSSpec.reachableMounts mounts →
  normalizePath p = Ok "/" →
  VFS.unmount p mounts = Throw CannotUnmountRootError ∧
  (∀ fsys, VFS.mount fsys p mounts = Throw MountPointUsed) ∧
  ∃ rootMount,
    In rootMount mounts ∧ VFS.mountPoint rootMount = "/" ∧
    VFS.resolve p mounts = Ok (VFS.fs rootMount, "/", "/").
Proof.
  intros Hreach Hn.
  destruct (VFSFacts.reachableMounts_inv mounts Hreach) as [Hsorted (rm & Hrm & Hrmp)].
  pose proof (VFSMoreFacts.reachableMounts_absolute mounts Hreach) as Habs.
  assert (Hsome : VFS.someAt "/" mounts = true).
  { apply VFSMoreFacts.someAt_true. by exists rm. }
  split_and!.
  - unfold VFS.unmount. by rewrite Hn, Hsome.
  - intros fsys. unfold VFS.mount. by rewrite Hn, Hsome.
  - assert (Hscan : VFS.scan "/" mounts = None).
    { destruct (VFS.scan "/" mounts) as [m |] eqn:Hscan; [| done]. exfalso.
      apply (VFSFacts.scan_Some "/" mounts m Hsorted) in Hscan as (Hm & Hmatch & _).
      specialize (Habs m Hm). unfold VFSSpec.isMatch in Hmatch.
      apply andb_true_iff in Hmatch as [Hnr Hor].
      apply negb_true_iff, String.eqb_neq in Hnr.
      apply orb_true_iff in Hor as [Heq%String.eqb_eq | Hpre]; [congruence |].
      apply VFSMoreFacts.prefix_length in Hpre.
      rewrite VFSMoreFacts.length_append in Hpre. simpl in Hpre.
      destruct (VFS.mountPoint m); [done | simpl in Hpre; lia]. }
    unfold VFS.resolve. rewrite Hn, Hscan.
    destruct (find (fun m => String.eqb (VFS.mountPoint m) "/") mounts)
      as [rootMount |] eqn:Hfind.
    + apply find_some in Hfind as [Hin Heq]. apply String.eqb_eq in Heq.
      by exists rootMount.
    + exfalso. eapply find_none in Hfind; [| exact Hrm]. simpl in Hfind.
      by rewrite Hrmp in Hfind.
Qed.

Lemma root_mount_is_permanent_witness :
  VFS.unmount "/a/.." VFSSpec.dotDotMounts = Throw CannotUnmountRootError.
Proof.
  apply (root_mount_is_permanent VFSSpec.dotDotMounts "/a/..").
  - apply (VFSSpec.reachable_mount (VFS.newVFSManager 0) (newFileSystem 1 "usb" 2 4) "..");
      [apply VFSSpec.reachable_manager | reflexivity].
  - reflexivity.
Defined.

(** ** Copying *)

Lemma copy_run now src dst fs :
  copy now src dst fs =
  match getNode src fs with
  | (Throw e, _) => (Throw e, fs)
  | (Ok node, _) =>
      match normalizePath dst with
      | Throw e => (Throw e, fs)
      | Ok dn =>
          match tryCatch
                  (let* r := getNodeRef dn in
                   match snd r with
                   | Directory d => ret (fst r, d, nodeName node)
                   | File _ => throw DestinationNotDirectory
                   end)
                  (resolveParent dn) fs with
          | (Throw e, _) => (Throw e, fs)
          | (Ok (dref, destParent, destName), _) =>
              if Children.truthy destName (Dir.children destParent)
              then (Throw DestinationEntryExists, fs)
              else
                match cloneRec now destName node fs with
                | (Throw e, fs2) => (Throw e, fs2)
                | (Ok copied, fs2) =>
                    (Ok copied,
                     withRoot (updateDir dref (attachChild now destName copied) (root fs2))
                       fs2)
                end
          end
      end
  end.
Proof.
  unfold copy, bind at 1.
  destruct (getNode src fs) as [[node | e] fs1] eqn:Hg;
    apply (readOnly_run _ _ _ _ (readOnly_getNode src)) in Hg as ->; [| done].
  unfold bind at 1, liftOutcome. destruct (normalizePath dst) as [dn | e]; [| done].
  unfold bind at 1.
  destruct (tryCatch _ _ fs) as [[[[dref destParent] destName] | e] fs1] eqn:Htry;
    apply (readOnly_run _ _ _ _ (readOnly_destination dn (nodeName node))) in Htry as ->;
    [| done].
  destruct (Children.truthy destName (Dir.children destParent)); [done |].
  unfold bind, modifyDir, modify, ret.
  by destruct (cloneRec now destName node fs) as [[copied | e] fs2].
Qed.

(** Attaching an entry under a name that is free leaves every file where
    it was. *)
Lemma nodeAt_attach_file pre nm x now : ∀ ref d parent f,
  nodeAt ref (Directory d) = Some (File f) →
  dirAt pre d = Some parent →
  Children.get nm (Dir.children parent) = None →
  nodeAt ref (Directory (updateDir pre (attachChild now nm x) d)) = Some (File f).
Proof.
  induction pre as [| a pre IH]; intros ref d parent f Hnode Hdir Hfree.
  - simpl in Hdir. injection Hdir as <-. destruct ref as [| k rest]; [done |].
    simpl in *. destruct (Children.get k (Dir.children d)) as [child |] eqn:Hk; [| done].
    rewrite children_get_set_ne, Hk; [done |]. intros ->. congruence.
  - simpl in Hdir.
    destruct (Children.get a (Dir.children d)) as [[g | c] |] eqn:Ha; try done.
    destruct ref as [| k rest]; [done |]. simpl in *.
    rewrite children_get_alter. case_decide as Hak.
    + subst k. rewrite Ha in *. simpl. by apply (IH rest c parent).
    + by destruct (Children.get k (Dir.children d)).
Qed.

Lemma getNode_file_nodeAt p fs f :
  fst (getNode p fs) = Ok (File f) →
  ∃ normalized,
    normalizePath p = Ok normalized ∧ String.eqb normalized "/" = false ∧
    nodeAt (partsOf normalized) (Directory (root fs)) = Some (File f).
Proof.
  rewrite getNode_eq. destruct (getNodeRef p fs) as [[[ref n] | e] fs1] eqn:Hg; [| done].
  simpl. intros [= ->].
  apply getNodeRef_run in Hg as (_ & Hnode & normalized & Hn & Href).
  exists normalized. destruct (String.eqb normalized "/"); subst ref; [done |].
  by split_and!.
Qed.

Lemma readBlocks_ext fs fs' ids :
  (∀ b, b ∈ ids → JsArray.get (blocks fs') b = JsArray.get (blocks fs) b) →
  readBlocks fs' ids = readBlocks fs ids.
Proof.
  intros Heq. unfold readBlocks. f_equal. apply map_ext_in. intros b Hb.
  unfold readBlock. by rewrite Heq by by apply list_elem_of_In.
Qed.

(** X23.  Copying a file to a path whose final name is free in a directory
    that exists (no entry under the name, and the name not one every object
    inherits): a [copy] that returns gives a file under the final name of the
    destination, with the owner and mode of the source, in blocks of its
    own; both the copy and the source then read as the content the source
    had, provided no block of the source was marked free.  The copy returns
    whenever the free blocks can hold the content. *)
Theorem copy_of_a_file now src dst fs f dn pre parent nm :
  fst (getNode src fs) = Ok (File f) →
  normalizePath dst = Ok dn →
  fst (resolveParent dn fs) = Ok (pre, parent, nm) →
  Children.truthy nm (Dir.children parent) = false →
  (∀ b, b ∈ FileNode.blocks f → ¬ isFree fs b) →
  let content := readBlocks fs (FileNode.blocks f) in
  (∀ copied fs',
     copy now src dst fs = (Ok copied, fs') →
     ∃ g,
       copied = File g ∧ FileNode.name g = nm ∧
       FileNode.size g = String.length content ∧
       owner (FileNode.meta g) = owner (FileNode.meta f) ∧
       mode (FileNode.meta g) = mode (FileNode.meta f) ∧
       (∀ b, b ∈ FileNode.blocks g → b ∉ FileNode.blocks f) ∧
       fst (readFile dn fs') = Ok content ∧
       fst (readFile src fs') = Ok content) ∧
  (String.length content ≤ blockSize fs * getFreeBlockCount fs →
   ∃ copied fs', copy now src dst fs = (Ok copied, fs')).
Proof.
  intros Hsrc Hdn Hres Htruthy Hused content.
  pose proof (proj1 (children_truthy_false _ _) Htruthy) as [Hfree _].
  destruct (resolveParent_normalized dst dn fs pre parent nm Hdn Hres)
    as (dn2 & Hdn2 & Hparts & Hdir & Hroot).
  assert (Hrun : copy now src dst fs =
                 match allocateChunks DiskFullCreating content fs with
                 | (Throw e, fs2) => (Throw e, fs2)
                 | (Ok blks, fs2) =>
                     let g := FileNode.mk nm blks (String.length content)
                                (mkMeta now now (owner (FileNode.meta f))
                                   (mode (FileNode.meta f))) in
                     (Ok (File g),
                      withRoot (updateDir pre (attachChild now nm (File g)) (root fs2)) fs2)
                 end).
  { rewrite copy_run.
    destruct (getNode src fs) as [res fs1]. simpl in Hsrc. subst res.
    rewrite Hdn, (destination_is_new dn dn2 fs pre parent nm) by done.
    rewrite Htruthy. simpl. unfold bind at 1, reading at 1.
    unfold createFileNode, bind, ret. fold content.
    by destruct (allocateChunks DiskFullCreating content fs) as [[blks | e] fs2]. }
  rewrite Hrun. split.
  - intros copied fs'.
    destruct (allocateChunks DiskFullCreating content fs) as [[blks | e] fs2] eqn:Hac; [| done].
    cbv zeta. intros [= <- <-].
    pose proof (allocateChunks_Ok _ _ _ _ _ Hac)
      as ((_ & _ & _ & Hroot2) & Hread & Hwasfree & _ & Hkept & _).
    eexists. split; [reflexivity |]. simpl. split_and!; try done.
    + intros b Hb Hbf. by apply (Hused b Hbf), Hwasfree.
    + rewrite readFile_run.
      rewrite (getNodeRef_intro dn _ dn2 (File (FileNode.mk nm blks (String.length content)
                 (mkMeta now now (owner (FileNode.meta f)) (mode (FileNode.meta f)))))).
      * simpl. rewrite <- Hread. by f_equal.
      * done.
      * done.
      * rewrite Hparts. simpl. apply (nodeAt_attach pre nm now _ _ parent). by rewrite Hroot2.
    + destruct (getNode_file_nodeAt src fs f Hsrc) as (sn & Hsn & Hsroot & Hnode).
      rewrite readFile_run.
      rewrite (getNodeRef_intro src _ sn (File f)).
      * simpl. unfold content. f_equal. apply readBlocks_ext. intros b Hb. simpl.
        apply Hkept. intros Hbn. by apply (Hused b Hb), Hwasfree.
      * done.
      * done.
      * simpl. rewrite Hroot2. by apply (nodeAt_attach_file pre nm _ now _ _ parent).
  - intros Hfits. rewrite getFreeBlockCount_countFree in Hfits.
    destruct (allocateChunks_fits DiskFullCreating content fs Hfits) as (blks & fs2 & ->).
    by eexists _, _.
Qed.

Lemma copy_of_a_file_witness :
  ∃ copied fs', copy 3 "/a" "/c" twoFilesVolume = (Ok copied, fs').
Proof.
  destruct (copy_of_a_file 3 "/a" "/c" twoFilesVolume
              (FileNode.mk "a" [0] 3 (mkMeta 1 1 "root" "rw-r--r--"))
              "/c" [] (root twoFilesVolume) "c") as [_ Hfits];
    [reflexivity | reflexivity | reflexivity | reflexivity | | apply Hfits; vm_compute; lia].
  intros b ->%list_elem_of_singleton. by vm_compute.
Defined.

Lemma sameTree_freeBlock fs idx : keeps (sameTree fs) (freeBlock idx).
Proof. intros fs1 H. unfold freeBlock. by destruct (totalBlocks fs1 <=? idx). Qed.

(** X24.  A [copy] that throws leaves the tree as it was, whatever it was asked
    to copy; when the source is a file and the free blocks of the volume are
    empty, it leaves the whole volume as it was. *)
Theorem copy_failure_keeps_the_tree now src dst fs e fs' :
  copy now src dst fs = (Throw e, fs') →
  sameTree fs fs' ∧
  (∀ f, fst (getNode src fs) = Ok (File f) → storeInv fs → fs' = fs).
Proof.
  rewrite copy_run.
  destruct (getNode src fs) as [[node | e0] fs1]; [| by intros [= <- <-]].
  destruct (normalizePath dst) as [dn | e0]; [| by intros [= <- <-]].
  destruct (tryCatch _ _ fs) as [[[[dref destParent] destName] | e0] fs2];
    [| by intros [= <- <-]].
  destruct (Children.truthy destName (Dir.children destParent)); [by intros [= <- <-] |].
  destruct (cloneRec now destName node fs) as [[copied | e0] fs3] eqn:Hclone; [done |].
  intros [= <- <-]. split.
  - pose proof (keeps_cloneRec (sameTree fs) (sameTree_freeBlock fs)
                  ltac:(done) now destName node fs (sameTree_refl fs)) as H.
    by rewrite Hclone in H.
  - simpl. intros f [= ->] [Hwf Hempty]. simpl in Hclone.
    unfold bind at 1, reading at 1, createFileNode, bind in Hclone.
    destruct (allocateChunks _ _ fs) as [[blks | e1] fs4] eqn:Hac; [done |].
    injection Hclone as <- <-.
    apply allocateChunks_Throw in Hac
      as (_ & (Hname & Htotal & Hbs & Hroot) & Hwf2 & Hfbm & Hblocks); [| done].
    assert (Hbl : blocks fs4 = blocks fs).
    { apply JsArrayFacts.ext.
      - destruct Hwf as [_ ->], Hwf2 as [_ ->]. done.
      - intros i. destruct (Hblocks i) as [Heq | [Hfree Heq]]; [done |].
        rewrite Heq. symmetry. by apply Hempty. }
    destruct fs, fs4. simpl in *. by subst.
Qed.

Lemma copy_failure_keeps_the_tree_witness :
  sameTree oneBlockVolumeOfTwo (snd (copy 2 "/x" "/a/b" oneBlockVolumeOfTwo)).
Proof.
  apply (copy_failure_keeps_the_tree 2 "/x" "/a/b" oneBlockVolumeOfTwo
           (DirectoryNotFound "a")). reflexivity.
Defined.

(** ** Writing and appending *)

(** Releasing a used block raises the count by one. *)
Lemma countFree_release a idx :
  JsArray.get a idx = Some 1 → countFree (JsArray.set idx 0 a) = S (countFree a).
Proof.
  intros Hget. unfold JsArray.get in Hget.
  destruct (a !! idx) as [c |] eqn:Hc; [| done]. simpl in Hget. subst c.
  assert (Hlt : idx < length a) by by eapply lookup_lt_Some.
  rewrite set_in_range_split by done.
  rewrite (cell_split idx a (Some 1) Hc) at 3.
  rewrite !countFree_app, !countFree_cons. repeat case_decide; try done; lia.
Qed.

(** Freeing blocks that are used, no two the same, raises the count by
    their number. *)
Lemma freeBlocks_count ids : ∀ fs,
  wfStore fs → NoDup ids →
  (∀ b, b ∈ ids → JsArray.get (freeBlockMap fs) b = Some 1) →
  countFree (freeBlockMap (snd (freeBlocks ids fs))) = countFree (freeBlockMap fs) + length ids.
Proof.
  induction ids as [| b ids IH]; intros fs Hwf Hnodup Hused; [simpl; lia |].
  apply NoDup_cons in Hnodup as [Hb Hnodup].
  assert (Hget : JsArray.get (freeBlockMap fs) b = Some 1) by (apply Hused; by left).
  assert (Hlt : b < totalBlocks fs).
  { destruct Hwf as [<- _]. destruct (decide (b < length (freeBlockMap fs))); [done |].
    rewrite JsArrayFacts.get_ge in Hget by lia. done. }
  rewrite freeBlocks_cons. destruct (Nat.leb_spec (totalBlocks fs) b); [lia |].
  rewrite IH; try done.
  - simpl. rewrite countFree_release by done. lia.
  - destruct Hwf as [Hf Hb']. split; simpl; rewrite JsArrayFacts.set_in_range; lia.
  - intros b' Hb'. simpl. rewrite JsArrayFacts.get_set_ne; [| set_solver].
    apply Hused. by right.
Qed.

(** [writeFile] on a file found at a path whose normal form is stable. *)
Lemma writeFile_on_file now p content fs normalized f :
  normalizePath p = Ok normalized →
  normalizePath normalized = Ok normalized →
  fst (getNode p fs) = Ok (File f) →
  String.eqb normalized "/" = false ∧
  nodeAt (partsOf normalized) (Directory (root fs)) = Some (File f) ∧
  writeFile now p content fs =
  match allocateChunks DiskFullWriting content (snd (freeBlocks (FileNode.blocks f) fs)) with
  | (Throw e, fs3) => (Throw e, fs3)
  | (Ok newBlocks, fs3) =>
      let f' := FileNode.mk (FileNode.name f) newBlocks (String.length content)
                  (setUpdatedAt now (FileNode.meta f)) in
      (Ok f', withRoot (updateFile (partsOf normalized) (fun _ => f') (root fs3)) fs3)
  end.
Proof.
  intros Hn Hstable Hfile.
  destruct (getNode_file_nodeAt p fs f Hfile) as (n' & Hn' & Hroot & Hnode).
  rewrite Hn in Hn'. injection Hn' as <-. split_and!; try done.
  rewrite writeFile_run, Hn.
  by rewrite (getNodeRef_intro normalized fs normalized (File f) Hstable Hroot Hnode).
Qed.

Lemma writeFile_readback now p content fs normalized f f' fs' :
  normalizePath p = Ok normalized →
  normalizePath normalized = Ok normalized →
  fst (getNode p fs) = Ok (File f) →
  writeFile now p content fs = (Ok f', fs') →
  FileNode.name f' = FileNode.name f ∧
  FileNode.size f' = String.length content ∧
  fst (getNode p fs') = Ok (File f') ∧
  fst (readFile p fs') = Ok content ∧
  NoDup (FileNode.blocks f') ∧
  length (FileNode.blocks f') + getFreeBlockCount fs'
  = countFree (freeBlockMap (snd (freeBlocks (FileNode.blocks f) fs))).
Proof.
  intros Hn Hstable Hfile Hrun.
  destruct (writeFile_on_file now p content fs normalized f Hn Hstable Hfile)
    as (Hroot & Hnode & Heq).
  rewrite Heq in Hrun. clear Heq.
  pose proof (freeBlocks_sameTree (FileNode.blocks f) fs) as (_ & _ & _ & Hroot2).
  set (fs2 := snd (freeBlocks (FileNode.blocks f) fs)) in *.
  destruct (allocateChunks DiskFullWriting content fs2) as [[blks | e] fs3] eqn:Hac; [| done].
  cbv zeta in Hrun. injection Hrun as <- <-.
  pose proof (allocateChunks_Ok _ _ _ _ _ Hac) as ((_ & _ & _ & Hroot3) & Hread & _).
  destruct (allocateChunks_loop DiskFullWriting content fs2) as [fuel Hloop].
  rewrite Hac in Hloop.
  apply allocLoop_count in Hloop as (new & Hnew & Hnodup & _ & Hcount & _).
  simpl in Hnew. subst new.
  set (f' := FileNode.mk _ _ _ _).
  assert (Hg : getNodeRef p (withRoot (updateFile (partsOf normalized) (fun _ => f') (root fs3)) fs3)
               = (Ok (partsOf normalized, File f'),
                  withRoot (updateFile (partsOf normalized) (fun _ => f') (root fs3)) fs3)).
  { apply getNodeRef_intro; [done | done |]. simpl. rewrite Hroot3, Hroot2.
    by apply (nodeAt_updateFile _ (fun _ => f') _ f). }
  split_and!; try done.
  - by rewrite getNode_eq, Hg.
  - rewrite readFile_run, Hg. simpl. by rewrite <- Hread.
  - by rewrite getFreeBlockCount_countFree.
Qed.

(** X25.  Overwriting a file reuses its blocks: [writeFile] frees the old blocks
    before it takes new ones, so it returns whenever the content fits in the
    free blocks together with the blocks of the file (when these are used
    and no two are the same).  The file keeps its name, has the size of the
    content and reads back as it, and the number of blocks in use changes by
    the difference of the two block lists. *)
Theorem writeFile_reuses_the_blocks now p content fs normalized f :
  normalizePath p = Ok normalized →
  normalizePath normalized = Ok normalized →
  fst (getNode p fs) = Ok (File f) →
  wfStore fs → NoDup (FileNode.blocks f) →
  (∀ b, b ∈ FileNode.blocks f → JsArray.get (freeBlockMap fs) b = Some 1) →
  String.length content ≤ blockSize fs * (getFreeBlockCount fs + length (FileNode.blocks f)) →
  ∃ f' fs',
    writeFile now p content fs = (Ok f', fs') ∧
    FileNode.name f' = FileNode.name f ∧
    FileNode.size f' = String.length content ∧
    fst (readFile p fs') = Ok content ∧
    length (FileNode.blocks f') + getFreeBlockCount fs'
    = length (FileNode.blocks f) + getFreeBlockCount fs.
Proof.
  intros Hn Hstable Hfile Hwf Hnodup Hused Hfits.
  pose proof (freeBlocks_count (FileNode.blocks f) fs Hwf Hnodup Hused) as Hcount.
  destruct (writeFile_on_file now p content fs normalized f Hn Hstable Hfile)
    as (_ & _ & Heq).
  pose proof (freeBlocks_sameTree (FileNode.blocks f) fs) as (_ & _ & Hbs & _).
  destruct (allocateChunks_fits DiskFullWriting content
              (snd (freeBlocks (FileNode.blocks f) fs))) as (blks & fs3 & Hac).
  { rewrite Hbs, Hcount, <- getFreeBlockCount_countFree. lia. }
  rewrite Hac in Heq. cbv zeta in Heq.
  eexists _, _. split; [exact Heq |].
  destruct (writeFile_readback now p content fs normalized f _ _ Hn Hstable Hfile Heq)
    as (Hname & Hsize & _ & Hread & _ & Hacc).
  split_and!; try done.
  rewrite Hacc, Hcount, getFreeBlockCount_countFree. lia.
Qed.

Lemma writeFile_reuses_the_blocks_witness :
  ∃ f' fs', writeFile 2 "/x" "wxyz" oneBlockVolume = (Ok f', fs') ∧
            fst (readFile "/x" fs') = Ok "wxyz".
Proof.
  destruct (writeFile_reuses_the_blocks 2 "/x" "wxyz" oneBlockVolume "/x"
              (FileNode.mk "x" [0] 4 (mkMeta 1 1 "root" "rw-r--r--")))
    as (f' & fs' & Hrun & _ & _ & Hread & _);
    [reflexivity | reflexivity | reflexivity | by vm_compute | | | vm_compute; lia |].
  - apply NoDup_singleton.
  - by intros b ->%list_elem_of_singleton.
  - exists f', fs'. split; [exact Hrun | exact Hread].
Defined.

(** X26.  [appendFile] on a file at a path whose normal form is stable: a call
    that returns leaves the file reading as what its blocks held followed by
    the addition, with the size of the two together; and the call returns
    whenever the free blocks can hold both. *)
Theorem appendFile_appends now p extra fs normalized f :
  normalizePath p = Ok normalized →
  normalizePath normalized = Ok normalized →
  fst (getNode p fs) = Ok (File f) →
  let current := readBlocks fs (FileNode.blocks f) in
  fst (readFile p fs) = Ok current ∧
  (∀ f' fs',
     appendFile now p extra fs = (Ok f', fs') →
     fst (readFile p fs') = Ok (current +:+ extra) ∧
     FileNode.size f' = String.length current + String.length extra ∧
     FileNode.name f' = FileNode.name f) ∧
  (String.length current + String.length extra ≤ blockSize fs * getFreeBlockCount fs →
   ∃ f' fs', appendFile now p extra fs = (Ok f', fs')).
Proof.
  intros Hn Hstable Hfile current.
  destruct (getNode_file_nodeAt p fs f Hfile) as (n' & Hn' & Hroot & Hnode).
  rewrite Hn in Hn'. injection Hn' as <-.
  assert (Hread : readFile p fs = (Ok current, fs)).
  { by rewrite readFile_run, (getNodeRef_intro p fs normalized (File f)). }
  assert (Hrun : appendFile now p extra fs = writeFile now p (current +:+ extra) fs).
  { unfold appendFile, bind at 1.
    destruct (getNode p fs) as [res fs1] eqn:Hg. simpl in Hfile. subst res.
    apply (readOnly_run _ _ _ _ (readOnly_getNode p)) in Hg as ->.
    unfold bind. by rewrite Hread. }
  rewrite Hrun, Hread. split_and!; [done | |].
  - intros f' fs' Hw.
    destruct (writeFile_readback now p _ fs normalized f _ _ Hn Hstable Hfile Hw)
      as (Hname & Hsize & _ & Hback & _).
    split_and!; try done. by rewrite Hsize, VFSMoreFacts.length_append.
  - intros Hfits.
    destruct (writeFile_on_file now p (current +:+ extra) fs normalized f Hn Hstable Hfile)
      as (_ & _ & ->).
    pose proof (freeBlocks_sameTree (FileNode.blocks f) fs) as (_ & _ & Hbs & _).
    pose proof (freeBlocks_countFree (FileNode.blocks f) fs) as Hmore.
    destruct (allocateChunks_fits DiskFullWriting (current +:+ extra)
                (snd (freeBlocks (FileNode.blocks f) fs))) as (blks & fs3 & ->).
    { rewrite Hbs, VFSMoreFacts.length_append.
      rewrite getFreeBlockCount_countFree in Hfits. nia. }
    by eexists _, _.
Qed.

Lemma appendFile_appends_witness :
  ∃ f' fs', appendFile 5 "/a" "!" twoFilesVolume = (Ok f', fs') ∧
            fst (readFile "/a" fs') = Ok "one!".
Proof.
  destruct (appendFile_appends 5 "/a" "!" twoFilesVolume "/a"
              (FileNode.mk "a" [0] 3 (mkMeta 1 1 "root" "rw-r--r--")))
    as (_ & Happ & Hfits); [reflexivity | reflexivity | reflexivity |].
  destruct Hfits as (f' & fs' & Hrun); [vm_compute; lia |].
  exists f', fs'. split; [exact Hrun | exact (proj1 (Happ f' fs' Hrun))].
Defined.

(** ** Names and keys *)

(** X27.  [exists] never throws and never changes the volume; it says whether
    [getNode] returns, and is [false] on the empty path, on which
    [getNode] throws. *)
Theorem exists_says_whether_getNode_returns p fs :
  ∃ b, exists_ p fs = (Ok b, fs) ∧
       (b = true ↔ ∃ n, fst (getNode p fs) = Ok n) ∧
       exists_ EmptyString fs = (Ok false, fs).
Proof.
  unfold exists_, tryCatch, bind, ret.
  destruct (getNode p fs) as [[n | e] fs1] eqn:Hg;
    apply (readOnly_run _ _ _ _ (readOnly_getNode p)) in Hg as ->.
  - exists true. split_and!; [done | | done]. split; [by exists n | done].
  - exists false. split_and!; [done | | done]. split; [done | by intros [n Hn]].
Qed.

Section ChildrenForall.
Context {N : Type} (Q : string * N → Prop).
Implicit Types (cs : list (string * N)) (k : string).

Lemma Forall_children_set k v cs :
  Forall Q cs → Q (k, v) → Forall Q (Children.set k v cs).
Proof.
  intros Hcs Hv. induction Hcs as [| [k' v'] cs Hx Hcs IH]; simpl; [by repeat constructor |].
  destruct (String.eqb k k'); by constructor.
Qed.

Lemma Forall_children_delete k cs : Forall Q cs → Forall Q (Children.delete k cs).
Proof.
  intros Hcs. induction Hcs as [| [k' v'] cs Hx Hcs IH]; simpl; [done |].
  destruct (String.eqb k k'); [done | by constructor].
Qed.

Lemma Forall_children_get k v cs : Forall Q cs → Children.get k cs = Some v → Q (k, v).
Proof.
  intros Hcs. induction Hcs as [| [k' v'] cs Hx Hcs IH]; simpl; [done |].
  destruct (String.eqb_spec k k') as [-> | _]; [by intros [= <-] | done].
Qed.

(** A mutation of the entry under [k] keeps what holds of all entries when
    it keeps it of the entry that [children[k]] is. *)
Lemma Forall_children_alter (f : N → N) k cs :
  Forall Q cs →
  (∀ v, Children.get k cs = Some v → Q (k, v) → Q (k, f v)) →
  Forall Q (Children.alter f k cs).
Proof.
  intros Hcs. induction Hcs as [| [k' v'] cs Hx Hcs IH]; simpl; [done |].
  destruct (String.eqb_spec k k') as [<- | _]; intros Hf.
  - constructor; [by apply Hf | done].
  - constructor; [done | by apply IH].
Qed.
End ChildrenForall.

Lemma wellNamed_Directory d :
  wellNamed (Directory d) = true ↔ Forall goodEntry (Dir.children d).
Proof.
  simpl. generalize (Dir.children d). intros cs.
  induction cs as [| [k ch] cs IH]; [by split; [constructor |] |].
  rewrite Forall_cons, <- IH, !andb_true_iff, String.eqb_eq. unfold goodEntry. simpl.
  naive_solver.
Qed.

Lemma wellNamed_setNodeName nm n : wellNamed n = true → wellNamed (setNodeName nm n) = true.
Proof. by destruct n. Qed.

Lemma nodeName_setNodeName nm n : nodeName (setNodeName nm n) = nm.
Proof. by destruct n. Qed.

Lemma wellNamed_attachChild now k node parent :
  wellNamed (Directory parent) = true → nodeName node = k → wellNamed node = true →
  wellNamed (Directory (attachChild now k node parent)) = true.
Proof.
  rewrite !wellNamed_Directory. intros Hp Hk Hn. simpl.
  by apply Forall_children_set.
Qed.

Lemma wellNamed_detachChild now k parent :
  wellNamed (Directory parent) = true →
  wellNamed (Directory (detachChild now k parent)) = true.
Proof.
  rewrite !wellNamed_Directory. intros Hp. simpl. by apply Forall_children_delete.
Qed.

(** A mutation of a directory that keeps its name and its good naming keeps
    the good naming of the tree around it. *)
Lemma wellNamed_updateDir f :
  (∀ x, wellNamed (Directory x) = true →
        wellNamed (Directory (f x)) = true ∧ Dir.name (f x) = Dir.name x) →
  ∀ ref d,
    wellNamed (Directory d) = true →
    wellNamed (Directory (updateDir ref f d)) = true ∧
    Dir.name (updateDir ref f d) = Dir.name d.
Proof.
  intros Hf. induction ref as [| part rest IH]; intros d Hd; [by apply Hf |].
  split; [| done]. rewrite wellNamed_Directory in *. simpl.
  apply Forall_children_alter; [done |].
  intros [x | d'] _ [Hname Hgood]; [done |]. simpl in *.
  destruct (IH d' Hgood) as [Hgood' Hname']. split; simpl; [congruence | done].
Qed.

Lemma wellNamed_updateFile g : ∀ ref d f,
  wellNamed (Directory d) = true →
  nodeAt ref (Directory d) = Some (File f) →
  FileNode.name (g f) = FileNode.name f →
  wellNamed (Directory (updateFile ref g d)) = true ∧
  Dir.name (updateFile ref g d) = Dir.name d.
Proof.
  induction ref as [| part rest IH]; intros d f Hd Hnode Hg; [done |].
  assert (Halt : ∀ F,
    (∀ v, Children.get part (Dir.children d) = Some v → goodEntry (part, v) →
          goodEntry (part, F v)) →
    wellNamed (Directory (Dir.mk (Dir.name d) (Children.alter F part (Dir.children d))
                            (Dir.meta d))) = true).
  { intros F HF. rewrite wellNamed_Directory in *. simpl.
    by apply Forall_children_alter. }
  simpl in Hnode.
  destruct (Children.get part (Dir.children d)) as [child |] eqn:Hget; [| done].
  destruct rest as [| part' rest].
  - simpl in *. injection Hnode as ->. split; [| done]. apply Halt.
    intros v [= <-] [Hname Hgood]. split; simpl in *; [by rewrite Hg | done].
  - split; [| done]. apply Halt.
    intros v [= <-] [Hname Hgood]. destruct child as [x | d']; [done |].
    destruct (IH d' f Hgood Hnode Hg) as [Hgood' Hname'].
    split; [exact (eq_trans Hname' Hname) | exact Hgood'].
Qed.

Lemma wellNamed_dirAt ref : ∀ d x,
  wellNamed (Directory d) = true → dirAt ref d = Some x → wellNamed (Directory x) = true.
Proof.
  induction ref as [| part rest IH]; intros d x Hd Hdir; simpl in Hdir; [congruence |].
  destruct (Children.get part (Dir.children d)) as [[f | d'] |] eqn:Hget; try done.
  apply wellNamed_Directory in Hd.
  destruct (Forall_children_get goodEntry _ _ _ Hd Hget) as [_ Hgood].
  by apply (IH d' x).
Qed.

Lemma wellNamed_entry d k node :
  wellNamed (Directory d) = true → Children.get k (Dir.children d) = Some node →
  nodeName node = k ∧ wellNamed node = true.
Proof.
  intros Hd Hget. apply wellNamed_Directory in Hd.
  apply (Forall_children_get goodEntry _ _ _ Hd Hget).
Qed.

(** The clones [cloneRec] makes are well named, whatever the source. *)
Lemma cloneRec_wellNamed now destName n : ∀ fs c fs',
  cloneRec now destName n fs = (Ok c, fs') → wellNamed c = true.
Proof.
  induction n as [f | d IH] using FSNode_tree_ind; intros fs c fs'; simpl.
  - unfold bind at 1, reading at 1. unfold bind at 1.
    destruct (createFileNode _ _ _ _ _ fs) as [[node | e] fs1]; [| done].
    by intros [= <- <-].
  - unfold bind at 1.
    set (each := fix each (entries acc : list (string * FSNode)) := _).
    destruct (each (Dir.children d) [] fs) as [[cs | e] fs1] eqn:Heach; [| done].
    intros [= <- <-]. apply wellNamed_Directory. simpl.
    enough (Hgen : ∀ entries acc fs0 cs0 fs2,
      Forall (fun kc => ∀ fs c fs', cloneRec now destName (snd kc) fs = (Ok c, fs') →
                                    wellNamed c = true) entries →
      Forall goodEntry acc →
      each entries acc fs0 = (Ok cs0, fs2) → Forall goodEntry cs0)
      by (by apply (Hgen (Dir.children d) [] fs cs fs1)).
    clear. induction entries as [| [k child] entries IHe]; intros acc fs0 cs0 fs2 Hall Hacc.
    + simpl. by intros [= <- <-].
    + simpl. unfold bind at 1.
      destruct (cloneRec now destName child fs0) as [[childClone | e] fs3] eqn:Hc; [| done].
      apply Forall_cons in Hall as [Hchild Hall].
      apply IHe; [done |]. apply Forall_children_set; [done |].
      split; [done |]. simpl. by apply (Hchild fs0 childClone fs3).
Qed.

Lemma allocateChunks_root err content fs :
  root (snd (allocateChunks err content fs)) = root fs.
Proof.
  by destruct (keeps_allocateChunks (sameTree fs) (sameTree_freeBlock fs)
                 ltac:(done) err content fs (sameTree_refl fs)) as (_ & _ & _ & ->).
Qed.

Lemma cloneRec_root now destName n fs :
  root (snd (cloneRec now destName n fs)) = root fs.
Proof.
  by destruct (keeps_cloneRec (sameTree fs) (sameTree_freeBlock fs)
                 ltac:(done) now destName n fs (sameTree_refl fs)) as (_ & _ & _ & ->).
Qed.

Lemma treeInv_withRoot_updateDir f ref fs fs2 :
  (∀ x, wellNamed (Directory x) = true →
        wellNamed (Directory (f x)) = true ∧ Dir.name (f x) = Dir.name x) →
  treeInv fs → treeInv (withRoot (updateDir ref f (root fs)) fs2).
Proof.
  intros Hf [Hname Hgood]. destruct (wellNamed_updateDir f Hf ref (root fs) Hgood) as [H1 H2].
  split; simpl; [congruence | done].
Qed.

Lemma attachChild_keeps now k node :
  nodeName node = k → wellNamed node = true →
  ∀ x, wellNamed (Directory x) = true →
       wellNamed (Directory (attachChild now k node x)) = true ∧
       Dir.name (attachChild now k node x) = Dir.name x.
Proof. intros Hk Hn x Hx. split; [by apply wellNamed_attachChild | done]. Qed.

Lemma detachChild_keeps now k :
  ∀ x, wellNamed (Directory x) = true →
       wellNamed (Directory (detachChild now k x)) = true ∧
       Dir.name (detachChild now k x) = Dir.name x.
Proof. intros x Hx. split; [by apply wellNamed_detachChild | done]. Qed.

Lemma resolveParent_entry p fs pref parent nm node :
  treeInv fs →
  fst (resolveParent p fs) = Ok (pref, parent, nm) →
  Children.get nm (Dir.children parent) = Some node →
  nodeName node = nm ∧ wellNamed node = true.
Proof.
  intros [_ Hgood] Hres Hget.
  destruct (resolveParent p fs) as [res fs1] eqn:Hrp. simpl in Hres. subst res.
  apply resolveParent_run in Hrp as (_ & normalized & _ & Hloop).
  apply resolveParentLoop_Ok in Hloop as (pre & _ & _ & Hdir).
  apply (wellNamed_entry parent); [| done]. by apply (wellNamed_dirAt pre (root fs)).
Qed.

Lemma treeInv_root fs fs' : root fs' = root fs → treeInv fs → treeInv fs'.
Proof. unfold treeInv. by intros ->. Qed.

Lemma treeInv_createDirectory now p o m fs :
  treeInv fs → treeInv (snd (createDirectory now p o m fs)).
Proof.
  intros Hinv. rewrite createDirectory_run.
  destruct (normalizePath p) as [normalized | e]; [| done].
  destruct (String.eqb normalized "/"); [done |].
  destruct (resolveParent normalized fs) as [[[[pref parent] nm] | e] fs1]; [| done].
  destruct (Children.truthy nm (Dir.children parent)); [done |].
  simpl. apply treeInv_withRoot_updateDir; [| done]. by apply attachChild_keeps.
Qed.

Lemma treeInv_createFile now p content o m fs :
  treeInv fs → treeInv (snd (createFile now p content o m fs)).
Proof.
  intros Hinv. rewrite createFile_run.
  destruct (normalizePath p) as [normalized | e]; [| done].
  destruct (resolveParent normalized fs) as [[[[pref parent] nm] | e] fs1] eqn:Hrp;
    apply resolveParent_run in Hrp as (-> & _); [| done].
  destruct (Children.truthy nm (Dir.children parent)); [done |].
  pose proof (allocateChunks_root DiskFullCreating content fs) as Hroot.
  destruct (allocateChunks DiskFullCreating content fs) as [[blks | e] fs2]; simpl in *.
  - rewrite Hroot. apply treeInv_withRoot_updateDir; [| done]. by apply attachChild_keeps.
  - by apply (treeInv_root fs).
Qed.

Lemma treeInv_writeFile now p content fs :
  treeInv fs → treeInv (snd (writeFile now p content fs)).
Proof.
  intros Hinv. rewrite writeFile_run.
  destruct (normalizePath p) as [normalized | e]; [| done].
  destruct (getNodeRef normalized fs) as [[[ref [f | d]] | e] fs1] eqn:Hg; try done.
  apply getNodeRef_run in Hg as (_ & Hnode & _).
  pose proof (freeBlocks_sameTree (FileNode.blocks f) fs) as (_ & _ & _ & Hroot2).
  cbv zeta.
  pose proof (allocateChunks_root DiskFullWriting content
                (snd (freeBlocks (FileNode.blocks f) fs))) as Hroot3.
  destruct (allocateChunks DiskFullWriting content _) as [[blks | e] fs3]; simpl in *.
  - rewrite Hroot3, Hroot2. destruct Hinv as [Hname Hgood].
    destruct (wellNamed_updateFile
                (fun _ => FileNode.mk (FileNode.name f) blks (String.length content)
                            (setUpdatedAt now (FileNode.meta f)))
                ref (root fs) f Hgood Hnode eq_refl) as [H1 H2].
    split; simpl; [congruence | done].
  - apply (treeInv_root fs); [congruence | done].
Qed.

Lemma treeInv_appendFile now p extra fs :
  treeInv fs → treeInv (snd (appendFile now p extra fs)).
Proof.
  intros Hinv. unfold appendFile, bind.
  destruct (getNode p fs) as [[[f | d] | e] fs1] eqn:Hg;
    apply (readOnly_run _ _ _ _ (readOnly_getNode p)) in Hg as ->; try done.
  destruct (readFile p fs) as [[current | e] fs1] eqn:Hr;
    apply (readOnly_run _ _ _ _ (readOnly_readFile p)) in Hr as ->; [| done].
  by apply treeInv_writeFile.
Qed.

Lemma treeInv_deleteNode now p fs :
  treeInv fs → treeInv (snd (deleteNode now p fs)).
Proof.
  intros Hinv. rewrite deleteNode_run.
  destruct (normalizePath p) as [normalized | e]; [| done].
  destruct (String.eqb normalized "/"); [done |].
  destruct (resolveParent normalized fs) as [[[[pref parent] nm] | e] fs1]; [| done].
  destruct (Children.get nm (Dir.children parent)); [| done].
  simpl. apply treeInv_withRoot_updateDir; [| done]. apply detachChild_keeps.
Qed.

Lemma treeInv_rename now p newName fs :
  treeInv fs → treeInv (snd (rename now p newName fs)).
Proof.
  intros Hinv. rewrite rename_run.
  destruct (normalizePath p) as [normalized | e]; [| done].
  destruct (resolveParent normalized fs) as [[[[pref parent] nm] | e] fs1] eqn:Hrp; [| done].
  destruct (Children.get nm (Dir.children parent)) as [node |] eqn:Hnode; [| done].
  destruct (Children.truthy newName (Dir.children parent)); [done |].
  destruct (resolveParent_entry normalized fs pref parent nm node Hinv) as [_ Hgood];
    [by rewrite Hrp | done |].
  simpl. apply treeInv_withRoot_updateDir; [| done].
  intros x Hx. split; [| done].
  apply wellNamed_attachChild;
    [| apply nodeName_setNodeName | by apply wellNamed_setNodeName].
  rewrite wellNamed_Directory in *. simpl. by apply Forall_children_delete.
Qed.

Lemma treeInv_move now src dst fs :
  treeInv fs → treeInv (snd (move now src dst fs)).
Proof.
  intros Hinv. rewrite move_run.
  destruct (normalizePath src) as [sn | e]; [| done].
  destruct (normalizePath dst) as [dn | e]; [| done].
  destruct (resolveParent sn fs) as [[[[sref sParent] sName] | e] fs1] eqn:Hrp; [| done].
  destruct (Children.get sName (Dir.children sParent)) as [node |] eqn:Hnode; [| done].
  destruct (resolveParent_entry sn fs sref sParent sName node Hinv) as [_ Hgood];
    [by rewrite Hrp | done |].
  destruct (tryCatch _ _ fs) as [[[[dref destParent] destName] | e] fs2]; [| done].
  destruct (Children.truthy destName (Dir.children destParent)); [done |].
  cbv zeta. simpl.
  pose proof (treeInv_withRoot_updateDir _ sref fs fs (detachChild_keeps now sName) Hinv)
    as Hdetached.
  destruct (isPrefixOf (sref ++ [sName]) dref); [done |].
  apply (treeInv_withRoot_updateDir _ dref _ fs
           (attachChild_keeps now destName (setNodeName destName node)
              (nodeName_setNodeName destName node)
              (wellNamed_setNodeName destName node Hgood)) Hdetached).
Qed.

Lemma treeInv_copy now src dst fs :
  treeInv fs → treeInv (snd (copy now src dst fs)).
Proof.
  intros Hinv. rewrite copy_run.
  destruct (getNode src fs) as [[node | e] fs1]; [| done].
  destruct (normalizePath dst) as [dn | e]; [| done].
  destruct (tryCatch _ _ fs) as [[[[dref destParent] destName] | e] fs2]; [| done].
  destruct (Children.truthy destName (Dir.children destParent)); [done |].
  pose proof (cloneRec_root now destName node fs) as Hroot.
  destruct (cloneRec now destName node fs) as [[copied | e] fs3] eqn:Hclone; simpl in *.
  - rewrite Hroot. apply treeInv_withRoot_updateDir; [| done].
    apply attachChild_keeps;
      [by apply (cloneRec_name now destName node fs copied fs3)
      | by apply (cloneRec_wellNamed now destName node fs copied fs3)].
  - by apply (treeInv_root fs).
Qed.

Lemma exec_treeInv now op fs : treeInv fs → treeInv (exec now op fs).
Proof.
  intros Hinv. destruct op; simpl.
  - unfold allocateBlock. by destruct (indexOf0 (freeBlockMap fs)).
  - unfold freeBlock. by destruct (totalBlocks fs <=? idx).
  - by apply treeInv_createDirectory.
  - by rewrite readOnly_listDirectory.
  - by apply treeInv_createFile.
  - by rewrite readOnly_readFile.
  - by apply treeInv_writeFile.
  - by apply treeInv_appendFile.
  - by apply treeInv_deleteNode.
  - by apply treeInv_rename.
  - by apply treeInv_move.
  - by apply treeInv_copy.
  - by rewrite readOnly_stat.
  - by rewrite readOnly_search.
  - done.
Qed.

(** In a well-named tree the node behind a reference carries the last key
    of the reference. *)
Lemma nodeAt_name ref : ∀ d node,
  wellNamed (Directory d) = true →
  nodeAt ref (Directory d) = Some node →
  nodeName node = default (Dir.name d) (last ref).
Proof.
  induction ref as [| k rest IH]; intros d node Hd Hnode; simpl in Hnode.
  - by injection Hnode as <-.
  - destruct (Children.get k (Dir.children d)) as [child |] eqn:Hget; [| done].
    destruct (wellNamed_entry d k child Hd Hget) as [Hname Hgood].
    destruct child as [f | d'].
    + destruct rest as [| k' rest]; [| done]. by injection Hnode as <-.
    + rewrite (IH d' node Hgood Hnode). simpl in Hname. rewrite Hname.
      destruct rest as [| k' rest]; [done |].
      change (last (k :: k' :: rest)) with (last (k' :: rest)).
      destruct (last (k' :: rest)) eqn:Hlast; [done |]. by apply last_None in Hlast.
Qed.

(** X28.  In every volume reached from a new one by the calls of [Op], with
    [rename] and [move] only on sources that are nodes, the root is named
    ["/"] and every entry is stored under the name its node carries; so, at
    a path no segment of which is a name every object inherits, the node
    [getNode] finds is named by the last segment of the normalized path (the
    root by ["/"]), which is the name [stat] reports. *)
Theorem names_are_final_segments fs :
  reachable ownSource fs →
  treeInv fs ∧
  ∀ p n node,
    normalizePath p = Ok n →
    Forall (fun s => inheritedName s = false) (partsOf n) →
    fst (getNode p fs) = Ok node →
    nodeName node = default "/" (last (partsOf n)).
Proof.
  intros Hreach.
  assert (Hinv : treeInv fs).
  { induction Hreach as [now nm total bs | fs now op _ IH _]; [done |].
    by apply exec_treeInv. }
  split; [done |]. intros p n node Hn _ Hnode. destruct Hinv as [Hname Hgood].
  rewrite getNode_eq in Hnode.
  destruct (getNodeRef p fs) as [[[ref x] | e] fs1] eqn:Hg; [| done].
  simpl in Hnode. injection Hnode as ->.
  apply getNodeRef_run in Hg as (_ & Hat & n' & Hn' & Href).
  rewrite Hn in Hn'. injection Hn' as <-.
  assert (ref = partsOf n) as ->.
  { destruct (String.eqb_spec n "/") as [-> | _]; by subst ref. }
  rewrite <- Hname. by apply nodeAt_name.
Qed.

Lemma names_are_final_segments_witness :
  ∃ node, fst (getNode "/b" twoFilesVolume) = Ok node ∧ nodeName node = "b".
Proof.
  destruct (names_are_final_segments twoFilesVolume) as [_ Hnames].
  - apply (reachable_step _ _ 2 (OpCreateFile "/b" "two" None None)); [| done].
    apply (reachable_step _ _ 1 (OpCreateFile "/a" "one" None None)); [| done].
    apply reachable_new.
  - exists (File (FileNode.mk "b" [1] 3 (mkMeta 2 2 "root" "rw-r--r--"))).
    split; [reflexivity |].
    apply (Hnames "/b" "/b"); [reflexivity | by repeat constructor | reflexivity].
Defined.

(** ** Disk usage *)

Lemma length_take n s : String.length (Str.take n s) ≤ n.
Proof.
  revert s. induction n as [| n IH]; intros [| c s]; simpl; try lia.
  specialize (IH s). lia.
Qed.

Lemma length_slice a n s : String.length (Str.slice a (a + n) s) ≤ n.
Proof. unfold Str.slice. replace (a + n - a) with n by lia. apply length_take. Qed.

Lemma chunksFit_withRoot r fs : chunksFit fs → chunksFit (withRoot r fs).
Proof. done. Qed.

Lemma chunksFit_afterTurn fs idx chunk :
  chunksFit fs → idx < length (freeBlockMap fs) → String.length chunk ≤ blockSize fs →
  chunksFit (afterTurn fs idx chunk).
Proof.
  intros [Hwf Hfit] Hidx Hchunk. split; [by apply afterTurn_wf |].
  intros i s. rewrite afterTurn_blocks. case_decide; [by intros [= <-] | apply Hfit].
Qed.

Lemma chunksFit_allocateBlock : keeps chunksFit allocateBlock.
Proof.
  intros fs [Hwf Hfit]. split; [by apply wfStore_allocateBlock |].
  unfold allocateBlock. destruct (indexOf0 (freeBlockMap fs)) as [idx |]; [| done].
  intros i s. simpl. rewrite JsArrayFacts.get_set.
  case_decide; [intros [= <-]; simpl; lia | apply Hfit].
Qed.

Lemma chunksFit_freeBlock idx : keeps chunksFit (freeBlock idx).
Proof.
  intros fs [Hwf Hfit]. split; [by apply wfStore_freeBlock |].
  unfold freeBlock. destruct (totalBlocks fs <=? idx); [done |].
  intros i s. simpl. rewrite JsArrayFacts.get_set.
  case_decide; [intros [= <-]; simpl; lia | apply Hfit].
Qed.

Lemma chunksFit_freeBlocks ids : keeps chunksFit (freeBlocks ids).
Proof. apply (keeps_freeBlocks chunksFit chunksFit_freeBlock). Qed.

Lemma chunksFit_allocLoop fuel err content :
  ∀ cursor acc fs r,
    chunksFit fs →
    allocLoop fuel err (blockSize fs) content cursor acc fs = Some r → chunksFit (snd r).
Proof.
  induction fuel as [| fuel IH]; intros cursor acc fs r Hinv Hrun.
  - simpl in Hrun. destruct (cursor <? String.length content); [done |].
    by injection Hrun as <-.
  - destruct (decide (cursor < String.length content)) as [Hlt | Hge];
      [| rewrite allocLoop_done in Hrun by lia; by injection Hrun as <-].
    rewrite allocLoop_unfold in Hrun by done.
    destruct (indexOf0 (freeBlockMap fs)) as [idx |] eqn:Hidx.
    + apply indexOf0_Some in Hidx as (_ & Hlen & _).
      apply (IH (cursor + blockSize fs) (acc ++ [idx])
               (afterTurn fs idx (Str.slice cursor (cursor + blockSize fs) content)));
        [| exact Hrun].
      apply chunksFit_afterTurn; [done | done | apply length_slice].
    + injection Hrun as <-. unfold bind.
      pose proof (chunksFit_freeBlocks acc fs Hinv) as Hfreed.
      by destruct (freeBlocks acc fs) as [[[] | e] fs1].
Qed.

Lemma chunksFit_allocateChunks err content : keeps chunksFit (allocateChunks err content).
Proof.
  intros fs Hinv. destruct (allocateChunks_loop err content fs) as [fuel Hloop].
  by apply (chunksFit_allocLoop fuel err content 0 [] fs).
Qed.

Lemma chunksFit_createFile now p content o m :
  keeps chunksFit (createFile now p content o m).
Proof.
  intros fs Hinv. rewrite createFile_run.
  destruct (normalizePath p) as [normalized | e]; [| done].
  destruct (resolveParent normalized fs) as [[[[pref parent] nm] | e] fs1] eqn:Hrp;
    apply resolveParent_run in Hrp as (-> & _); [| done].
  destruct (Children.truthy nm (Dir.children parent)); [done |].
  pose proof (chunksFit_allocateChunks DiskFullCreating content fs Hinv) as H.
  by destruct (allocateChunks DiskFullCreating content fs) as [[blks | e] fs2].
Qed.

Lemma chunksFit_writeFile now p content : keeps chunksFit (writeFile now p content).
Proof.
  intros fs Hinv. rewrite writeFile_run.
  destruct (normalizePath p) as [normalized | e]; [| done].
  destruct (getNodeRef normalized fs) as [[[ref [f | d]] | e] fs1]; try done.
  cbv zeta.
  pose proof (chunksFit_allocateChunks DiskFullWriting content _
                (chunksFit_freeBlocks (FileNode.blocks f) fs Hinv)) as H.
  by destruct (allocateChunks DiskFullWriting content _) as [[blks | e] fs3].
Qed.

Lemma chunksFit_appendFile now p extra : keeps chunksFit (appendFile now p extra).
Proof.
  intros fs Hinv. unfold appendFile, bind.
  destruct (getNode p fs) as [[[f | d] | e] fs1] eqn:Hg;
    apply (readOnly_run _ _ _ _ (readOnly_getNode p)) in Hg as ->; try done.
  destruct (readFile p fs) as [[current | e] fs1] eqn:Hr;
    apply (readOnly_run _ _ _ _ (readOnly_readFile p)) in Hr as ->; [| done].
  by apply chunksFit_writeFile.
Qed.

Lemma chunksFit_cloneRec now destName n : keeps chunksFit (cloneRec now destName n).
Proof.
  induction n as [f | d IH] using FSNode_tree_ind; intros fs Hinv; simpl.
  - unfold bind at 1, reading at 1, createFileNode, bind, ret.
    pose proof (chunksFit_allocateChunks DiskFullCreating
                  (readBlocks fs (FileNode.blocks f)) fs Hinv) as H.
    by destruct (allocateChunks _ _ fs) as [[blks | e] fs2].
  - unfold bind at 1.
    set (each := fix each (entries acc : list (string * FSNode)) := _).
    enough (Hgen : ∀ entries acc fs0,
      Forall (fun kc => keeps chunksFit (cloneRec now destName (snd kc))) entries →
      chunksFit fs0 → chunksFit (snd (each entries acc fs0))).
    { specialize (Hgen (Dir.children d) [] fs IH Hinv).
      by destruct (each (Dir.children d) [] fs) as [[cs | e] fs1]. }
    clear. induction entries as [| [k child] entries IHe]; intros acc fs0 Hall Hinv; [done |].
    apply Forall_cons in Hall as [Hchild Hall]. simpl. unfold bind at 1.
    specialize (Hchild fs0 Hinv). simpl in Hchild.
    destruct (cloneRec now destName child fs0) as [[childClone | e] fs3]; [| done].
    by apply IHe.
Qed.

Lemma chunksFit_copy now src dst : keeps chunksFit (copy now src dst).
Proof.
  intros fs Hinv. rewrite copy_run.
  destruct (getNode src fs) as [[node | e] fs1]; [| done].
  destruct (normalizePath dst) as [dn | e]; [| done].
  destruct (tryCatch _ _ fs) as [[[[dref destParent] destName] | e] fs2]; [| done].
  destruct (Children.truthy destName (Dir.children destParent)); [done |].
  pose proof (chunksFit_cloneRec now destName node fs Hinv) as H.
  by destruct (cloneRec now destName node fs) as [[copied | e] fs3].
Qed.

Lemma chunksFit_format now zeroBlocks : keeps chunksFit (format now zeroBlocks).
Proof.
  intros fs [Hwf Hfit]. split.
  - by apply wfStore_format.
  - intros i s. simpl. destruct zeroBlocks; [| apply Hfit].
    rewrite JsArrayFacts.get_fill. case_decide; [intros [= <-]; simpl; lia | done].
Qed.

Lemma chunksFit_new now nm total bs : chunksFit (newFileSystem now nm total bs).
Proof.
  split; [apply wfStore_new |]. intros i s. simpl. rewrite JsArrayFacts.get_fill.
  case_decide; [intros [= <-]; simpl; lia | done].
Qed.

Lemma exec_chunksFit now op fs : chunksFit fs → chunksFit (exec now op fs).
Proof.
  intros Hinv. destruct op; simpl.
  - by apply chunksFit_allocateBlock.
  - by apply chunksFit_freeBlock.
  - by apply (keeps_createDirectory chunksFit chunksFit_withRoot).
  - by rewrite readOnly_listDirectory.
  - by apply chunksFit_createFile.
  - by rewrite readOnly_readFile.
  - by apply chunksFit_writeFile.
  - by apply chunksFit_appendFile.
  - by apply (keeps_deleteNode chunksFit chunksFit_withRoot chunksFit_freeBlock).
  - by apply (keeps_rename chunksFit chunksFit_withRoot).
  - by apply (keeps_move chunksFit chunksFit_withRoot).
  - by apply chunksFit_copy.
  - by rewrite readOnly_stat.
  - by rewrite readOnly_search.
  - by apply chunksFit_format.
Qed.

(** The sum of the lengths of chunks that all fit in a block. *)
Lemma usedBytes_bound bs (l : list (option string)) : ∀ n,
  (∀ i s, JsArray.get l i = Some s → String.length s ≤ bs) →
  foldl (fun sum b => sum + match b with
                            | Some s => String.length s
                            | None => 0
                            end) n l ≤ n + length l * bs.
Proof.
  induction l as [| b l IH]; intros n Hfit; simpl; [lia |].
  etrans; [apply IH; intros i s; apply (Hfit (S i) s) |].
  destruct b as [s |]; [| lia]. specialize (Hfit 0 s eq_refl). lia.
Qed.

(** X29.  In every volume constructed with natural numbers for [totalBlocks]
    and [blockSize] and reached from there by the calls of [Op], with
    [rename] and [move] only on sources that are nodes, no chunk is longer
    than a block and the store has [totalBlocks] cells, so the used bytes
    the disk usage route computes never exceed the total bytes, and the free
    bytes it computes are never negative. *)
Theorem disk_usage_within_capacity fs :
  reachable ownSource fs →
  chunksFit fs ∧ usedBytes fs ≤ totalBytes fs ∧ (0 ≤ freeBytes fs)%Z.
Proof.
  intros Hreach.
  assert (Hinv : chunksFit fs).
  { induction Hreach as [now nm total bs | fs now op _ IH _];
      [apply chunksFit_new | by apply exec_chunksFit]. }
  assert (Hle : usedBytes fs ≤ totalBytes fs).
  { destruct Hinv as [[_ Hlen] Hfit]. unfold usedBytes, totalBytes. rewrite <- Hlen.
    apply (usedBytes_bound (blockSize fs) (blocks fs) 0 Hfit). }
  split_and!; [done | done |]. unfold freeBytes. lia.
Qed.

Lemma disk_usage_within_capacity_witness :
  usedBytes twoFilesVolume ≤ totalBytes twoFilesVolume.
Proof.
  apply (disk_usage_within_capacity twoFilesVolume).
  apply (reachable_step _ _ 2 (OpCreateFile "/b" "two" None None)); [| done].
  apply (reachable_step _ _ 1 (OpCreateFile "/a" "one" None None)); [| done].
  apply reachable_new.
Defined.
